(** * BrowserGeist vision engine: template matching, text resolution, template cache

    A shallow embedding of [src/vision/template_matcher.py]:
    the [MatchResult] record, the matchers of [TemplateMatcher]
    ([_match_template], [_match_multi_scale], [_match_features],
    [_match_with_preprocessing], [find_template_with_fallbacks], [find_text])
    and the [VisionCache] ([get_template], [_add_to_cache]).

    Python floats are IEEE binary64 values, modelled by Rocq's primitive
    floats, and the [np.float32] values of the Feature Matcher are their
    roundings to binary32; Python ints are [Z]; a [str] is a [string] of
    code points below 256.  OpenCV, SIFT/FLANN, pytesseract, difflib, the
    file system and the clock are outside the repository: they are taken as
    an explicit record of functions, and every call to OpenCV or to the OCR
    engine is recorded in a call log so that "which computation was
    attempted" is observable.  Python exceptions are an explicit outcome. *)

From Stdlib Require Import ZArith List String Ascii Bool Lia Floats DecimalString.
Import ListNotations.

Set Warnings "-inexact-float".

Local Open Scope string_scope.
Local Open Scope list_scope.
Local Open Scope Z_scope.

(* ================================================================== *)
(** * Python runtime: exceptions *)
(* ================================================================== *)

(** The exception classes that the modelled code can meet.  [cv2_error] is
    [cv2.error]; all of them are subclasses of [Exception]. *)
Inductive exn : Type :=
| ValueError
| KeyError
| IndexError
| OverflowError
| ImportError
| OSError
| cv2_error.

(** How a call ends: it returns or it raises. *)
Inductive outcome (A : Type) : Type :=
| Ok (a : A)
| Raise (e : exn).
Arguments Ok {A} a.
Arguments Raise {A} e.

(* ================================================================== *)
(** * Python runtime: numbers and sequences *)
(* ================================================================== *)

(** [len(xs)]. *)
Definition len {A} (xs : list A) : Z := Z.of_nat (List.length xs).

(** [xs[i]] on a list or tuple: negative indices count from the end. *)
Definition py_index {A} (xs : list A) (i : Z) : outcome A :=
  let j := if i <? 0 then len xs + i else i in
  if j <? 0 then Raise IndexError
  else match nth_error xs (Z.to_nat j) with
       | Some a => Ok a
       | None => Raise IndexError
       end.

(** [h, w = arr.shape]: unpacking raises unless there are exactly two. *)
Definition unpack2 (shp : list Z) : outcome (Z * Z) :=
  match shp with
  | [h; w] => Ok (h, w)
  | _ => Raise ValueError
  end.

(** [float(n)] for an int [n] of magnitude below [2^63] (image dimensions,
    counts). *)
Definition float_of_int (n : Z) : float :=
  if n <? 0 then PrimFloat.opp (PrimFloat.of_uint63 (Uint63Axioms.of_Z (- n)))
  else PrimFloat.of_uint63 (Uint63Axioms.of_Z n).

(** [int(f)]: truncation toward zero; [int(nan)] and [int(inf)] raise. *)
Definition int_of_float (f : float) : outcome Z :=
  match Prim2SF f with
  | S754_zero _ => Ok 0
  | S754_finite s m e =>
      let mag := Z.shiftl (Z.pos m) e in
      Ok (if s then - mag else mag)
  | S754_infinity _ => Raise OverflowError
  | S754_nan => Raise ValueError
  end.

Definition is_nan (f : float) : bool := negb (PrimFloat.eqb f f).

(** The order of floats: every float but NaN has a rank, a triple of
    integers compared lexicographically (sign class, exponent, mantissa). *)
Definition sf_rank (f : spec_float) : option (Z * Z * Z) :=
  match f with
  | S754_nan => None
  | S754_infinity true => Some (-2, 0, 0)
  | S754_finite true m e => Some (-1, - e, - Z.pos m)
  | S754_zero _ => Some (0, 0, 0)
  | S754_finite false m e => Some (1, e, Z.pos m)
  | S754_infinity false => Some (2, 0, 0)
  end.

Definition frank (f : float) : option (Z * Z * Z) := sf_rank (Prim2SF f).

Definition lex3 (a b : Z * Z * Z) : comparison :=
  let '(a1, a2, a3) := a in
  let '(b1, b2, b3) := b in
  match a1 ?= b1 with
  | Eq => match a2 ?= b2 with Eq => a3 ?= b3 | c => c end
  | c => c
  end.

(** [np.min] and [np.max] of a one-dimensional array: NaN propagates, an
    empty array raises. *)
Definition np_min2 (a b : float) : float :=
  if is_nan a then a else if is_nan b then b
  else if PrimFloat.ltb b a then b else a.

Definition np_max2 (a b : float) : float :=
  if is_nan a then a else if is_nan b then b
  else if PrimFloat.ltb a b then b else a.

Definition np_min (xs : list float) : outcome float :=
  match xs with
  | [] => Raise ValueError
  | a :: xs' => Ok (fold_left np_min2 xs' a)
  end.

Definition np_max (xs : list float) : outcome float :=
  match xs with
  | [] => Raise ValueError
  | a :: xs' => Ok (fold_left np_max2 xs' a)
  end.

(** numpy's [float32] arrays hold binary32 numbers, and every binary32
    number is a binary64 number: the model keeps them in binary64 floats.
    [np_float32 f] is [f] rounded to binary32 (to nearest, ties to even;
    what [np.float32(...)] does to a Python float), and [f32_sub a b] is
    the binary32 difference of two binary32 numbers, the exact difference
    rounded once. *)
Definition np_float32 (f : float) : float :=
  match Prim2SF f with
  | S754_finite s m e => SF2Prim (binary_round 24 128 s m e)
  | _ => f
  end.

Definition f32_sub (a b : float) : float :=
  SF2Prim (SFsub 24 128 (Prim2SF a) (Prim2SF b)).

(** [np.sum] of an integer array. *)
Definition np_sum (xs : list Z) : Z := fold_left Z.add xs 0.

(** Decimal digits of a natural number, and [f"{v:.df}"]: the exact binary
    value rounded half-to-even to [d] decimals. *)
Definition digits_of (n : Z) : string :=
  NilZero.string_of_uint (N.to_uint (Z.to_N n)).

Fixpoint zeros (k : nat) : string :=
  match k with
  | O => ""
  | Datatypes.S k' => String "0" (zeros k')
  end.

Definition zero_pad (d : nat) (s : string) : string :=
  (zeros (d - String.length s) ++ s)%string.

Definition round_half_even (num den : Z) : Z :=
  let q := num / den in
  let r := num mod den in
  match 2 * r ?= den with
  | Lt => q
  | Gt => q + 1
  | Eq => if Z.even q then q else q + 1
  end.

Definition format_fixed (d : nat) (f : float) : string :=
  match Prim2SF f with
  | S754_nan => "nan"
  | S754_infinity s => if s then "-inf" else "inf"
  | S754_zero s =>
      ((if s then "-" else "") ++ "0" ++
       (match d with O => "" | _ => "." ++ zero_pad d "" end))%string
  | S754_finite s m e =>
      let scale := 10 ^ Z.of_nat d in
      let n := if 0 <=? e then Z.pos m * 2 ^ e * scale
               else round_half_even (Z.pos m * scale) (2 ^ (- e)) in
      ((if s then "-" else "") ++ digits_of (n / scale) ++
       (match d with O => "" | _ => "." ++ zero_pad d (digits_of (n mod scale)) end))%string
  end.

(* ================================================================== *)
(** * Images, OpenCV and the other external collaborators *)
(* ================================================================== *)

(** A numpy array: its [shape] and its elements in row-major order. *)
Record ndarray : Type := mk_ndarray {
  shape : list Z;
  data : list float
}.

(** The three scoring formulas of [cv2.matchTemplate] that the module uses. *)
Inductive tm_method : Type :=
| TM_CCOEFF_NORMED
| TM_CCORR_NORMED
| TM_SQDIFF_NORMED.

Definition tm_method_eqb (a b : tm_method) : bool :=
  match a, b with
  | TM_CCOEFF_NORMED, TM_CCOEFF_NORMED => true
  | TM_CCORR_NORMED, TM_CCORR_NORMED => true
  | TM_SQDIFF_NORMED, TM_SQDIFF_NORMED => true
  | _, _ => false
  end.

(** [cv2.KeyPoint] and [cv2.DMatch], as far as the module reads them. *)
Record KeyPoint : Type := mk_KeyPoint { pt : float * float }.

Record DMatch : Type := mk_DMatch {
  queryIdx : Z;
  trainIdx : Z;
  distance : float
}.

Definition descriptor : Type := list float.
Definition point : Type := (float * float)%type.
Definition homography : Type := list float.

(** The image transforms of [_match_with_preprocessing] that call OpenCV. *)
Inductive transform : Type :=
| GaussianBlur
| threshold_otsu
| Canny
| morphologyEx_close.

(** The dictionary returned by [pytesseract.image_to_data]. *)
Record ocr_data : Type := mk_ocr_data {
  ocr_text : list string;
  ocr_conf : list float;
  ocr_left : list Z;
  ocr_top : list Z;
  ocr_width : list Z;
  ocr_height : list Z
}.

(** What the module calls outside the repository.  Each function is the
    library's result on its arguments: a value or an exception. *)
Record externals : Type := mk_externals {
  ext_cvtColor : ndarray -> outcome ndarray;
  ext_matchTemplate : ndarray -> ndarray -> tm_method -> outcome ndarray;
  ext_minMaxLoc : ndarray -> outcome (float * float * (Z * Z) * (Z * Z));
  ext_resize : ndarray -> Z * Z -> outcome ndarray;
  ext_detectAndCompute :
    ndarray -> outcome (list KeyPoint * option (list descriptor));
  ext_knnMatch :
    list descriptor -> list descriptor -> Z -> outcome (list (list DMatch));
  ext_findHomography :
    list point -> list point -> outcome (option homography * option (list Z));
  ext_perspectiveTransform : list point -> homography -> outcome (list point);
  ext_transform : transform -> ndarray -> outcome ndarray;
  ext_pytesseract : option (ndarray -> outcome ocr_data);
  ext_ratio : string -> string -> float
}.

(** One entry of the call log per call into OpenCV or pytesseract. *)
Inductive cv_call : Type :=
| call_cvtColor (img : ndarray)
| call_matchTemplate (img templ : ndarray) (m : tm_method)
| call_minMaxLoc (res : ndarray)
| call_resize (img : ndarray) (dsize : Z * Z)
| call_detectAndCompute (img : ndarray)
| call_knnMatch (des1 des2 : list descriptor) (k : Z)
| call_findHomography (src dst : list point)
| call_perspectiveTransform (pts : list point) (H : homography)
| call_transform (t : transform) (img : ndarray)
| call_image_to_data (img : ndarray).

(** The library function behind a log entry. *)
Definition call_name (c : cv_call) : string :=
  match c with
  | call_cvtColor _ => "cvtColor"
  | call_matchTemplate _ _ _ => "matchTemplate"
  | call_minMaxLoc _ => "minMaxLoc"
  | call_resize _ _ => "resize"
  | call_detectAndCompute _ => "detectAndCompute"
  | call_knnMatch _ _ _ => "knnMatch"
  | call_findHomography _ _ => "findHomography"
  | call_perspectiveTransform _ _ => "perspectiveTransform"
  | call_transform _ _ => "transform"
  | call_image_to_data _ => "image_to_data"
  end.

Definition log : Type := list cv_call.

(** ** Computations that call out: an outcome and the log of the calls made *)

Definition W (A : Type) : Type := (outcome A * log)%type.

Definition ret {A} (a : A) : W A := (Ok a, []).

Definition raise {A} (e : exn) : W A := (Raise e, []).

(** A pure operation that may raise. *)
Definition lift {A} (o : outcome A) : W A := (o, []).

(** An external call: one log entry, and the library's outcome. *)
Definition call {A} (c : cv_call) (o : outcome A) : W A := (o, [c]).

Definition bind {A B} (c : W A) (k : A -> W B) : W B :=
  match c with
  | (Ok a, l) => let '(o, l') := k a in (o, l ++ l')
  | (Raise e, l) => (Raise e, l)
  end.

(** [try: body / except Exception: handler] *)
Definition try_except {A} (body : W A) (handler : exn -> W A) : W A :=
  match body with
  | (Raise e, l) => let '(o, l') := handler e in (o, l ++ l')
  | r => r
  end.

Declare Scope cv_scope.
Delimit Scope cv_scope with cv.
Notation "x <- c1 ;; c2" := (bind c1 (fun x => c2))
  (at level 100, c1 at next level, right associativity) : cv_scope.
Notation "' pat <- c1 ;; c2" := (bind c1 (fun x => match x with pat => c2 end))
  (at level 100, pat pattern, c1 at next level, right associativity) : cv_scope.

(** [for a in xs: st = body(a, st)] *)
Fixpoint for_each {A St} (xs : list A) (body : A -> St -> W St) (st : St)
  : W St :=
  match xs with
  | [] => ret st
  | a :: xs' => bind (body a st) (fun st' => for_each xs' body st')
  end.

Local Open Scope cv_scope.

Section Externals.
Variable ext : externals.

Definition cvtColor (img : ndarray) : W ndarray :=
  call (call_cvtColor img) (ext_cvtColor ext img).

Definition matchTemplate (img templ : ndarray) (m : tm_method)
  : W ndarray :=
  call (call_matchTemplate img templ m) (ext_matchTemplate ext img templ m).

Definition minMaxLoc (res : ndarray)
  : W (float * float * (Z * Z) * (Z * Z)) :=
  call (call_minMaxLoc res) (ext_minMaxLoc ext res).

Definition resize (img : ndarray) (dsize : Z * Z) : W ndarray :=
  call (call_resize img dsize) (ext_resize ext img dsize).

Definition detectAndCompute (img : ndarray)
  : W (list KeyPoint * option (list descriptor)) :=
  call (call_detectAndCompute img) (ext_detectAndCompute ext img).

Definition knnMatch (des1 des2 : list descriptor) (k : Z)
  : W (list (list DMatch)) :=
  call (call_knnMatch des1 des2 k) (ext_knnMatch ext des1 des2 k).

Definition findHomography (src dst : list point)
  : W (option homography * option (list Z)) :=
  call (call_findHomography src dst) (ext_findHomography ext src dst).

Definition perspectiveTransform (pts : list point) (H : homography)
  : W (list point) :=
  call (call_perspectiveTransform pts H) (ext_perspectiveTransform ext pts H).

Definition apply_transform (t : transform) (img : ndarray) : W ndarray :=
  call (call_transform t img) (ext_transform ext t img).

(** [import pytesseract]: the module may be missing. *)
Definition import_pytesseract : W (ndarray -> outcome ocr_data) :=
  match ext_pytesseract ext with
  | Some image_to_data => ret image_to_data
  | None => raise ImportError
  end.

Definition image_to_data (pytesseract : ndarray -> outcome ocr_data)
  (img : ndarray) : W ocr_data :=
  call (call_image_to_data img) (pytesseract img).

End Externals.

(* ================================================================== *)
(** * MatchResult *)
(* ================================================================== *)

Record MatchResult : Type := mk_MatchResult {
  x : Z;
  y : Z;
  width : Z;
  height : Z;
  confidence : float;
  center_x : Z;
  center_y : Z;
  method : string
}.

Definition center (r : MatchResult) : Z * Z := (center_x r, center_y r).
Definition top_left (r : MatchResult) : Z * Z := (x r, y r).
Definition bottom_right (r : MatchResult) : Z * Z :=
  (x r + width r, y r + height r).

(** [result.method += suffix]. *)
Definition method_append (r : MatchResult) (suffix : string) : MatchResult :=
  {| x := x r; y := y r; width := width r; height := height r;
     confidence := confidence r;
     center_x := center_x r; center_y := center_y r;
     method := (method r ++ suffix)%string |}.

(** [result and result.confidence >= threshold]: a dataclass instance is
    truthy, [None] is not. *)
Definition accepted (result : option MatchResult) (threshold : float) : bool :=
  match result with
  | Some r => PrimFloat.leb threshold (confidence r)
  | None => false
  end.

(** The pair [(best_result, best_confidence)] that the matching loops update. *)
Definition best : Type := (option MatchResult * float)%type.

(* ================================================================== *)
(** * TemplateMatcher *)
(* ================================================================== *)

Section TemplateMatcher.
Variable ext : externals.

(** [cv2.cvtColor(img, cv2.COLOR_BGR2GRAY) if len(img.shape) == 3 else img] *)
Definition to_gray (img : ndarray) : W ndarray :=
  if len (shape img) =? 3 then cvtColor ext img else ret img.

(** ** [_match_template] *)

Definition methods : list tm_method :=
  [TM_CCOEFF_NORMED; TM_CCORR_NORMED; TM_SQDIFF_NORMED].

Definition _match_template_body (gray_screenshot gray_template : ndarray)
  (confidence : float) (meth : tm_method) (st : best) : W best :=
  let '(best_result, best_confidence) := st in
  result <- matchTemplate ext gray_screenshot gray_template meth ;;
  '(min_val, max_val, min_loc, max_loc) <- minMaxLoc ext result ;;
  let '(match_confidence, top_left) :=
    if tm_method_eqb meth TM_SQDIFF_NORMED
    then (PrimFloat.sub 1 min_val, min_loc)
    else (max_val, max_loc) in
  if PrimFloat.ltb best_confidence match_confidence
     && PrimFloat.leb confidence match_confidence
  then
    '(h, w) <- lift (unpack2 (shape gray_template)) ;;
    let center_x := fst top_left + w / 2 in
    let center_y := snd top_left + h / 2 in
    ret (Some {| x := fst top_left; y := snd top_left; width := w; height := h;
                 confidence := match_confidence;
                 center_x := center_x; center_y := center_y;
                 method := "template" |},
         match_confidence)
  else ret st.

Definition _match_template (screenshot template : ndarray) (confidence : float)
  : W (option MatchResult) :=
  gray_screenshot <- to_gray screenshot ;;
  gray_template <- to_gray template ;;
  st <- for_each methods
          (_match_template_body gray_screenshot gray_template confidence)
          (None, 0%float) ;;
  ret (fst st).

(** ** [_match_multi_scale] *)

Definition scale_factors : list float :=
  [0.5; 0.6; 0.7; 0.8; 0.9; 1.0; 1.1; 1.2; 1.3; 1.4; 1.5; 1.6; 1.7; 1.8; 1.9;
   2.0]%float.

Definition _match_multi_scale_body (gray_screenshot gray_template : ndarray)
  (original_h original_w : Z) (confidence : float) (scale : float) (st : best)
  : W best :=
  let '(best_result, best_confidence) := st in
  scaled_w <- lift (int_of_float (PrimFloat.mul (float_of_int original_w) scale)) ;;
  scaled_h <- lift (int_of_float (PrimFloat.mul (float_of_int original_h) scale)) ;;
  (* Skip if scaled template is larger than screenshot *)
  rows <- lift (py_index (shape gray_screenshot) 0) ;;
  if scaled_h >? rows then ret st else
  cols <- lift (py_index (shape gray_screenshot) 1) ;;
  if scaled_w >? cols then ret st else
  (* Skip if scaled template is too small *)
  if (scaled_h <? 10) || (scaled_w <? 10) then ret st else
  scaled_template <- resize ext gray_template (scaled_w, scaled_h) ;;
  result <- matchTemplate ext gray_screenshot scaled_template TM_CCOEFF_NORMED ;;
  '(min_val, max_val, min_loc, max_loc) <- minMaxLoc ext result ;;
  if PrimFloat.ltb best_confidence max_val && PrimFloat.leb confidence max_val
  then
    let center_x := fst max_loc + scaled_w / 2 in
    let center_y := snd max_loc + scaled_h / 2 in
    ret (Some {| x := fst max_loc; y := snd max_loc;
                 width := scaled_w; height := scaled_h;
                 confidence := max_val;
                 center_x := center_x; center_y := center_y;
                 method := ("multi_scale_" ++ format_fixed 1 scale ++ "x")%string |},
         max_val)
  else ret st.

Definition _match_multi_scale (screenshot template : ndarray)
  (confidence : float) : W (option MatchResult) :=
  gray_screenshot <- to_gray screenshot ;;
  gray_template <- to_gray template ;;
  '(original_h, original_w) <- lift (unpack2 (shape gray_template)) ;;
  st <- for_each scale_factors
          (_match_multi_scale_body gray_screenshot gray_template
             original_h original_w confidence)
          (None, 0%float) ;;
  ret (fst st).

(** ** [_match_features] *)

(** Lowe's ratio test over the pairs returned by [knnMatch]. *)
Definition ratio_test (matches : list (list DMatch)) : list DMatch :=
  flat_map
    (fun match_pair =>
       match match_pair with
       | [m; n] =>
           if PrimFloat.ltb (distance m) (PrimFloat.mul 0.7 (distance n))
           then [m] else []
       | _ => []
       end)
    matches.

(** [[kp[i].pt for i in idxs]] *)
Fixpoint points_of (kp : list KeyPoint) (idxs : list Z) : outcome (list point) :=
  match idxs with
  | [] => Ok []
  | i :: idxs' =>
      match py_index kp i with
      | Ok k =>
          match points_of kp idxs' with
          | Ok ps => Ok (pt k :: ps)
          | Raise e => Raise e
          end
      | Raise e => Raise e
      end
  end.

(** [np.float32([...])] on a list of points. *)
Definition np_float32_points (pts : list point) : list point :=
  map (fun p : point => (np_float32 (fst p), np_float32 (snd p))) pts.

(** [np.sum(mask) / len(mask) if mask is not None else 0] *)
Definition inlier_ratio_of (mask : option (list Z)) : float :=
  match mask with
  | Some mk => PrimFloat.div (float_of_int (np_sum mk)) (float_of_int (len mk))
  | None => 0%float
  end.

(** The body of the [try] block; it yields the returned value, or [None]
    when control falls out of the block to the final [return None]. *)
Definition _match_features_try (screenshot template : ndarray)
  (confidence : float) : W (option MatchResult) :=
  gray_screenshot <- to_gray screenshot ;;
  gray_template <- to_gray template ;;
  (* Find keypoints and descriptors *)
  '(kp1, des1) <- detectAndCompute ext gray_template ;;
  '(kp2, des2) <- detectAndCompute ext gray_screenshot ;;
  match des1, des2 with
  | Some des1, Some des2 =>
      if len des1 <? 10 then ret None else
      (* Match features *)
      matches <- knnMatch ext des1 des2 2 ;;
      let good_matches := ratio_test matches in
      if len good_matches <? 10 then ret None else
      (* Find homography *)
      src_pts <- lift (points_of kp1 (map queryIdx good_matches)) ;;
      let src_pts := np_float32_points src_pts in
      dst_pts <- lift (points_of kp2 (map trainIdx good_matches)) ;;
      let dst_pts := np_float32_points dst_pts in
      '(H, mask) <- findHomography ext src_pts dst_pts ;;
      match H with
      | None => ret None
      | Some H =>
          (* Transform template corners to find location in screenshot *)
          '(h, w) <- lift (unpack2 (shape gray_template)) ;;
          let corners :=
            np_float32_points
              [(0, 0); (float_of_int w, 0); (float_of_int w, float_of_int h);
               (0, float_of_int h)]%float in
          transformed_corners <- perspectiveTransform ext corners H ;;
          (* Calculate bounding box *)
          let x_coords := map fst transformed_corners in
          let y_coords := map snd transformed_corners in
          min_x <- lift (np_min x_coords) ;;
          x <- lift (int_of_float min_x) ;;
          min_y <- lift (np_min y_coords) ;;
          y <- lift (int_of_float min_y) ;;
          max_x <- lift (np_max x_coords) ;;
          width <- lift (int_of_float (f32_sub max_x min_x)) ;;
          max_y <- lift (np_max y_coords) ;;
          height <- lift (int_of_float (f32_sub max_y min_y)) ;;
          let center_x := x + width / 2 in
          let center_y := y + height / 2 in
          (* Calculate confidence based on inlier ratio *)
          let inlier_ratio := inlier_ratio_of mask in
          if PrimFloat.leb confidence inlier_ratio
          then ret (Some {| x := x; y := y; width := width; height := height;
                            confidence := inlier_ratio;
                            center_x := center_x; center_y := center_y;
                            method := "feature" |})
          else ret None
      end
  | _, _ => ret None
  end.

Definition _match_features (screenshot template : ndarray) (confidence : float)
  : W (option MatchResult) :=
  try_except (_match_features_try screenshot template confidence)
             (fun _ => ret None).

(** ** [_match_with_preprocessing] *)

(** The named transforms; ["original"] is the identity and calls nothing. *)
Definition preprocessing_methods : list (string * option transform) :=
  [("original", None);
   ("blur", Some GaussianBlur);
   ("threshold", Some threshold_otsu);
   ("edges", Some Canny);
   ("morphology", Some morphologyEx_close)].

Definition preprocess_func (t : option transform) (img : ndarray)
  : W ndarray :=
  match t with
  | None => ret img
  | Some t => apply_transform ext t img
  end.

(** The body of the [try] block of one turn of the loop. *)
Definition _match_with_preprocessing_try (gray_screenshot gray_template : ndarray)
  (confidence : float) (pm : string * option transform) (st : best)
  : W best :=
  let '(method_name, preprocess) := pm in
  let '(best_result, best_confidence) := st in
  proc_screenshot <- preprocess_func preprocess gray_screenshot ;;
  proc_template <- preprocess_func preprocess gray_template ;;
  (* Perform template matching *)
  result <- matchTemplate ext proc_screenshot proc_template TM_CCOEFF_NORMED ;;
  '(min_val, max_val, min_loc, max_loc) <- minMaxLoc ext result ;;
  if PrimFloat.ltb best_confidence max_val && PrimFloat.leb confidence max_val
  then
    '(h, w) <- lift (unpack2 (shape proc_template)) ;;
    let center_x := fst max_loc + w / 2 in
    let center_y := snd max_loc + h / 2 in
    ret (Some {| x := fst max_loc; y := snd max_loc; width := w; height := h;
                 confidence := max_val;
                 center_x := center_x; center_y := center_y;
                 method := ("preprocessed_" ++ method_name)%string |},
         max_val)
  else ret st.

(** One turn: [try: ... except Exception: continue]. *)
Definition _match_with_preprocessing_body (gray_screenshot gray_template : ndarray)
  (confidence : float) (pm : string * option transform) (st : best)
  : W best :=
  try_except
    (_match_with_preprocessing_try gray_screenshot gray_template confidence pm st)
    (fun _ => ret st).

Definition _match_with_preprocessing (screenshot template : ndarray)
  (confidence : float) : W (option MatchResult) :=
  gray_screenshot <- to_gray screenshot ;;
  gray_template <- to_gray template ;;
  st <- for_each preprocessing_methods
          (_match_with_preprocessing_body gray_screenshot gray_template confidence)
          (None, 0%float) ;;
  ret (fst st).

(** ** [find_template_with_fallbacks] *)

Definition find_template_with_fallbacks (screenshot template : ndarray)
  (confidence : float) : W (option MatchResult) :=
  (* Strategy 1: Multi-scale matching (most robust) *)
  result <- _match_multi_scale screenshot template confidence ;;
  if accepted result confidence then ret result else
  (* Strategy 2: Feature matching (good for complex images) *)
  result <- _match_features screenshot template (PrimFloat.mul confidence 0.9) ;;
  if accepted result (PrimFloat.mul confidence 0.9) then ret result else
  (* Strategy 3: Standard template matching with multiple methods *)
  result <- _match_template screenshot template (PrimFloat.mul confidence 0.8) ;;
  if accepted result (PrimFloat.mul confidence 0.8) then ret result else
  (* Strategy 4: Try with image preprocessing *)
  result <- _match_with_preprocessing screenshot template
              (PrimFloat.mul confidence 0.7) ;;
  if accepted result (PrimFloat.mul confidence 0.7) then ret result else
  (* Strategy 5: Last resort - very low confidence threshold *)
  result <- _match_template screenshot template 0.5 ;;
  match result with
  | Some r => ret (Some (method_append r "_low_confidence"))
  | None => ret None
  end.

End TemplateMatcher.

(* ================================================================== *)
(** * Text resolver: [find_text] *)
(* ================================================================== *)

(** ** [str] methods

    A Python [str] is a sequence of code points.  The model has the
    strings whose code points are below 256, ASCII and the Latin-1
    supplement: a character stands for the code point of its number.  On
    these strings [str.lower()] and [str.strip()] stay within the range and
    are as below; [str.upper()] does not always. *)

(** The letters that [lower()] changes: A-Z, and U+00C0 to U+00DE but for
    the multiplication sign U+00D7.  Each goes 32 code points up. *)
Definition is_upper (c : ascii) : bool :=
  let n := Z.of_nat (nat_of_ascii c) in
  ((65 <=? n) && (n <=? 90))
  || ((192 <=? n) && (n <=? 222) && negb (n =? 215)).

Definition lower_char (c : ascii) : ascii :=
  if is_upper c then ascii_of_nat (nat_of_ascii c + 32) else c.

(** The letters whose upper case is one code point below 256: a-z, and
    U+00E0 to U+00FE but for the division sign U+00F7. *)
Definition is_lower (c : ascii) : bool :=
  let n := Z.of_nat (nat_of_ascii c) in
  ((97 <=? n) && (n <=? 122))
  || ((224 <=? n) && (n <=? 254) && negb (n =? 247)).

Definition upper_char (c : ascii) : ascii :=
  if is_lower c then ascii_of_nat (nat_of_ascii c - 32) else c.

(** [c.isspace()] below 256: tab, newline, vertical tab, form feed,
    carriage return, the four separators U+001C to U+001F, the space, the
    next-line control U+0085 and the no-break space U+00A0. *)
Definition is_space (c : ascii) : bool :=
  let n := Z.of_nat (nat_of_ascii c) in
  ((9 <=? n) && (n <=? 13)) || ((28 <=? n) && (n <=? 32))
  || (n =? 133) || (n =? 160).

(** [s.lower()] *)
Fixpoint py_lower (s : string) : string :=
  match s with
  | EmptyString => EmptyString
  | String c s' => String (lower_char c) (py_lower s')
  end.



Definition is_empty (s : string) : bool :=
  match s with
  | EmptyString => true
  | String _ _ => false
  end.

(** [s.lstrip()], [s.rstrip()], [s.strip()] *)
Fixpoint lstrip (s : string) : string :=
  match s with
  | EmptyString => EmptyString
  | String c s' => if is_space c then lstrip s' else s
  end.

Fixpoint rstrip (s : string) : string :=
  match s with
  | EmptyString => EmptyString
  | String c s' =>
      let r := rstrip s' in
      if is_space c && is_empty r then EmptyString else String c r
  end.

Definition strip (s : string) : string := rstrip (lstrip s).

(** [needle in hay] *)
Fixpoint contains (needle hay : string) : bool :=
  String.prefix needle hay ||
  match hay with
  | EmptyString => false
  | String _ hay' => contains needle hay'
  end.

(** [enumerate(xs)] *)
Fixpoint enumerate_from {A} (i : Z) (xs : list A) : list (Z * A) :=
  match xs with
  | [] => []
  | a :: xs' => (i, a) :: enumerate_from (i + 1) xs'
  end.

Definition enumerate {A} (xs : list A) : list (Z * A) := enumerate_from 0 xs.

(** The [best_match] dictionary. *)
Record text_match : Type := mk_text_match {
  index : Z;
  similarity : float;
  ocr_confidence : float;
  text : string
}.

Section TextResolver.
Variable ext : externals.

(** The similarity of a cleaned token to the cleaned target. *)
Definition text_similarity (target_lower text_clean : string) : float :=
  (* Exact substring match (highest priority) *)
  if contains target_lower text_clean then 1.0%float
  else if contains text_clean target_lower then 0.95%float
  else
    (* Fuzzy matching using sequence matcher *)
    ext_ratio ext target_lower text_clean.

Definition find_text_body (tokens : ocr_data) (target_lower : string)
  (confidence fuzzy_threshold : float) (it : Z * string)
  (st : option text_match * float) : W (option text_match * float) :=
  let '(i, text) := it in
  let '(best_match, best_similarity) := st in
  if is_empty text || is_empty (strip text) then ret st else
  let text_clean := py_lower (strip text) in
  conf <- lift (py_index (ocr_conf tokens) i) ;;
  let ocr_confidence := PrimFloat.div conf 100.0 in
  (* Skip if OCR confidence too low *)
  if PrimFloat.ltb ocr_confidence confidence then ret st else
  let similarity := text_similarity target_lower text_clean in
  (* Check if this is the best match so far *)
  if PrimFloat.leb fuzzy_threshold similarity
     && PrimFloat.ltb best_similarity similarity
  then ret (Some {| index := i; similarity := similarity;
                    ocr_confidence := ocr_confidence; text := text |},
            similarity)
  else ret st.

(** Lines 425-476: from the OCR dictionary to the result. *)
Definition find_text_in (tokens : ocr_data) (target_text : string)
  (confidence fuzzy_threshold : float) : W (option MatchResult) :=
  let target_lower := strip (py_lower target_text) in
  st <- for_each (enumerate (ocr_text tokens))
          (find_text_body tokens target_lower confidence fuzzy_threshold)
          (None, 0.0%float) ;;
  (* Return best match if found *)
  match fst st with
  | Some best_match =>
      let i := index best_match in
      x <- lift (py_index (ocr_left tokens) i) ;;
      y <- lift (py_index (ocr_top tokens) i) ;;
      w <- lift (py_index (ocr_width tokens) i) ;;
      h <- lift (py_index (ocr_height tokens) i) ;;
      (* Combine fuzzy similarity and OCR confidence for final confidence *)
      let final_confidence :=
        PrimFloat.add (PrimFloat.mul (similarity best_match) 0.7)
                      (PrimFloat.mul (ocr_confidence best_match) 0.3) in
      ret (Some {| x := x; y := y; width := w; height := h;
                   confidence := final_confidence;
                   center_x := x + w / 2; center_y := y + h / 2;
                   method := ("ocr_fuzzy(" ++
                              format_fixed 2 (similarity best_match) ++ ")")%string |})
  | None => ret None
  end.

(** [find_text]; the two handlers only print, and the call then returns
    [None]. *)
Definition find_text (screenshot : ndarray) (target_text : string)
  (confidence fuzzy_threshold : float) : W (option MatchResult) :=
  try_except
    (pytesseract <- import_pytesseract ext ;;
     (* Preprocess image for better OCR *)
     gray <- to_gray ext screenshot ;;
     (* Apply threshold to improve text detection *)
     thresh <- apply_transform ext threshold_otsu gray ;;
     (* Get text data with bounding boxes *)
     tokens <- image_to_data pytesseract thresh ;;
     find_text_in tokens target_text confidence fuzzy_threshold)
    (fun _ => ret None).

End TextResolver.

(* ================================================================== *)
(** * VisionCache *)
(* ================================================================== *)

(** ** Python [dict] with string keys: insertion-ordered *)

Definition dict (V : Type) : Type := list (string * V).

(** [d.get(k)] *)
Fixpoint dict_lookup {V} (d : dict V) (k : string) : option V :=
  match d with
  | [] => None
  | (k', v) :: d' => if String.eqb k' k then Some v else dict_lookup d' k
  end.

(** [k in d] *)
Definition dict_contains {V} (d : dict V) (k : string) : bool :=
  match dict_lookup d k with
  | Some _ => true
  | None => false
  end.

(** [d[k]] *)
Definition dict_getitem {V} (d : dict V) (k : string) : outcome V :=
  match dict_lookup d k with
  | Some v => Ok v
  | None => Raise KeyError
  end.

(** [d[k] = v]: an existing key keeps its place, a new key goes last. *)
Fixpoint dict_setitem {V} (d : dict V) (k : string) (v : V) : dict V :=
  match d with
  | [] => [(k, v)]
  | (k', v') :: d' =>
      if String.eqb k' k then (k', v) :: d' else (k', v') :: dict_setitem d' k v
  end.

Fixpoint dict_remove {V} (d : dict V) (k : string) : dict V :=
  match d with
  | [] => []
  | (k', v') :: d' =>
      if String.eqb k' k then d' else (k', v') :: dict_remove d' k
  end.

(** [del d[k]] *)
Definition dict_delitem {V} (d : dict V) (k : string) : outcome (dict V) :=
  if dict_contains d k then Ok (dict_remove d k) else Raise KeyError.

(** [d.keys()] *)
Definition keys {V} (d : dict V) : list string := map fst d.

(** [min(ks, key=f)]: the scan keeps the first element and replaces it only
    by a later one whose key is strictly smaller; [f] may raise; an empty
    sequence raises [ValueError]. *)
Fixpoint min_by_from (f : string -> outcome float) (ks : list string)
  (best_k : string) (best_v : float) : outcome string :=
  match ks with
  | [] => Ok best_k
  | k :: ks' =>
      match f k with
      | Ok v =>
          if PrimFloat.ltb v best_v then min_by_from f ks' k v
          else min_by_from f ks' best_k best_v
      | Raise e => Raise e
      end
  end.

Definition min_by (f : string -> outcome float) (ks : list string)
  : outcome string :=
  match ks with
  | [] => Raise ValueError
  | k :: ks' =>
      match f k with
      | Ok v => min_by_from f ks' k v
      | Raise e => Raise e
      end
  end.

(** ** Methods of an object: a store, an outcome, bounded loops

    A method maps the object's attributes to an outcome and the attributes
    afterwards (they survive an exception); [None] stands for a [while] loop
    that has not finished within the iterations it was given. *)

Definition M (S A : Type) : Type := S -> option (outcome A * S).

Definition sret {S A} (a : A) : M S A := fun s => Some (Ok a, s).

Definition sbind {S A B} (c : M S A) (k : A -> M S B) : M S B :=
  fun s =>
    match c s with
    | Some (Ok a, s') => k a s'
    | Some (Raise e, s') => Some (Raise e, s')
    | None => None
    end.

Definition get {S} : M S S := fun s => Some (Ok s, s).

Definition slift {S A} (o : outcome A) : M S A := fun s => Some (o, s).

Declare Scope obj_scope.
Delimit Scope obj_scope with obj.
Notation "x <- c1 ;; c2" := (sbind c1 (fun x => c2))
  (at level 100, c1 at next level, right associativity) : obj_scope.
Notation "c1 ;; c2" := (sbind c1 (fun _ => c2))
  (at level 100, right associativity) : obj_scope.

(** [while cond(): body()], given at most [fuel] iterations. *)
Fixpoint while_loop {S} (fuel : nat) (cond : S -> bool) (body : M S unit)
  : M S unit :=
  fun s =>
    if cond s then
      match fuel with
      | O => None
      | Datatypes.S fuel' => sbind body (fun _ => while_loop fuel' cond body) s
      end
    else Some (Ok tt, s).

(** ** The cache object and the world it reads *)

Record VisionCache : Type := mk_VisionCache {
  cache : dict ndarray;
  access_times : dict float;
  max_size : Z;
  ttl : float
}.

(** [VisionCache(max_size, ttl)] *)
Definition VisionCache_init (max_size : Z) (ttl : float) : VisionCache :=
  {| cache := []; access_times := []; max_size := max_size; ttl := ttl |}.

Definition set_cache (c : dict ndarray) : M VisionCache unit :=
  fun self => Some (Ok tt, {| cache := c; access_times := access_times self;
                              max_size := max_size self; ttl := ttl self |}).

Definition set_access_times (a : dict float) : M VisionCache unit :=
  fun self => Some (Ok tt, {| cache := cache self; access_times := a;
                              max_size := max_size self; ttl := ttl self |}).

(** The file system as [get_template] sees it.  [Path(p).exists()]
    answers, or raises (an [OSError] for a name that is too long, say);
    [cv2.imread(p, cv2.IMREAD_COLOR)] yields the decoded image, or [None]
    when the file cannot be decoded, or raises. *)
Record filesystem : Type := mk_filesystem {
  path_exists : string -> outcome bool;
  imread : string -> outcome (option ndarray)
}.

Section VisionCacheMethods.
Local Open Scope obj_scope.

(** ** [_add_to_cache] *)

(** One turn of [while len(self.cache) >= self.max_size]. *)
Definition evict_oldest : M VisionCache unit :=
  self <- get ;;
  oldest_key <- slift (min_by (dict_getitem (access_times self))
                              (keys (access_times self))) ;;
  c <- slift (dict_delitem (cache self) oldest_key) ;;
  set_cache c ;;
  self <- get ;;
  a <- slift (dict_delitem (access_times self) oldest_key) ;;
  set_access_times a.

Definition cache_full (self : VisionCache) : bool :=
  max_size self <=? len (cache self).

(** Every turn of the loop that does not raise removes an entry of
    [self.cache], so the loop is given one more turn than there are
    entries. *)
Definition _add_to_cache (key : string) (value : ndarray) (current_time : float)
  : M VisionCache unit :=
  (* Remove oldest items if cache is full *)
  self <- get ;;
  while_loop (Datatypes.S (List.length (cache self))) cache_full evict_oldest ;;
  self <- get ;;
  set_cache (dict_setitem (cache self) key value) ;;
  self <- get ;;
  set_access_times (dict_setitem (access_times self) key current_time).

(** ** [get_template] *)

(** The first [if]: [Some] is the cached template, returned at once; [None]
    means control goes on to "Load and cache template". *)
Definition get_template_cached (current_time : float) (image_path : string)
  : M VisionCache (option ndarray) :=
  self <- get ;;
  if dict_contains (cache self) image_path then
    (* Check if cached item is still valid *)
    t <- slift (dict_getitem (access_times self) image_path) ;;
    if PrimFloat.ltb (PrimFloat.sub current_time t) (ttl self) then
      set_access_times (dict_setitem (access_times self) image_path current_time) ;;
      self <- get ;;
      v <- slift (dict_getitem (cache self) image_path) ;;
      sret (Some v)
    else
      (* Remove expired item *)
      c <- slift (dict_delitem (cache self) image_path) ;;
      set_cache c ;;
      self <- get ;;
      a <- slift (dict_delitem (access_times self) image_path) ;;
      set_access_times a ;;
      sret None
  else sret None.

(** The rest of [get_template], after the first [if]: "Load and cache
    template". *)
Definition load_and_cache (fs : filesystem) (current_time : float)
  (image_path : string) : M VisionCache (option ndarray) :=
  found <- slift (path_exists fs image_path) ;;
  if found then
    template <- slift (imread fs image_path) ;;
    match template with
    | Some template =>
        _add_to_cache image_path template current_time ;;
        sret (Some template)
    | None => sret None
    end
  else sret None.

(** [current_time] is the value of [time.time()] read at entry. *)
Definition get_template (fs : filesystem) (current_time : float)
  (image_path : string) : M VisionCache (option ndarray) :=
  hit <- get_template_cached current_time image_path ;;
  match hit with
  | Some v => sret (Some v)
  | None => load_and_cache fs current_time image_path
  end.

(** [clear] *)
Definition clear : M VisionCache unit :=
  set_cache [] ;; set_access_times [].

End VisionCacheMethods.

(* ================================================================== *)
(** * The cascade as the specification words it *)
(* ================================================================== *)

Section CascadeSpec.
Variable ext : externals.

(** Stages are tried in order; the first that returns a result is the
    answer and no later stage is run. *)
Fixpoint first_non_none (stages : list (W (option MatchResult)))
  : W (option MatchResult) :=
  match stages with
  | [] => ret None
  | stage :: later =>
      r <- stage ;;
      match r with
      | Some _ => ret r
      | None => first_non_none later
      end
  end.

(** The forced answer carries the low-confidence mark in its method tag. *)
Definition low_confidence (stage : W (option MatchResult))
  : W (option MatchResult) :=
  r <- stage ;;
  ret (option_map (fun r => method_append r "_low_confidence") r).

(** The five stages with their thresholds, for the caller's threshold [c]. *)
Definition cascade_stages (screenshot template : ndarray) (c : float)
  : list (W (option MatchResult)) :=
  [ _match_multi_scale ext screenshot template c;
    _match_features ext screenshot template (PrimFloat.mul c 0.9);
    _match_template ext screenshot template (PrimFloat.mul c 0.8);
    _match_with_preprocessing ext screenshot template (PrimFloat.mul c 0.7);
    low_confidence (_match_template ext screenshot template 0.5) ].

Definition cascade_spec (screenshot template : ndarray) (c : float)
  : W (option MatchResult) :=
  first_non_none (cascade_stages screenshot template c).

End CascadeSpec.


(** The stages that are actually run: each one up to and including the
    first that does not return [None]. *)
Fixpoint stages_run {A} (stages : list (W (option A))) : list (W (option A)) :=
  match stages with
  | [] => []
  | stage :: later =>
      stage :: match fst stage with
               | Ok None => stages_run later
               | _ => []
               end
  end.


(* ================================================================== *)
(** * A stand-in for the external collaborators *)
(* ================================================================== *)

(** To evaluate the module on concrete inputs, the externals are given a
    small deterministic implementation that looks at shapes only.  What it
    answers is set by a few knobs. *)
Record knobs : Type := mk_knobs {
  (** the score of every window, by template shape and formula *)
  k_score : list Z -> tm_method -> float;
  (** how many keypoints (and descriptors) SIFT finds, by image shape *)
  k_features : list Z -> nat;
  (** the homography that [findHomography] estimates, if any *)
  k_homography : option homography;
  (** the OCR dictionary, if pytesseract is installed *)
  k_ocr : option ocr_data;
  (** [difflib.SequenceMatcher(None, a, b).ratio()] *)
  k_ratio : string -> string -> float
}.

(** [cv2.matchTemplate]: a map of [(H-h+1) x (W-w+1)] equal scores.  When
    the template is at least as large as the image in both dimensions,
    OpenCV swaps the two; a template larger in one dimension and smaller
    in the other is refused with [cv2.error]. *)
Definition sim_matchTemplate (k : knobs) (img templ : ndarray) (m : tm_method)
  : outcome ndarray :=
  match shape img, shape templ with
  | [H; W], [h; w] =>
      if (h <=? H) && (w <=? W) then
        Ok {| shape := [H - h + 1; W - w + 1];
              data := repeat (k_score k [h; w] m)
                             (Z.to_nat ((H - h + 1) * (W - w + 1))) |}
      else if (H <=? h) && (W <=? w) then
        Ok {| shape := [h - H + 1; w - W + 1];
              data := repeat (k_score k [H; W] m)
                             (Z.to_nat ((h - H + 1) * (w - W + 1))) |}
      else Raise cv2_error
  | _, _ => Raise cv2_error
  end.

(** [cv2.minMaxLoc]: a scan in row-major order; the first extremum wins. *)
Definition sim_minMaxLoc (res : ndarray)
  : outcome (float * float * (Z * Z) * (Z * Z)) :=
  match shape res, data res with
  | [rows; cols], v :: vs =>
      let '(mn, mni, mx, mxi, _) :=
        fold_left
          (fun (acc : float * Z * float * Z * Z) (u : float) =>
             let '(mn, mni, mx, mxi, i) := acc in
             (if PrimFloat.ltb u mn then u else mn,
              if PrimFloat.ltb u mn then i else mni,
              if PrimFloat.ltb mx u then u else mx,
              if PrimFloat.ltb mx u then i else mxi,
              i + 1))
          vs (v, 0, v, 0, 1) in
      Ok (mn, mx, (mni mod cols, mni / cols), (mxi mod cols, mxi / cols))
  | _, _ => Raise cv2_error
  end.

Definition sim_detectAndCompute (k : knobs) (img : ndarray)
  : outcome (list KeyPoint * option (list descriptor)) :=
  let n := k_features k (shape img) in
  let idx := map (fun i => float_of_int (Z.of_nat i)) (seq 0 n) in
  Ok (map (fun f => {| pt := (f, f) |}) idx,
      match n with
      | O => None
      | _ => Some (map (fun f => [f]) idx)
      end).

(** [knnMatch(des1, des2, k=2)]: descriptor [i] of the first set is paired
    with two descriptors of the second set, at distances 1 and 10. *)
Definition sim_knnMatch (des1 des2 : list descriptor) (k : Z)
  : outcome (list (list DMatch)) :=
  let n2 := len des2 in
  Ok (map (fun i =>
             if n2 <? 2 then []
             else [ {| queryIdx := i; trainIdx := i mod n2; distance := 1 |};
                    {| queryIdx := i; trainIdx := (i + 1) mod n2; distance := 10 |} ])
          (map Z.of_nat (seq 0 (List.length des1)))).

(** [findHomography]: the knob's matrix, every correspondence an inlier.
    Fewer than four correspondences are refused, as OpenCV does, and so are
    more than an array holds. *)
Definition sim_findHomography (k : knobs) (src dst : list point)
  : outcome (option homography * option (list Z)) :=
  if (len src <? 4) || (2 ^ 53 <=? len src) then Raise cv2_error
  else Ok (k_homography k, Some (map (fun _ => 1) src)).

(** [perspectiveTransform] by an affine matrix (last row [0 0 1]): the
    coordinates are computed in binary64 and stored as binary32. *)
Definition sim_perspectiveTransform (pts : list point) (H : homography)
  : outcome (list point) :=
  match H with
  | [a; b; tx; c; d; ty; _; _; _] =>
      Ok (map (fun p : point =>
                 let '(px, py) := p in
                 (np_float32
                    (PrimFloat.add (PrimFloat.add (PrimFloat.mul a px)
                                                  (PrimFloat.mul b py)) tx),
                  np_float32
                    (PrimFloat.add (PrimFloat.add (PrimFloat.mul c px)
                                                  (PrimFloat.mul d py)) ty)))
              pts)
  | _ => Raise cv2_error
  end.

Definition sim (k : knobs) : externals :=
  {| ext_cvtColor := fun img => Ok {| shape := firstn 2 (shape img); data := [] |};
     ext_matchTemplate := sim_matchTemplate k;
     ext_minMaxLoc := sim_minMaxLoc;
     ext_resize := fun img dsize =>
       Ok {| shape := [snd dsize; fst dsize]; data := [] |};
     ext_detectAndCompute := sim_detectAndCompute k;
     ext_knnMatch := sim_knnMatch;
     ext_findHomography := sim_findHomography k;
     ext_perspectiveTransform := sim_perspectiveTransform;
     ext_transform := fun _ img => Ok img;
     ext_pytesseract := option_map (fun d => fun _ : ndarray => Ok d) (k_ocr k);
     ext_ratio := k_ratio k |}.

(** An image of the given shape (pixels are not looked at). *)
Definition blank (shp : list Z) : ndarray := {| shape := shp; data := [] |}.

(** A featureless scene: every window scores 0.1 under the correlation
    formulas and has squared difference 0.9; SIFT finds nothing; no OCR. *)
Definition dull : knobs :=
  {| k_score := fun _ m =>
       if tm_method_eqb m TM_SQDIFF_NORMED then 0.9%float else 0.1%float;
     k_features := fun _ => O;
     k_homography := None;
     k_ocr := None;
     k_ratio := fun _ _ => 0%float |}.


(** A textured scene: every window scores 0.1, SIFT finds 12 keypoints in
    every image, and the estimated homography is not a 3x3 matrix, which
    [perspectiveTransform] refuses. *)
Definition bad_homography : knobs :=
  {| k_score := k_score dull;
     k_features := fun _ => 12%nat;
     k_homography := Some [1%float];
     k_ocr := None;
     k_ratio := fun _ _ => 0%float |}.


(** A textured template on a nearly featureless frame: SIFT finds 12
    keypoints in a 20x20 image and 3 in any other; the homography is the
    translation by (30, 40). *)
Definition sparse_frame : knobs :=
  {| k_score := k_score dull;
     k_features := fun shp =>
       match shp with
       | [20; 20] => 12%nat
       | _ => 3%nat
       end;
     k_homography := Some [1; 0; 30; 0; 1; 40; 0; 0; 1]%float;
     k_ocr := None;
     k_ratio := fun _ _ => 0%float |}.


(* ================================================================== *)
(** * Floats by value *)
(* ================================================================== *)

(** A float between zero and a bound. *)
Definition within (x b : float) : Prop :=
  PrimFloat.leb 0 x = true /\ PrimFloat.leb x b = true.

(** The value [m * 2^e] of a mantissa and an exponent, counted in units of
    [2^-2200], which is below every exponent that binary64 arithmetic
    meets: values then compare as integers. *)
Definition units (m e : Z) : Z := m * 2 ^ (e + 2200).

(** [within] on the specification side: zero, or a positive finite float of
    value at most that of the bound [mB * 2^eB]. *)
Definition sf_within (x : spec_float) (mB : positive) (eB : Z) : Prop :=
  (exists s, x = S754_zero s)
  \/ exists m e, x = S754_finite false m e
                 /\ units (Zpos m) e <= units (Zpos mB) eB.

(** The bits shifted out of a mantissa were not all zero. *)
Definition inexact (mrs : shr_record) : bool := shr_r mrs || shr_s mrs.

(** [b] is [a] shifted right by [k] bits. *)
Definition shifted (k : Z) (a b : shr_record) : Prop :=
  0 <= shr_m a ->
  shr_m b = shr_m a / 2 ^ k
  /\ (inexact b = false <-> inexact a = false /\ shr_m a = shr_m b * 2 ^ k).


(* ================================================================== *)
(** * The data-model invariant of a result, and the contract of OpenCV *)
(* ================================================================== *)

(** [width > 0], [height > 0], the box inside a frame of [frame_h] rows and
    [frame_w] columns, and the confidence in [[0, 1]]. *)
Definition result_invariant (frame_h frame_w : Z) (r : MatchResult) : Prop :=
  0 < width r /\ 0 < height r
  /\ 0 <= x r /\ 0 <= y r
  /\ x r + width r <= frame_w /\ y r + height r <= frame_h
  /\ PrimFloat.leb 0 (confidence r) = true
  /\ PrimFloat.leb (confidence r) 1 = true.

(** Rows and columns of a grayscale or colour image. *)
Definition dims (img : ndarray) : option (Z * Z) :=
  match shape img with
  | [h; w] => Some (h, w)
  | [h; w; _] => Some (h, w)
  | _ => None
  end.

(** What the correlation-based matchers rely on from OpenCV: the gray
    conversion keeps rows and columns, [resize] gives the requested size,
    the transforms keep the shape; and for a template that fits the image,
    the extrema that [minMaxLoc] reports on the map of [matchTemplate] are
    positions of that map, [(W-w+1)] wide and [(H-h+1)] high, and the
    normalised scores derived from them are at most 1. *)
Definition in_map (rows cols : Z) (p : Z * Z) : Prop :=
  0 <= fst p < cols /\ 0 <= snd p < rows.

Definition cv2_contract (ext : externals) : Prop :=
  (forall img g, ext_cvtColor ext img = Ok g -> shape g = firstn 2 (shape img))
  /\ (forall img dsize r,
        ext_resize ext img dsize = Ok r -> shape r = [snd dsize; fst dsize])
  /\ (forall t img r, ext_transform ext t img = Ok r -> shape r = shape img)
  /\ (forall img templ m res min_val max_val min_loc max_loc H W h w,
        ext_matchTemplate ext img templ m = Ok res ->
        ext_minMaxLoc ext res = Ok (min_val, max_val, min_loc, max_loc) ->
        shape img = [H; W] -> shape templ = [h; w] -> h <= H -> w <= W ->
        in_map (H - h + 1) (W - w + 1) min_loc
        /\ in_map (H - h + 1) (W - w + 1) max_loc
        /\ PrimFloat.leb max_val 1 = true
        /\ PrimFloat.leb (PrimFloat.sub 1 min_val) 1 = true).

(** What the Text Resolver relies on from pytesseract and difflib, on an
    image of [frame_h] rows and [frame_w] columns: a token with text has a
    confidence between 0 and 100 and a box with positive sides inside the
    image; a similarity ratio lies in [[0, 1]]. *)
Definition token_in_frame (frame_h frame_w : Z) (tokens : ocr_data) (i : Z)
  : Prop :=
  (forall conf, py_index (ocr_conf tokens) i = Ok conf -> within conf 100)
  /\ (forall l t w h,
        py_index (ocr_left tokens) i = Ok l ->
        py_index (ocr_top tokens) i = Ok t ->
        py_index (ocr_width tokens) i = Ok w ->
        py_index (ocr_height tokens) i = Ok h ->
        0 <= l /\ 0 <= t /\ 0 < w /\ 0 < h
        /\ l + w <= frame_w /\ t + h <= frame_h).

Definition ocr_contract (ext : externals) (frame_h frame_w : Z) : Prop :=
  (forall a b, within (ext_ratio ext a b) 1)
  /\ (forall image_to_data img tokens i tx,
        ext_pytesseract ext = Some image_to_data ->
        dims img = Some (frame_h, frame_w) ->
        image_to_data img = Ok tokens ->
        In (i, tx) (enumerate (ocr_text tokens)) ->
        is_empty tx || is_empty (strip tx) = false ->
        token_in_frame frame_h frame_w tokens i).

(** What the confidence of the Feature Matcher relies on: the inlier mask
    of [findHomography] is an array of zeros and ones, one per
    correspondence (an array has fewer than [2^53] entries). *)
Definition mask_contract (ext : externals) : Prop :=
  forall src dst H mk,
    ext_findHomography ext src dst = Ok (H, Some mk) ->
    Forall (fun b => b = 0 \/ b = 1) mk /\ 0 < len mk < 2 ^ 53.

(** A scene where the homography moves the template partly off the frame,
    by (-5.5, -3.5). *)
Definition off_frame : knobs :=
  {| k_score := k_score dull;
     k_features := fun _ => 12%nat;
     k_homography := Some [1; 0; -5.5; 0; 1; -3.5; 0; 0; 1]%float;
     k_ocr := None;
     k_ratio := fun _ _ => 0%float |}.


(** A scene where the template matches best at its middle sizes: a window
    scores 0.2 for a template under 15 rows, 0.6 under 25 rows and 0.4
    above, under every formula. *)
Definition graded : knobs :=
  {| k_score := fun shp _ =>
       match shp with
       | [h; _] => if h <? 15 then 0.2%float
                   else if h <? 25 then 0.6%float else 0.4%float
       | _ => 0.2%float
       end;
     k_features := fun _ => O;
     k_homography := None;
     k_ocr := None;
     k_ratio := fun _ _ => 0%float |}.


(* ================================================================== *)
(** * What the Multi-Scale Matcher tries *)
(* ================================================================== *)

Section MultiScaleAttempts.
Variable ext : externals.

(** One scale of the ladder before any thresholding: nothing when the scale
    is skipped, otherwise the result that this scale proposes, whose
    confidence is the peak score at that scale. *)
Definition scale_attempt (gray_screenshot gray_template : ndarray)
  (original_h original_w : Z) (scale : float) : W (option MatchResult) :=
  scaled_w <- lift (int_of_float (PrimFloat.mul (float_of_int original_w) scale)) ;;
  scaled_h <- lift (int_of_float (PrimFloat.mul (float_of_int original_h) scale)) ;;
  rows <- lift (py_index (shape gray_screenshot) 0) ;;
  if scaled_h >? rows then ret None else
  cols <- lift (py_index (shape gray_screenshot) 1) ;;
  if scaled_w >? cols then ret None else
  if (scaled_h <? 10) || (scaled_w <? 10) then ret None else
  scaled_template <- resize ext gray_template (scaled_w, scaled_h) ;;
  result <- matchTemplate ext gray_screenshot scaled_template TM_CCOEFF_NORMED ;;
  '(min_val, max_val, min_loc, max_loc) <- minMaxLoc ext result ;;
  ret (Some {| x := fst max_loc; y := snd max_loc;
               width := scaled_w; height := scaled_h;
               confidence := max_val;
               center_x := fst max_loc + scaled_w / 2;
               center_y := snd max_loc + scaled_h / 2;
               method := ("multi_scale_" ++ format_fixed 1 scale ++ "x")%string |}).

(** The results proposed by the tried scales, in ladder order. *)
Fixpoint attempts_over (gray_screenshot gray_template : ndarray)
  (original_h original_w : Z) (scales : list float) : W (list MatchResult) :=
  match scales with
  | [] => ret []
  | scale :: later =>
      a <- scale_attempt gray_screenshot gray_template original_h original_w scale ;;
      rest <- attempts_over gray_screenshot gray_template original_h original_w later ;;
      ret (match a with
           | Some r => r :: rest
           | None => rest
           end)
  end.

Definition multi_scale_attempts (screenshot template : ndarray)
  : W (list MatchResult) :=
  gray_screenshot <- to_gray ext screenshot ;;
  gray_template <- to_gray ext template ;;
  '(original_h, original_w) <- lift (unpack2 (shape gray_template)) ;;
  attempts_over gray_screenshot gray_template original_h original_w scale_factors.

End MultiScaleAttempts.

(** The test that decides whether a proposed result replaces the best so
    far. *)
Definition keep_best (c : float) (st : best) (r : MatchResult) : best :=
  if PrimFloat.ltb (snd st) (confidence r) && PrimFloat.leb c (confidence r)
  then (Some r, confidence r)
  else st.

(** A scene without any correlation: every window scores 0. *)
Definition flat : knobs :=
  {| k_score := fun _ _ => 0%float;
     k_features := fun _ => O;
     k_homography := None;
     k_ocr := None;
     k_ratio := fun _ _ => 0%float |}.


(* ================================================================== *)
(** * Text fixtures: one OCR token, case variants, whitespace padding *)
(* ================================================================== *)

(** The OCR dictionary with the single word ["Login"], read with 90 percent
    confidence in the box at (300, 200), 40 wide and 20 high. *)
Definition login_token : ocr_data :=
  {| ocr_text := ["Login"]; ocr_conf := [90%float];
     ocr_left := [300]; ocr_top := [200];
     ocr_width := [40]; ocr_height := [20] |}.

Definition login_screen : knobs :=
  {| k_score := k_score dull;
     k_features := fun _ => O;
     k_homography := None;
     k_ocr := Some login_token;
     k_ratio := fun _ _ => 0%float |}.

(** Every case variant of a string: the characters at the positions marked
    in [mask] have their case swapped. *)
Definition swapcase_char (c : ascii) : ascii :=
  if is_upper c then lower_char c
  else if is_lower c then upper_char c
  else c.

Fixpoint recase (mask : list bool) (s : string) : string :=
  match s, mask with
  | String c s', true :: mask' => String (swapcase_char c) (recase mask' s')
  | String c s', false :: mask' => String c (recase mask' s')
  | _, _ => s
  end.

(** Every run of whitespace: the whitespace characters of any string. *)
Fixpoint only_space (s : string) : string :=
  match s with
  | EmptyString => EmptyString
  | String c s' => if is_space c then String c (only_space s') else only_space s'
  end.


(** ** Variants of the target and of the token texts *)









(* ================================================================== *)
(** * Sequences of cache operations *)
(* ================================================================== *)

(** A use of the cache: [get_template(path)] at a given clock reading and
    state of the file system, or [_add_to_cache(key, value, now)] (the
    specification's [put]). *)
Inductive cache_op : Type :=
| op_get (fs : filesystem) (now : float) (path : string)
| op_put (key : string) (value : ndarray) (now : float).

Definition run_op (op : cache_op) : M VisionCache unit :=
  match op with
  | op_get fs now path =>
      sbind (get_template fs now path) (fun _ => sret tt)
  | op_put key value now => _add_to_cache key value now
  end.

(** The cache after a sequence of operations; an operation that raises
    leaves the attributes as they were when it raised, and the caller goes
    on.  [None]: some operation has not finished. *)
Fixpoint run_ops (ops : list cache_op) (self : VisionCache)
  : option VisionCache :=
  match ops with
  | [] => Some self
  | op :: later =>
      match run_op op self with
      | Some (_, self') => run_ops later self'
      | None => None
      end
  end.

(** The entry that [min] picks in a dictionary of access times, scanning
    from a current best. *)
Fixpoint first_min_from (d : dict float) (best_k : string) (best_v : float)
  : string :=
  match d with
  | [] => best_k
  | (k, v) :: d' =>
      if PrimFloat.ltb v best_v then first_min_from d' k v
      else first_min_from d' best_k best_v
  end.

(** The two dictionaries hold the same keys in the same order, each once. *)
Definition in_sync (self : VisionCache) : Prop :=
  keys (cache self) = keys (access_times self) /\ NoDup (keys (cache self)).

(** [d] with the entry of key [k] removed, on keys alone; and with key [k]
    set. *)
Fixpoint keys_remove (ks : list string) (k : string) : list string :=
  match ks with
  | [] => []
  | k' :: ks' => if String.eqb k' k then ks' else k' :: keys_remove ks' k
  end.

Fixpoint keys_set (ks : list string) (k : string) : list string :=
  match ks with
  | [] => [k]
  | k' :: ks' => if String.eqb k' k then k' :: ks' else k' :: keys_set ks' k
  end.


(** The cache object with its two dictionaries replaced. *)
Definition with_dicts (self : VisionCache) (c : dict ndarray) (a : dict float)
  : VisionCache :=
  {| cache := c; access_times := a;
     max_size := max_size self; ttl := ttl self |}.


(** Two decoded templates and a file system that holds the second under
    every path. *)
Definition old_pixels : ndarray := {| shape := [4; 4; 3]; data := [] |}.
Definition new_pixels : ndarray := {| shape := [5; 5; 3]; data := [] |}.

Definition disk : filesystem :=
  {| path_exists := fun _ => Ok true;
     imread := fun _ => Ok (Some new_pixels) |}.


(* ================================================================== *)
(** * Predicates used in the proofs *)
(* ================================================================== *)

(** The best-so-far result of a matching loop, if any, meets the threshold. *)
Definition meets (c : float) (st : best) : Prop :=
  forall r, fst st = Some r -> PrimFloat.leb c (confidence r) = true.

(** The loop state of the correlation-based matchers: the best-so-far
    result satisfies the invariant, meets the threshold and has a positive
    confidence; the best-so-far confidence is not negative. *)
Definition in_frame (FH FW : Z) (c : float) (st : best) : Prop :=
  (forall r, fst st = Some r ->
             result_invariant FH FW r
             /\ PrimFloat.leb c (confidence r) = true
             /\ PrimFloat.ltb 0 (confidence r) = true)
  /\ PrimFloat.leb 0 (snd st) = true.

(** The fold, on the list of proposals. *)
Definition kept (c : float) (seen : list MatchResult) (st : best) : Prop :=
  PrimFloat.leb 0 (snd st) = true
  /\ (forall r, fst st = Some r ->
                In r seen /\ confidence r = snd st
                /\ PrimFloat.leb c (snd st) = true
                /\ PrimFloat.ltb 0 (snd st) = true)
  /\ (forall q, In q seen -> PrimFloat.leb c (confidence q) = true ->
                PrimFloat.leb (confidence q) (snd st) = true)
  /\ (fst st = None -> snd st = 0%float).

(** The scan ends on the first entry whose time is least: every entry
    before it has a strictly later time, no entry after it an earlier one. *)
Definition first_least (d : dict float) (k : string) : Prop :=
  exists before v after,
    d = before ++ (k, v) :: after
    /\ (forall k' v', In (k', v') before -> PrimFloat.leb v' v = false)
    /\ (forall k' v', In (k', v') after -> PrimFloat.ltb v' v = false).

(** The token that the Text Resolver holds so far came from the OCR
    dictionary: its similarity is in [[0, 1]], its OCR confidence is the
    token's, as a fraction, and the token's box is in the frame. *)
Definition token_kept (frame_h frame_w : Z) (tokens : ocr_data)
  (st : option text_match * float) : Prop :=
  forall best_match, fst st = Some best_match ->
    within (similarity best_match) 1
    /\ (exists conf,
          py_index (ocr_conf tokens) (index best_match) = Ok conf
          /\ ocr_confidence best_match = PrimFloat.div conf 100)
    /\ token_in_frame frame_h frame_w tokens (index best_match).


(* ================================================================== *)
(** * [find_template] *)
(* ================================================================== *)

Section FindTemplate.
Variable ext : externals.

(** [if result: return result] tests the object, and a dataclass instance
    is truthy: the test is [result is not None]. *)
Definition find_template (screenshot template : ndarray) (confidence : float)
  (meth : string) (multi_scale : bool) : W (option MatchResult) :=
  if String.eqb meth "auto" then
    let features_then_template :=
      (* Try feature matching for better accuracy *)
      (result <- _match_features ext screenshot template confidence ;;
       match result with
       | Some _ => ret result
       | None =>
           (* Fallback to standard template matching *)
           _match_template ext screenshot template confidence
       end)%cv in
    (* Try multi-scale matching first if enabled *)
    if multi_scale then
      (result <- _match_multi_scale ext screenshot template confidence ;;
       match result with
       | Some _ => ret result
       | None => features_then_template
       end)%cv
    else features_then_template
  else if String.eqb meth "template" then
    _match_template ext screenshot template confidence
  else if String.eqb meth "feature" then
    _match_features ext screenshot template confidence
  else if String.eqb meth "multi_scale" then
    _match_multi_scale ext screenshot template confidence
  else raise ValueError.

End FindTemplate.

(** ** What a result says about itself *)

(** The centre is the middle of the box, by floor division. *)
Definition centered (r : MatchResult) : Prop :=
  center_x r = x r + width r / 2 /\ center_y r = y r + height r / 2.

(** The method tags that the scale ladder and the named transforms can
    give. *)
Definition multi_scale_tags : list string :=
  map (fun scale => ("multi_scale_" ++ format_fixed 1 scale ++ "x")%string)
      scale_factors.

Definition preprocessed_tags : list string :=
  map (fun pm => ("preprocessed_" ++ fst pm)%string) preprocessing_methods.

(** A property of the best result so far, when there is one. *)
Definition every (P : MatchResult -> Prop) (st : best) : Prop :=
  forall r, fst st = Some r -> P r.


(* ================================================================== *)
(** * Which token [find_text] picks *)
(* ================================================================== *)

(** Token [i] of the OCR dictionary, with text [text] and OCR confidence
    [conf] (in percent), passes the two filters of the loop: it is not
    blank and its confidence is not below the threshold. *)
Definition token_passes (tokens : ocr_data) (confidence : float)
  (i : Z) (text : string) (conf : float) : Prop :=
  is_empty text || is_empty (strip text) = false
  /\ py_index (ocr_conf tokens) i = Ok conf
  /\ PrimFloat.ltb (PrimFloat.div conf 100.0) confidence = false.

(** The similarity of a token to the cleaned target. *)
Definition token_similarity (ext : externals) (target_lower text : string)
  : float :=
  text_similarity ext target_lower (py_lower (strip text)).

(** The loop state of [find_text] after the tokens [seen]: the best match
    is the first token of greatest similarity among those that pass the
    filters and the fuzzy threshold, and there is none only if no such
    token has a positive similarity. *)
Definition best_token (ext : externals) (tokens : ocr_data)
  (target_lower : string) (confidence fuzzy_threshold : float)
  (seen : list (Z * string)) (st : option text_match * float) : Prop :=
  PrimFloat.leb 0 (snd st) = true
  /\ (fst st = None ->
      snd st = 0%float
      /\ forall j tj cj,
           In (j, tj) seen -> token_passes tokens confidence j tj cj ->
           PrimFloat.leb fuzzy_threshold
             (token_similarity ext target_lower tj) = true ->
           PrimFloat.ltb 0 (token_similarity ext target_lower tj) = false)
  /\ (forall m, fst st = Some m ->
        similarity m = snd st
        /\ similarity m = token_similarity ext target_lower (text m)
        /\ PrimFloat.leb fuzzy_threshold (snd st) = true
        /\ PrimFloat.ltb 0 (snd st) = true
        /\ exists conf before after,
             seen = before ++ (index m, text m) :: after
             /\ token_passes tokens confidence (index m) (text m) conf
             /\ ocr_confidence m = PrimFloat.div conf 100.0
             /\ (forall j tj cj,
                   In (j, tj) before ->
                   token_passes tokens confidence j tj cj ->
                   PrimFloat.leb fuzzy_threshold
                     (token_similarity ext target_lower tj) = true ->
                   PrimFloat.ltb (token_similarity ext target_lower tj)
                     (snd st) = true)
             /\ (forall j tj cj,
                   In (j, tj) after ->
                   token_passes tokens confidence j tj cj ->
                   PrimFloat.leb fuzzy_threshold
                     (token_similarity ext target_lower tj) = true ->
                   PrimFloat.leb (token_similarity ext target_lower tj)
                     (snd st) = true)).

(** An OCR dictionary with four tokens: a word that does not match, the
    word ["Login"], a blank token, and ["login"] again with a better OCR
    confidence. *)
Definition two_logins : ocr_data :=
  {| ocr_text := ["Sign"; "Login"; " "; "login"];
     ocr_conf := [95; 90; 0; 99]%float;
     ocr_left := [10; 300; 0; 500]; ocr_top := [20; 200; 0; 400];
     ocr_width := [50; 40; 0; 41]; ocr_height := [18; 20; 0; 21] |}.


(* ================================================================== *)
(** * MultiMonitorMatcher *)
(* ================================================================== *)

(** A monitor dictionary; its keys are fixed (['id'], ['x'], ['y'],
    ['width'], ['height'], ['primary']). *)
Record monitor : Type := mk_monitor {
  mon_id : Z;
  mon_x : Z;
  mon_y : Z;
  mon_width : Z;
  mon_height : Z;
  mon_primary : bool
}.

(** The monitor that the module assumes: 1920 by 1080 at the origin. *)
Definition default_monitor : monitor :=
  {| mon_id := 0; mon_x := 0; mon_y := 0;
     mon_width := 1920; mon_height := 1080; mon_primary := true |}.

(** [_get_monitor_info]; [system_profiler] is how
    [subprocess.run(['system_profiler', 'SPDisplaysDataType'], ...)] ends:
    with a return code, or with an exception. *)
Definition _get_monitor_info (system_profiler : outcome Z) : list monitor :=
  match system_profiler with
  | Ok returncode =>
      let monitors := [] in
      if returncode =? 0 then monitors ++ [default_monitor] else monitors
  | Raise _ =>
      (* Fallback to single monitor *)
      [default_monitor]
  end.

(** [get_monitor_at_point] *)
Fixpoint get_monitor_at_point (monitor_info : list monitor) (px py : Z)
  : option monitor :=
  match monitor_info with
  | [] => None
  | m :: later =>
      if (mon_x m <=? px) && (px <? mon_x m + mon_width m)
         && ((mon_y m <=? py) && (py <? mon_y m + mon_height m))
      then Some m
      else get_monitor_at_point later px py
  end.

(** The daemon as [find_template_all_monitors] sees it.
    [screenshot_reply] is how the exchange on the socket ends, from
    [socket.socket] to [np.array(Image.open(...))]: with an exception of
    any of its steps, with a reply whose status is not ['success']
    ([None]), or with the decoded screenshot.  [sock_close] is how
    [sock.close()] ends. *)
Record daemon : Type := mk_daemon {
  screenshot_reply : outcome (option ndarray);
  sock_close : outcome unit
}.

(** [result.x += monitor['x']] and the three assignments after it. *)
Definition add_offset (r : MatchResult) (m : monitor) : MatchResult :=
  {| x := x r + mon_x m; y := y r + mon_y m;
     width := width r; height := height r;
     confidence := confidence r;
     center_x := center_x r + mon_x m; center_y := center_y r + mon_y m;
     method := method r |}.

(** [find_template_all_monitors].  [find_template] is called with four
    positional arguments, so [multi_scale] has its default [True].  The
    list [results] is appended to in place: what it holds survives an
    exception raised later in the [try] block, by [sock.close()]. *)
Definition find_template_all_monitors (ext : externals) (dm : daemon)
  (monitor_info : list monitor) (template : ndarray) (confidence : float)
  (meth : string) : W (list MatchResult) :=
  let results := [] in
  try_except
    (reply <- lift (screenshot_reply dm) ;;
     results <-
       match reply with
       | Some screenshot =>
           (* Find template in screenshot *)
           result <- find_template ext screenshot template confidence meth true ;;
           match result with
           | Some r =>
               (* Adjust coordinates for monitor offset (if needed) *)
               monitor <- lift (py_index monitor_info 0) ;;
               ret (results ++ [add_offset r monitor])
           | None => ret results
           end
       | None => ret results
       end ;;
     try_except (_ <- lift (sock_close dm) ;; ret results)
                (fun _ => ret results))
    (fun _ => ret results).

(** The point lies on the monitor. *)
Definition monitor_contains (m : monitor) (px py : Z) : Prop :=
  mon_x m <= px < mon_x m + mon_width m
  /\ mon_y m <= py < mon_y m + mon_height m.

(** A daemon that answers with a 100 by 100 screenshot. *)
Definition answering : daemon :=
  {| screenshot_reply := Ok (Some (blank [100; 100])); sock_close := Ok tt |}.


(* ================================================================== *)
(** * Which formula and which transform the matchers keep *)
(* ================================================================== *)

(** The loops of [_match_template] and [_match_with_preprocessing] keep the
    first candidate of greatest score among those whose score is at least
    the threshold; [score] is [None] for a candidate that is skipped.
    [first_best score c seen pick best_confidence] is the state of such a
    loop after the candidates [seen]. *)
Definition first_best {A} (score : A -> option float) (c : float)
  (seen : list A) (pick : option A) (best_confidence : float) : Prop :=
  PrimFloat.leb 0 best_confidence = true
  /\ (pick = None ->
      best_confidence = 0%float
      /\ forall a v, In a seen -> score a = Some v ->
                     PrimFloat.leb c v = true -> PrimFloat.ltb 0 v = false)
  /\ (forall a, pick = Some a ->
        exists before after,
          seen = before ++ a :: after
          /\ score a = Some best_confidence
          /\ PrimFloat.leb c best_confidence = true
          /\ PrimFloat.ltb 0 best_confidence = true
          /\ (forall a' v, In a' before -> score a' = Some v ->
                           PrimFloat.leb c v = true ->
                           PrimFloat.ltb v best_confidence = true)
          /\ (forall a' v, In a' after -> score a' = Some v ->
                           PrimFloat.leb c v = true ->
                           PrimFloat.leb v best_confidence = true)).

(** What one formula proposes in [_match_template]: its score and the
    position of the window ([1 - min_val] at [min_loc] for the squared
    difference, [max_val] at [max_loc] otherwise). *)
Definition formula_attempt (ext : externals) (gray_screenshot gray_template : ndarray)
  (meth : tm_method) : outcome (float * (Z * Z)) :=
  match ext_matchTemplate ext gray_screenshot gray_template meth with
  | Ok result =>
      match ext_minMaxLoc ext result with
      | Ok (min_val, max_val, min_loc, max_loc) =>
          Ok (if tm_method_eqb meth TM_SQDIFF_NORMED
              then (PrimFloat.sub 1 min_val, min_loc)
              else (max_val, max_loc))
      | Raise e => Raise e
      end
  | Raise e => Raise e
  end.

(** What one named transform proposes in [_match_with_preprocessing]: the
    peak score, its position and the height and width of the transformed
    template; an exception anywhere in the turn skips the transform. *)
Definition transform_attempt (ext : externals) (gray_screenshot gray_template : ndarray)
  (pm : string * option transform) : outcome (float * (Z * Z) * (Z * Z)) :=
  match fst (preprocess_func ext (snd pm) gray_screenshot) with
  | Ok proc_screenshot =>
      match fst (preprocess_func ext (snd pm) gray_template) with
      | Ok proc_template =>
          match ext_matchTemplate ext proc_screenshot proc_template
                  TM_CCOEFF_NORMED with
          | Ok result =>
              match ext_minMaxLoc ext result with
              | Ok (min_val, max_val, min_loc, max_loc) =>
                  match unpack2 (shape proc_template) with
                  | Ok hw => Ok (max_val, max_loc, hw)
                  | Raise e => Raise e
                  end
              | Raise e => Raise e
              end
          | Raise e => Raise e
          end
      | Raise e => Raise e
      end
  | Raise e => Raise e
  end.

(** The score of an attempt that returned. *)
Definition score_of {B} (attempt : outcome (float * B)) : option float :=
  match attempt with
  | Ok (v, _) => Some v
  | Raise _ => None
  end.

Definition transform_score (ext : externals)
  (gray_screenshot gray_template : ndarray) (pm : string * option transform)
  : option float :=
  match transform_attempt ext gray_screenshot gray_template pm with
  | Ok (v, _, _) => Some v
  | Raise _ => None
  end.

(** The state of the loop of [_match_template] after the formulas [seen]:
    the best result is built from the formula that [first_best] picks. *)
Definition template_state (ext : externals) (gray_screenshot gray_template : ndarray)
  (c : float) (seen : list tm_method) (st : best) : Prop :=
  exists pick,
    first_best (fun m => score_of (formula_attempt ext gray_screenshot
                                     gray_template m))
               c seen pick (snd st)
    /\ match pick with
       | None => fst st = None
       | Some m =>
           exists v loc h w,
             formula_attempt ext gray_screenshot gray_template m = Ok (v, loc)
             /\ unpack2 (shape gray_template) = Ok (h, w)
             /\ fst st = Some {| x := fst loc; y := snd loc;
                                 width := w; height := h;
                                 confidence := v;
                                 center_x := fst loc + w / 2;
                                 center_y := snd loc + h / 2;
                                 method := "template" |}
       end.

(** The same for [_match_with_preprocessing] after the transforms
    [seen]. *)
Definition preprocessing_state (ext : externals)
  (gray_screenshot gray_template : ndarray) (c : float)
  (seen : list (string * option transform)) (st : best) : Prop :=
  exists pick,
    first_best (transform_score ext gray_screenshot gray_template)
               c seen pick (snd st)
    /\ match pick with
       | None => fst st = None
       | Some pm =>
           exists v loc h w,
             transform_attempt ext gray_screenshot gray_template pm
             = Ok (v, loc, (h, w))
             /\ fst st = Some {| x := fst loc; y := snd loc;
                                 width := w; height := h;
                                 confidence := v;
                                 center_x := fst loc + w / 2;
                                 center_y := snd loc + h / 2;
                                 method := ("preprocessed_" ++ fst pm)%string |}
       end.


(** Why [get_template] ends without a template for a path that the cache
    does not serve.  [file_missing]: the file does not exist, or does not
    decode.  [load_raises]: [Path(p).exists()] raised, or [cv2.imread]
    raised, or the file was decoded and the insertion raised [ValueError],
    which happens on a cache whose capacity is not positive. *)
(** A file system on which [Path(p).exists()] raises [OSError]. *)
Definition unreadable : filesystem :=
  {| path_exists := fun _ => Raise OSError; imread := fun _ => Ok None |}.

Definition file_missing (fs : filesystem) (path : string) : Prop :=
  path_exists fs path = Ok false
  \/ (path_exists fs path = Ok true /\ imread fs path = Ok None).

Definition load_raises (fs : filesystem) (path : string) (capacity : Z)
  (e : exn) : Prop :=
  path_exists fs path = Raise e
  \/ (path_exists fs path = Ok true /\ imread fs path = Raise e)
  \/ (e = ValueError /\ capacity <= 0 /\ path_exists fs path = Ok true
      /\ exists v, imread fs path = Ok (Some v)).


(** A [resize] in the call log asks for a size of at least 10 by 10 that is
    no higher or wider than the gray screenshot; other calls are not
    constrained. *)
Definition resize_in_bounds (gray_screenshot : ndarray) (c : cv_call) : Prop :=
  match c with
  | call_resize _ dsize =>
      10 <= fst dsize /\ 10 <= snd dsize
      /\ (forall rows, py_index (shape gray_screenshot) 0 = Ok rows ->
                       snd dsize <= rows)
      /\ (forall cols, py_index (shape gray_screenshot) 1 = Ok cols ->
                       fst dsize <= cols)
  | _ => True
  end.


(* ================================================================== *)
(** * Facts about float comparison *)
(* ================================================================== *)

(** Python's [<] and [<=] on floats are [PrimFloat.ltb] and [PrimFloat.leb].
    Every float other than NaN has a rank in a lexicographic order on
    integer triples, and the comparisons are the comparisons of ranks. *)

Lemma lex3_eq a b : lex3 a b = Eq <-> a = b.
Proof.
  destruct a as [[a1 a2] a3], b as [[b1 b2] b3]; unfold lex3.
  destruct (Z.compare_spec a1 b1), (Z.compare_spec a2 b2), (Z.compare_spec a3 b3);
    split; intros E; try discriminate; try (inversion E; lia); subst; reflexivity.
Qed.

Lemma lex3_lt a b :
  lex3 a b = Lt <->
  (fst (fst a) < fst (fst b) \/
   (fst (fst a) = fst (fst b) /\
    (snd (fst a) < snd (fst b) \/
     (snd (fst a) = snd (fst b) /\ snd a < snd b)))).
Proof.
  destruct a as [[a1 a2] a3], b as [[b1 b2] b3]; unfold lex3; cbn [fst snd].
  destruct (Z.compare_spec a1 b1), (Z.compare_spec a2 b2), (Z.compare_spec a3 b3);
    split; intros E; try discriminate; try lia; reflexivity.
Qed.

Lemma lex3_gt a b : lex3 a b = Gt <-> lex3 b a = Lt.
Proof.
  destruct a as [[a1 a2] a3], b as [[b1 b2] b3]; unfold lex3.
  destruct (Z.compare_spec a1 b1), (Z.compare_spec a2 b2), (Z.compare_spec a3 b3),
    (Z.compare_spec b1 a1), (Z.compare_spec b2 a2), (Z.compare_spec b3 a3);
    split; intros E; try discriminate; try lia; reflexivity.
Qed.

Lemma SFcompare_rank a b :
  SFcompare a b =
  match sf_rank a, sf_rank b with
  | Some ra, Some rb => Some (lex3 ra rb)
  | _, _ => None
  end.
Proof.
  destruct a as [[]|[]| |[] m e], b as [[]|[]| |[] m' e']; cbn; try reflexivity.
  destruct (Z.compare_spec e e'), (Z.compare_spec (- e) (- e')); try lia; reflexivity.
Qed.

Lemma ltb_rank a b :
  PrimFloat.ltb a b = true <->
  exists ra rb, frank a = Some ra /\ frank b = Some rb /\ lex3 ra rb = Lt.
Proof.
  rewrite ltb_spec. unfold SFltb, frank. rewrite SFcompare_rank.
  destruct (sf_rank (Prim2SF a)) as [ra|], (sf_rank (Prim2SF b)) as [rb|]; split;
    try discriminate; try (intros (? & ? & Ha & Hb & _); discriminate).
  - destruct (lex3 ra rb) eqn:E; try discriminate. eauto.
  - intros (ra' & rb' & Ha & Hb & Hl). inversion Ha; inversion Hb; subst.
    now rewrite Hl.
Qed.

Lemma leb_rank a b :
  PrimFloat.leb a b = true <->
  exists ra rb, frank a = Some ra /\ frank b = Some rb /\ lex3 ra rb <> Gt.
Proof.
  rewrite leb_spec. unfold SFleb, frank. rewrite SFcompare_rank.
  destruct (sf_rank (Prim2SF a)) as [ra|], (sf_rank (Prim2SF b)) as [rb|]; split;
    try discriminate; try (intros (? & ? & Ha & Hb & _); discriminate).
  - destruct (lex3 ra rb) eqn:E; try discriminate;
      exists ra, rb; rewrite E; repeat split; discriminate.
  - intros (ra' & rb' & Ha & Hb & Hl). inversion Ha; inversion Hb; subst.
    destruct (lex3 ra' rb'); congruence.
Qed.

(** The comparison facts the proofs below use; [leb a a = true] says that
    [a] is not NaN. *)

Ltac rank_facts :=
  repeat match goal with
  | H : PrimFloat.ltb _ _ = true |- _ =>
      apply ltb_rank in H; destruct H as (? & ? & ? & ? & H); apply lex3_lt in H
  | H : PrimFloat.leb _ _ = true |- _ =>
      apply leb_rank in H; destruct H as (? & ? & ? & ? & H)
  end;
  repeat match goal with
  | H1 : frank ?a = Some ?r1, H2 : frank ?a = Some ?r2 |- _ =>
      assert (r1 = r2) by congruence; subst r2; clear H2
  end.

Lemma lex3_not_gt a b :
  lex3 a b <> Gt <-> (lex3 a b = Lt \/ a = b).
Proof.
  rewrite <- lex3_eq. destruct (lex3 a b); split; intros H;
    try tauto; try congruence; destruct H; congruence.
Qed.

Lemma ltb_leb a b : PrimFloat.ltb a b = true -> PrimFloat.leb a b = true.
Proof.
  intros H. apply ltb_rank in H. destruct H as (ra & rb & Ha & Hb & Hl).
  apply leb_rank. exists ra, rb. rewrite Hl. repeat split; auto; discriminate.
Qed.

Lemma leb_trans a b c :
  PrimFloat.leb a b = true -> PrimFloat.leb b c = true -> PrimFloat.leb a c = true.
Proof.
  intros H1 H2. rank_facts. apply leb_rank. do 2 eexists. repeat split; eauto.
  apply lex3_not_gt in H1, H2. apply lex3_not_gt.
  rewrite !lex3_lt in *. destruct H1 as [H1|H1], H2 as [H2|H2]; subst; auto.
  left. lia.
Qed.

Lemma ltb_leb_trans a b c :
  PrimFloat.ltb a b = true -> PrimFloat.leb b c = true -> PrimFloat.ltb a c = true.
Proof.
  intros H1 H2. rank_facts. apply ltb_rank. do 2 eexists. repeat split; eauto.
  apply lex3_not_gt in H2. rewrite !lex3_lt in *.
  destruct H2 as [H2|H2]; subst; auto. lia.
Qed.

Lemma leb_ltb_trans a b c :
  PrimFloat.leb a b = true -> PrimFloat.ltb b c = true -> PrimFloat.ltb a c = true.
Proof.
  intros H1 H2. rank_facts. apply ltb_rank. do 2 eexists. repeat split; eauto.
  apply lex3_not_gt in H1. rewrite !lex3_lt in *.
  destruct H1 as [H1|H1]; subst; auto. lia.
Qed.

Lemma ltb_not_leb a b : PrimFloat.ltb a b = true -> PrimFloat.leb b a = false.
Proof.
  intros H. destruct (PrimFloat.leb b a) eqn:E; auto.
  rank_facts. exfalso. apply E. apply lex3_gt. apply lex3_lt. exact H.
Qed.

Lemma leb_not_ltb a b : PrimFloat.leb a b = true -> PrimFloat.ltb b a = false.
Proof.
  intros H. destruct (PrimFloat.ltb b a) eqn:E; auto.
  apply ltb_not_leb in E. congruence.
Qed.

Lemma leb_refl_l a b : PrimFloat.leb a b = true -> PrimFloat.leb a a = true.
Proof.
  intros H. rank_facts. apply leb_rank. do 2 eexists. repeat split; eauto.
  apply lex3_not_gt. auto.
Qed.

Lemma leb_refl_r a b : PrimFloat.leb a b = true -> PrimFloat.leb b b = true.
Proof.
  intros H. rank_facts. apply leb_rank. do 2 eexists. repeat split; eauto.
  apply lex3_not_gt. auto.
Qed.

Lemma not_ltb_leb a b :
  PrimFloat.leb a a = true -> PrimFloat.leb b b = true ->
  PrimFloat.ltb a b = false -> PrimFloat.leb b a = true.
Proof.
  intros Ha Hb H. rank_facts. apply leb_rank. do 2 eexists. repeat split; eauto.
  intros G. apply lex3_gt in G.
  assert (PrimFloat.ltb a b = true); [|congruence].
  apply ltb_rank. eauto.
Qed.

(* ================================================================== *)
(** * Facts about float arithmetic between zero and a bound *)
(* ================================================================== *)

Lemma digits2_pos_bounds p :
  2 ^ (Zpos (digits2_pos p) - 1) <= Zpos p < 2 ^ Zpos (digits2_pos p).
Proof.
  induction p as [p IH|p IH|]; cbn [digits2_pos].
  - rewrite Pos2Z.inj_succ.
    replace (Z.succ (Zpos (digits2_pos p)) - 1) with (Z.succ (Zpos (digits2_pos p) - 1)) by lia.
    rewrite !Z.pow_succ_r by lia. lia.
  - rewrite Pos2Z.inj_succ.
    replace (Z.succ (Zpos (digits2_pos p)) - 1) with (Z.succ (Zpos (digits2_pos p) - 1)) by lia.
    rewrite !Z.pow_succ_r by lia. lia.
  - cbn. lia.
Qed.

Lemma digits2_pos_le p k : 0 <= k -> Zpos p < 2 ^ k -> Zpos (digits2_pos p) <= k.
Proof.
  intros Hk H. pose proof (digits2_pos_bounds p) as [L _].
  assert (2 ^ (Zpos (digits2_pos p) - 1) < 2 ^ k) by lia.
  apply Z.pow_lt_mono_r_iff in H0; lia.
Qed.

Lemma digits2_pos_gt p k : 0 <= k -> 2 ^ k <= Zpos p -> k < Zpos (digits2_pos p).
Proof.
  intros Hk H. pose proof (digits2_pos_bounds p) as [_ U].
  assert (2 ^ k < 2 ^ Zpos (digits2_pos p)) by lia.
  apply Z.pow_lt_mono_r_iff in H0; lia.
Qed.

Lemma iter_xO m d : Zpos (Pos.iter xO m d) = Zpos m * 2 ^ Zpos d.
Proof.
  induction d as [|d IHd] using Pos.peano_ind.
  - cbn. lia.
  - rewrite Pos.iter_succ, Pos2Z.inj_succ, Z.pow_succ_r by lia.
    rewrite Pos2Z.inj_xO, IHd. lia.
Qed.

Lemma fexp_eq e : fexp prec emax e = Z.max (e - 53) (-1074).
Proof. reflexivity. Qed.

Lemma units_pos m e : -2200 <= e -> 0 < m -> 0 < units m e.
Proof. intros He H. unfold units. apply Z.mul_pos_pos; [lia|]. apply Z.pow_pos_nonneg; lia. Qed.

Lemma units_shift m e n :
  0 <= n -> -2200 <= e -> units (m * 2 ^ n) e = units m (e + n).
Proof.
  intros Hn He. unfold units.
  replace (e + n + 2200) with (n + (e + 2200)) by lia.
  rewrite (Z.pow_add_r 2 n (e + 2200)) by lia. ring.
Qed.

Lemma units_le m1 m2 e : -2200 <= e -> (units m1 e <= units m2 e <-> m1 <= m2).
Proof.
  intros He. unfold units.
  assert (0 < 2 ^ (e + 2200)) by (apply Z.pow_pos_nonneg; lia).
  split; intros; nia.
Qed.

Lemma units_lt m1 m2 e : -2200 <= e -> (units m1 e < units m2 e <-> m1 < m2).
Proof.
  intros He. unfold units.
  assert (0 < 2 ^ (e + 2200)) by (apply Z.pow_pos_nonneg; lia).
  split; intros; nia.
Qed.

Lemma units_floor m e n :
  0 <= m -> 0 <= n -> -2200 <= e -> units (m / 2 ^ n) (e + n) <= units m e.
Proof.
  intros Hm Hn He. rewrite <- units_shift by lia. apply units_le; [lia|].
  assert (0 < 2 ^ n) by (apply Z.pow_pos_nonneg; lia).
  rewrite Z.mul_comm. apply Z.mul_div_le. lia.
Qed.

Lemma units_floor_lt m e n :
  0 <= m -> 0 <= n -> -2200 <= e -> m <> m / 2 ^ n * 2 ^ n ->
  units (m / 2 ^ n) (e + n) < units m e.
Proof.
  intros Hm Hn He Hne. rewrite <- units_shift by lia. apply units_lt; [lia|].
  assert (0 < 2 ^ n) by (apply Z.pow_pos_nonneg; lia).
  pose proof (Z.mul_div_le m (2 ^ n) ltac:(lia)). lia.
Qed.

Lemma units_grid m0 e' mB eB :
  -2200 <= e' -> e' <= eB ->
  units m0 e' < units mB eB -> units (m0 + 1) e' <= units mB eB.
Proof.
  intros He Hle H.
  replace eB with (e' + (eB - e')) in * by lia.
  rewrite <- units_shift in * by lia.
  apply units_lt in H; [|lia]. apply units_le; lia.
Qed.

(** ** Shifting a mantissa right *)

Lemma shr_1_shifted a : shifted 1 a (shr_1 a).
Proof.
  destruct a as [m r s]. unfold shifted, inexact. cbn [shr_m shr_r shr_s].
  intros Hm. change (2 ^ 1) with 2.
  destruct m as [|p|p]; [| |lia].
  - cbn. split; [reflexivity|]. destruct r, s; cbn; intuition congruence.
  - destruct p as [p|p|]; cbn [shr_1 shr_m shr_r shr_s].
    + split; [rewrite Pos2Z.inj_xI; apply Z.div_unique with 1; lia|].
      cbn. intuition (try congruence; try lia).
    + split; [rewrite Pos2Z.inj_xO; apply Z.div_unique with 0; lia|].
      destruct r, s; cbn; intuition (try congruence; try lia).
    + split; [reflexivity|]. cbn. intuition (try congruence; try lia).
Qed.

Lemma shifted_trans j k a b c :
  0 <= j -> 0 <= k -> shifted j a b -> shifted k b c -> shifted (j + k) a c.
Proof.
  intros Hj Hk Hab Hbc Ha.
  destruct (Hab Ha) as [Eb Ib].
  assert (0 < 2 ^ j) by (apply Z.pow_pos_nonneg; lia).
  assert (0 < 2 ^ k) by (apply Z.pow_pos_nonneg; lia).
  assert (Hb : 0 <= shr_m b) by (rewrite Eb; apply Z.div_pos; lia).
  destruct (Hbc Hb) as [Ec Ic].
  rewrite Z.pow_add_r by lia.
  split.
  - rewrite Ec, Eb. apply Z.div_div; lia.
  - rewrite Ic, Ib. split.
    + intros [[Ia E1] E2]. split; [exact Ia|]. rewrite E1 at 1. rewrite E2 at 1. ring.
    + intros [Ia E]. 
      assert (Eb2 : shr_m b = shr_m c * 2 ^ k).
      { rewrite Eb, E.
        replace (shr_m c * (2 ^ j * 2 ^ k)) with (shr_m c * 2 ^ k * 2 ^ j) by ring.
        apply Z.div_mul. lia. }
      split; [split; [exact Ia|rewrite Eb2, E; ring]|exact Eb2].
Qed.

Lemma iter_pos_shifted p a : shifted (Zpos p) a (iter_pos shr_1 p a).
Proof.
  revert a. induction p as [p IH|p IH|]; intros a; cbn [iter_pos].
  - replace (Zpos p~1) with (1 + (Zpos p + Zpos p)) by lia.
    eapply shifted_trans; [lia|lia|apply shr_1_shifted|].
    eapply shifted_trans; [lia|lia|apply IH|apply IH].
  - replace (Zpos p~0) with (Zpos p + Zpos p) by lia.
    eapply shifted_trans; [lia|lia|apply IH|apply IH].
  - apply shr_1_shifted.
Qed.

Lemma loc_exact_inexact mrs :
  loc_of_shr_record mrs = loc_Exact <-> inexact mrs = false.
Proof.
  destruct mrs as [m [|] [|]]; cbn; intuition congruence.
Qed.

Lemma record_of_loc_m m l : shr_m (shr_record_of_loc m l) = m.
Proof. destruct l as [|[| |]]; reflexivity. Qed.

Lemma record_of_loc_inexact m l :
  inexact (shr_record_of_loc m l) = false <-> l = loc_Exact.
Proof. destruct l as [|[| |]]; cbn; intuition congruence. Qed.

Lemma round_nearest_even_cases m l :
  round_nearest_even m l = m
  \/ (round_nearest_even m l = m + 1 /\ l <> loc_Exact).
Proof.
  destruct l as [|[| |]]; cbn; auto.
  - destruct (Z.even m); [auto|right; split; [reflexivity|discriminate]].
  - right. split; [reflexivity|discriminate].
Qed.

Lemma Zdigits2_le m k : 0 <= m -> 0 <= k -> m < 2 ^ k -> Zdigits2 m <= k.
Proof.
  intros Hm Hk H. destruct m as [|p|p]; [exact Hk| |lia].
  now apply digits2_pos_le.
Qed.

Lemma bounded_spec m e :
  bounded prec emax m e = true ->
  e = Z.max (Zpos (digits2_pos m) + e - 53) (-1074) /\ e <= 971.
Proof.
  unfold bounded, canonical_mantissa. intros H.
  apply andb_prop in H. destruct H as [H1 H2].
  apply Z.eqb_eq in H1. apply Z.leb_le in H2. rewrite fexp_eq in H1.
  split; [lia|exact H2].
Qed.

Lemma shr_fexp_first mx ex lx uB :
  0 <= mx -> -2200 <= ex ->
  ex <= fexp prec emax (Zdigits2 mx + ex) ->
  units mx ex <= uB ->
  (lx <> loc_Exact -> units mx ex < uB) ->
  exists mrs,
    shr_fexp prec emax mx ex lx = (mrs, fexp prec emax (Zdigits2 mx + ex))
    /\ 0 <= shr_m mrs
    /\ units (shr_m mrs) (fexp prec emax (Zdigits2 mx + ex)) <= units mx ex
    /\ (loc_of_shr_record mrs <> loc_Exact ->
        units (shr_m mrs) (fexp prec emax (Zdigits2 mx + ex)) < uB).
Proof.
  intros Hm He Hn Hle Hlt. unfold shr_fexp, shr.
  remember (fexp prec emax (Zdigits2 mx + ex)) as e' eqn:Ee'.
  destruct (e' - ex) as [|p|p] eqn:En; [| |lia].
  - replace e' with ex by lia.
    exists (shr_record_of_loc mx lx). rewrite record_of_loc_m.
    split; [reflexivity|]. split; [exact Hm|]. split; [lia|].
    intros Hl. apply Hlt. intros ->. apply Hl. reflexivity.
  - pose proof (iter_pos_shifted p (shr_record_of_loc mx lx)) as S.
    unfold shifted in S. rewrite record_of_loc_m in S.
    destruct (S Hm) as [Em Ei]. clear S.
    exists (iter_pos shr_1 p (shr_record_of_loc mx lx)).
    assert (0 < 2 ^ Zpos p) by (apply Z.pow_pos_nonneg; lia).
    replace e' with (ex + Zpos p) by lia.
    repeat match goal with |- _ /\ _ => split end.
    + reflexivity.
    + rewrite Em. apply Z.div_pos; lia.
    + rewrite Em. apply units_floor; lia.
    + intros Hl. rewrite loc_exact_inexact in Hl.
      destruct lx as [|c] eqn:El.
      * eapply Z.lt_le_trans; [|exact Hle].
        rewrite Em. apply units_floor_lt; try lia.
        intros E. apply Hl. apply Ei. split; [reflexivity|].
        rewrite Em. exact E.
      * eapply Z.le_lt_trans; [|apply Hlt; discriminate].
        rewrite Em. apply units_floor; lia.
Qed.

Lemma shr_fexp_second m1 e1 :
  0 <= m1 -> -2200 <= e1 ->
  exists mrs e2,
    shr_fexp prec emax m1 e1 loc_Exact = (mrs, e2)
    /\ 0 <= shr_m mrs /\ units (shr_m mrs) e2 <= units m1 e1
    /\ (e2 = e1 \/ e2 = fexp prec emax (Zdigits2 m1 + e1)).
Proof.
  intros Hm He. unfold shr_fexp, shr.
  remember (fexp prec emax (Zdigits2 m1 + e1)) as e' eqn:Ee'.
  destruct (e' - e1) as [|p|p] eqn:En.
  - do 2 eexists. split; [reflexivity|]. cbn. repeat split; auto; lia.
  - pose proof (iter_pos_shifted p (shr_record_of_loc m1 loc_Exact)) as S.
    unfold shifted in S. cbn [shr_m shr_record_of_loc] in S.
    destruct (S Hm) as [Em _]. clear S.
    assert (0 < 2 ^ Zpos p) by (apply Z.pow_pos_nonneg; lia).
    do 2 eexists. split; [reflexivity|].
    cbn [shr_record_of_loc]. rewrite Em.
    repeat match goal with |- _ /\ _ => split end.
    + apply Z.div_pos; lia.
    + apply units_floor; lia.
    + right. lia.
  - do 2 eexists. split; [reflexivity|]. cbn. repeat split; auto; lia.
Qed.

(** An upper bound survives rounding: a value at most a float [B], on a
    grid at least as fine as that of [B], is rounded to at most [B]. *)
Lemma binary_round_aux_le mx ex lx mB eB :
  0 <= mx -> -2200 <= ex ->
  ex <= fexp prec emax (Zdigits2 mx + ex) ->
  fexp prec emax (Zdigits2 mx + ex) <= eB ->
  bounded prec emax mB eB = true ->
  units mx ex <= units (Zpos mB) eB ->
  (lx <> loc_Exact -> units mx ex < units (Zpos mB) eB) ->
  binary_round_aux prec emax false mx ex lx = S754_zero false
  \/ exists m e,
       binary_round_aux prec emax false mx ex lx = S754_finite false m e
       /\ -2200 <= e
       /\ units (Zpos m) e <= units (Zpos mB) eB.
Proof.
  intros Hm He Hn Hg HB Hle Hlt.
  destruct (shr_fexp_first mx ex lx _ Hm He Hn Hle Hlt)
    as (mrs & E1 & Hm0 & Hfl & Hst).
  unfold binary_round_aux. rewrite E1. clear E1.
  remember (fexp prec emax (Zdigits2 mx + ex)) as e' eqn:Ee'.
  clear Ee'.
  set (m1 := round_nearest_even (shr_m mrs) (loc_of_shr_record mrs)).
  assert (Hm1 : 0 <= m1 /\ units m1 e' <= units (Zpos mB) eB).
  { subst m1.
    destruct (round_nearest_even_cases (shr_m mrs) (loc_of_shr_record mrs))
      as [-> | [-> Hl]].
    - split; [exact Hm0|lia].
    - split; [lia|]. apply units_grid; [lia|lia|]. now apply Hst. }
  destruct Hm1 as [Hm1 Hu1]. clearbody m1.
  destruct (shr_fexp_second m1 e' Hm1 ltac:(lia)) as (mrs2 & e2 & E2 & Hm2 & Hfl2 & He2).
  rewrite E2. clear E2.
  destruct (shr_m mrs2) as [|m|m] eqn:Em2; [left; reflexivity| |lia].
  right. exists m, e2.
  apply bounded_spec in HB. destruct HB as [HcB HeB].
  rewrite fexp_eq in He2.
  assert (Hlo2 : -2200 <= e2) by lia.
  assert (Hp1 : 0 < m1).
  { destruct (Z.eq_dec m1 0) as [Z|]; [|lia].
    assert (U0 : units m1 e' = 0) by (rewrite Z; reflexivity).
    pose proof (units_pos (Zpos m) e2 Hlo2 ltac:(lia)). lia. }
  assert (Hle2 : e2 <= 971).
  { destruct He2 as [E | E]; [lia|].
    assert (Zdigits2 m1 + e' <= Zpos (digits2_pos mB) + eB); [|lia].
    assert (Zdigits2 m1 <= Zpos (digits2_pos mB) + eB - e'); [|lia].
    apply Zdigits2_le; [lia|lia|].
    pose proof (digits2_pos_bounds mB) as [_ U].
    apply (units_lt _ _ e'); [lia|].
    eapply Z.le_lt_trans; [exact Hu1|].
    rewrite <- (Z.mul_1_l (2 ^ _)), units_shift by lia.
    replace (e' + (Zpos (digits2_pos mB) + eB - e')) with (eB + Zpos (digits2_pos mB)) by lia.
    rewrite <- units_shift by lia.
    apply units_lt; lia. }
  apply Z.leb_le in Hle2. change (emax - prec) with 971. rewrite Hle2.
  split; [reflexivity|]. split; [exact Hlo2|lia].
Qed.

(** ** Order of valid floats, by value *)

Lemma bounded_lo m e : bounded prec emax m e = true -> -1074 <= e <= 971.
Proof. intros H. apply bounded_spec in H. lia. Qed.

Lemma units_digits_le m e mB eB :
  -2200 <= e -> -2200 <= eB ->
  units (Zpos m) e <= units (Zpos mB) eB ->
  Zpos (digits2_pos m) + e <= Zpos (digits2_pos mB) + eB.
Proof.
  intros He HeB H.
  pose proof (digits2_pos_bounds m) as [L _].
  pose proof (digits2_pos_bounds mB) as [_ U].
  assert (P : units (2 ^ (Zpos (digits2_pos m) - 1)) e
              < units (2 ^ Zpos (digits2_pos mB)) eB).
  { eapply Z.le_lt_trans; [apply units_le; [lia|exact L]|].
    eapply Z.le_lt_trans; [exact H|]. apply units_lt; lia. }
  rewrite <- (Z.mul_1_l (2 ^ (_ - 1))), <- (Z.mul_1_l (2 ^ Zpos _)) in P.
  rewrite !units_shift in P by lia.
  unfold units in P. rewrite !Z.mul_1_l in P.
  apply Z.pow_lt_mono_r_iff in P; lia.
Qed.

Lemma digits_units_lt m e mB eB :
  -2200 <= e -> -2200 <= eB ->
  Zpos (digits2_pos m) + e < Zpos (digits2_pos mB) + eB ->
  units (Zpos m) e < units (Zpos mB) eB.
Proof.
  intros He HeB H.
  pose proof (digits2_pos_bounds m) as [_ U].
  pose proof (digits2_pos_bounds mB) as [L _].
  eapply Z.lt_le_trans; [apply units_lt; [lia|exact U]|].
  eapply Z.le_trans; [|apply units_le; [lia|exact L]].
  rewrite <- (Z.mul_1_l (2 ^ (_ - 1))), <- (Z.mul_1_l (2 ^ Zpos _)).
  rewrite !units_shift by lia.
  unfold units. rewrite !Z.mul_1_l.
  apply Z.pow_le_mono_r; lia.
Qed.

Lemma bounded_exp_lt m1 e1 m2 e2 :
  bounded prec emax m1 e1 = true -> bounded prec emax m2 e2 = true ->
  e1 < e2 -> units (Zpos m1) e1 < units (Zpos m2) e2.
Proof.
  intros H1 H2 Hlt. apply bounded_spec in H1, H2.
  apply digits_units_lt; lia.
Qed.

Lemma bounded_units_le m1 e1 m2 e2 :
  bounded prec emax m1 e1 = true -> bounded prec emax m2 e2 = true ->
  (SFleb (S754_finite false m1 e1) (S754_finite false m2 e2) = true
   <-> units (Zpos m1) e1 <= units (Zpos m2) e2).
Proof.
  intros H1 H2. unfold SFleb, SFcompare.
  destruct (Z.compare_spec e1 e2) as [E|E|E].
  - subst e2. change (Pos.compare_cont Eq m1 m2) with (Pos.compare m1 m2).
    rewrite units_le by (apply bounded_lo in H1; lia).
    destruct (Pos.compare_spec m1 m2); split; intros; try reflexivity;
      try discriminate; lia.
  - pose proof (bounded_exp_lt _ _ _ _ H1 H2 E). split; [lia|reflexivity].
  - pose proof (bounded_exp_lt _ _ _ _ H2 H1 E). split; [discriminate|lia].
Qed.

Lemma within_spec x b mB eB :
  Prim2SF b = S754_finite false mB eB ->
  (within x b <-> sf_within (Prim2SF x) mB eB).
Proof.
  intros Hb. unfold within. rewrite !leb_spec, Hb.
  change (Prim2SF 0) with (S754_zero false).
  pose proof (Prim2SF_valid x) as Vx. pose proof (Prim2SF_valid b) as Vb.
  rewrite Hb in Vb. cbn in Vb.
  destruct (Prim2SF x) as [s|s| |s m e] eqn:Ex.
  - split; [left; eauto|]. intros _. split; reflexivity.
  - split.
    + intros [H1 H2]. destruct s; discriminate.
    + intros [[s' H]|(m & e & H & _)]; discriminate.
  - split.
    + intros [H1 H2]. discriminate.
    + intros [[s' H]|(m & e & H & _)]; discriminate.
  - cbn in Vx. destruct s.
    + split.
      * intros [H1 H2]. discriminate.
      * intros [[s' H]|(m' & e' & H & _)]; discriminate.
    + split.
      * intros [_ H2]. right. exists m, e. split; [reflexivity|].
        now apply bounded_units_le.
      * intros [[s' H]|(m' & e' & H & Hu)]; [discriminate|].
        injection H as <- <-. split; [reflexivity|].
        now apply bounded_units_le.
Qed.

Lemma round_within mx ex lx mB eB :
  0 <= mx -> -2200 <= ex ->
  ex <= fexp prec emax (Zdigits2 mx + ex) ->
  (mx = 0 -> ex <= -1074) ->
  bounded prec emax mB eB = true ->
  units mx ex <= units (Zpos mB) eB ->
  (lx <> loc_Exact -> units mx ex < units (Zpos mB) eB) ->
  sf_within (binary_round_aux prec emax false mx ex lx) mB eB.
Proof.
  intros Hm He Hn H0 HB Hle Hlt.
  destruct (binary_round_aux_le mx ex lx mB eB) as [E|(m & e & E & _ & Hu)];
    auto.
  - destruct mx as [|p|p]; [| |lia].
    + cbn [Zdigits2]. rewrite fexp_eq. apply bounded_lo in HB.
      specialize (H0 eq_refl). lia.
    + cbn [Zdigits2]. rewrite fexp_eq.
      pose proof (units_digits_le p ex mB eB He
                    ltac:(apply bounded_lo in HB; lia) Hle).
      apply bounded_spec in HB. lia.
  - left. eauto.
  - right. eauto.
Qed.

(** ** Products, sums and quotients of floats between zero and a bound *)

Lemma units_add m1 m2 e : units (m1 + m2) e = units m1 e + units m2 e.
Proof. unfold units. ring. Qed.

Lemma Prim2SF_one : Prim2SF 1 = S754_finite false 4503599627370496 (-52).
Proof. reflexivity. Qed.

Lemma units_one : units (Zpos 4503599627370496) (-52) = units 1 0.
Proof. vm_compute. reflexivity. Qed.

Lemma units_le_one m e :
  -2200 <= e -> units (Zpos m) e <= units 1 0 ->
  e <= 0 /\ Zpos m <= 2 ^ (- e).
Proof.
  intros He H. unfold units in H. rewrite Z.mul_1_l in H.
  assert (He0 : e <= 0).
  { destruct (Z_le_gt_dec e 0) as [|G]; [assumption|exfalso].
    assert (2 ^ (0 + 2200) < 2 ^ (e + 2200))
      by (apply Z.pow_lt_mono_r; lia).
    assert (0 < 2 ^ (0 + 2200)) by (apply Z.pow_pos_nonneg; lia).
    nia. }
  split; [exact He0|].
  replace (0 + 2200) with (- e + (e + 2200)) in H by lia.
  rewrite (Z.pow_add_r 2 (- e) (e + 2200)) in H by lia.
  assert (0 < 2 ^ (e + 2200)) by (apply Z.pow_pos_nonneg; lia).
  nia.
Qed.

Lemma valid_finite x s m e :
  Prim2SF x = S754_finite s m e -> bounded prec emax m e = true.
Proof. intros E. pose proof (Prim2SF_valid x) as V. now rewrite E in V. Qed.

(** [x * k <= k] for [0 <= x <= 1] and a normal positive [k]. *)
Lemma mul_within x k mk ek :
  Prim2SF k = S754_finite false mk ek -> Zpos (digits2_pos mk) = 53 ->
  within x 1 -> within (x * k) k.
Proof.
  intros Hk Hd Hx.
  rewrite (within_spec _ _ _ _ Prim2SF_one) in Hx.
  rewrite (within_spec _ _ _ _ Hk).
  rewrite mul_spec, Hk. unfold SF64mul.
  pose proof (valid_finite _ _ _ _ Hk) as Vk.
  destruct Hx as [[s Ex]|(m & e & Ex & Hu)]; rewrite Ex.
  - left. cbn. eauto.
  - pose proof (valid_finite _ _ _ _ Ex) as Vx.
    cbn [SFmul xorb].
    pose proof (bounded_lo _ _ Vx). pose proof (bounded_lo _ _ Vk).
    rewrite units_one in Hu. apply units_le_one in Hu; [|lia].
    destruct Hu as [He Hm].
    pose proof (digits2_pos_bounds mk) as [Lk Uk]. rewrite Hd in Lk, Uk.
    assert (0 < 2 ^ (- e)) by (apply Z.pow_pos_nonneg; lia).
    apply round_within; try lia; try discriminate; auto.
    + rewrite fexp_eq. cbn [Zdigits2].
      assert (52 < Zpos (digits2_pos (m * mk))); [|lia].
      apply digits2_pos_gt; [lia|]. rewrite Pos2Z.inj_mul.
      change (53 - 1) with 52 in Lk. nia.
    + rewrite Pos2Z.inj_mul. unfold units.
      replace (ek + 2200) with (- e + (e + ek + 2200)) by lia.
      rewrite (Z.pow_add_r 2 (- e) (e + ek + 2200)) by lia.
      assert (0 < 2 ^ (e + ek + 2200)) by (apply Z.pow_pos_nonneg; lia).
      nia.
    + intros F. now elim F.
Qed.

Lemma shl_align_spec m ex ex' :
  ex' <= ex ->
  shl_align m ex ex' = (Z.to_pos (Zpos m * 2 ^ (ex - ex')), ex').
Proof.
  intros H. unfold shl_align.
  destruct (ex' - ex) as [|p|p] eqn:E; [| lia |].
  - replace (ex - ex') with 0 by lia. replace ex' with ex by lia.
    rewrite Z.mul_1_r. reflexivity.
  - replace (ex - ex') with (Zpos p) by lia.
    rewrite <- iter_xO. reflexivity.
Qed.

Lemma digits2_pos_iter m d :
  Zpos (digits2_pos (Pos.iter xO m d)) = Zpos (digits2_pos m) + Zpos d.
Proof.
  induction d as [|d IHd] using Pos.peano_ind.
  - cbn [Pos.iter digits2_pos]. lia.
  - rewrite Pos.iter_succ. cbn [digits2_pos]. lia.
Qed.

Lemma binary_round_aux_canonical m e :
  bounded prec emax m e = true ->
  binary_round_aux prec emax false (Zpos m) e loc_Exact = S754_finite false m e.
Proof.
  intros H. pose proof H as H'. unfold bounded, canonical_mantissa in H'.
  apply andb_prop in H'. destruct H' as [Hc He]. apply Z.eqb_eq in Hc.
  unfold binary_round_aux, shr_fexp. cbn [Zdigits2].
  rewrite Hc, Z.sub_diag. cbn [shr shr_record_of_loc shr_m loc_of_shr_record
                                round_nearest_even Zdigits2].
  rewrite Hc, Z.sub_diag. cbn [shr shr_record_of_loc shr_m].
  now rewrite He.
Qed.

(** What [binary_round] is given is aligned on the grid of its value. *)
Lemma binary_round_aligned m e :
  exists mz ez,
    shl_align m e (fexp prec emax (Zpos (digits2_pos m) + e)) = (mz, ez)
    /\ (-2200 <= e -> -2200 <= ez)
    /\ ez <= fexp prec emax (Zpos (digits2_pos mz) + ez)
    /\ (-2200 <= e -> units (Zpos mz) ez = units (Zpos m) e)
    /\ (e <= fexp prec emax (Zpos (digits2_pos m) + e) -> mz = m /\ ez = e)
    /\ (fexp prec emax (Zpos (digits2_pos m) + e) <= e ->
        ez = fexp prec emax (Zpos (digits2_pos mz) + ez)).
Proof.
  unfold shl_align. rewrite !fexp_eq.
  destruct (Z.max (Zpos (digits2_pos m) + e - 53) (-1074) - e)
    as [|p|p] eqn:E.
  - exists m, e. rewrite !fexp_eq. repeat split; auto; lia.
  - exists m, e. rewrite !fexp_eq. repeat split; auto; lia.
  - exists (Pos.iter xO m p), (Z.max (Zpos (digits2_pos m) + e - 53) (-1074)).
    rewrite !fexp_eq, digits2_pos_iter.
    split; [reflexivity|]. split; [lia|]. split; [lia|].
    split; [|split; lia].
    intros He. rewrite iter_xO, units_shift by lia. f_equal. lia.
Qed.

Lemma binary_round_within m e mB eB :
  -2200 <= e -> bounded prec emax mB eB = true ->
  units (Zpos m) e <= units (Zpos mB) eB ->
  sf_within (binary_round prec emax false m e) mB eB.
Proof.
  intros He HB Hu. unfold binary_round.
  destruct (binary_round_aligned m e) as (mz & ez & -> & Hlo & Hal & Hun & _).
  apply round_within.
  - lia.
  - auto.
  - exact Hal.
  - discriminate.
  - exact HB.
  - rewrite Hun by lia. exact Hu.
  - intros F. now elim F.
Qed.

(** [a + b <= C] for [0 <= a <= A] and [0 <= b <= B] when [A + B <= C]. *)
Lemma add_within a b A B C mA eA mB eB mC eC :
  Prim2SF A = S754_finite false mA eA ->
  Prim2SF B = S754_finite false mB eB ->
  Prim2SF C = S754_finite false mC eC ->
  units (Zpos mA) eA + units (Zpos mB) eB <= units (Zpos mC) eC ->
  within a A -> within b B -> within (a + b) C.
Proof.
  intros HA HB HC Hsum Ha Hb.
  rewrite (within_spec _ _ _ _ HA) in Ha.
  rewrite (within_spec _ _ _ _ HB) in Hb.
  rewrite (within_spec _ _ _ _ HC).
  pose proof (bounded_lo _ _ (valid_finite _ _ _ _ HA)).
  pose proof (bounded_lo _ _ (valid_finite _ _ _ _ HB)).
  pose proof (units_pos (Zpos mA) eA ltac:(lia) ltac:(lia)).
  pose proof (units_pos (Zpos mB) eB ltac:(lia) ltac:(lia)).
  rewrite add_spec. unfold SF64add.
  destruct Ha as [[sa Ea]|(ma & ea & Ea & Hua)];
    destruct Hb as [[sb Eb]|(mb & eb & Eb & Hub)]; rewrite Ea, Eb.
  - left. destruct sa, sb; cbn; eauto.
  - right. exists mb, eb. split; [reflexivity|lia].
  - right. exists ma, ea. split; [reflexivity|lia].
  - pose proof (bounded_lo _ _ (valid_finite _ _ _ _ Ea)).
    pose proof (bounded_lo _ _ (valid_finite _ _ _ _ Eb)).
    cbn [SFadd cond_Zopp].
    rewrite !shl_align_spec by lia. cbn [fst].
    assert (0 < 2 ^ (ea - Z.min ea eb)) by (apply Z.pow_pos_nonneg; lia).
    assert (0 < 2 ^ (eb - Z.min ea eb)) by (apply Z.pow_pos_nonneg; lia).
    rewrite <- Pos2Z.inj_add. cbn [binary_normalize].
    apply binary_round_within; [lia|exact (valid_finite _ _ _ _ HC)|].
    rewrite Pos2Z.inj_add, !Z2Pos.id by lia.
    rewrite units_add, !units_shift by lia.
    replace (Z.min ea eb + (ea - Z.min ea eb)) with ea by lia.
    replace (Z.min ea eb + (eb - Z.min ea eb)) with eb by lia.
    lia.
Qed.

Lemma new_location_exact n r : new_location n r = loc_Exact <-> r = 0.
Proof.
  unfold new_location, new_location_even, new_location_odd.
  destruct (Z.even n); destruct (Z.eqb_spec r 0); intuition discriminate.
Qed.

Lemma SFdiv_core_binary_spec m1 e1 m2 e2 e' :
  e' = Z.min (fexp prec emax (Zpos (digits2_pos m1) + e1
                              - (Zpos (digits2_pos m2) + e2))) (e1 - e2) ->
  exists q r,
    SFdiv_core_binary prec emax (Zpos m1) e1 (Zpos m2) e2
    = (q, e', new_location (Zpos m2) r)
    /\ Zpos m1 * 2 ^ (e1 - e2 - e') = q * Zpos m2 + r
    /\ 0 <= r < Zpos m2 /\ 0 <= q.
Proof.
  intros He'. unfold SFdiv_core_binary. cbn [Zdigits2]. rewrite <- He'.
  assert (Hs : 0 <= e1 - e2 - e') by lia.
  set (m' := match e1 - e2 - e' with
             | 0 => Zpos m1
             | Zpos _ => Z.shiftl (Zpos m1) (e1 - e2 - e')
             | Zneg _ => 0
             end).
  assert (Em : m' = Zpos m1 * 2 ^ (e1 - e2 - e')).
  { subst m'. destruct (e1 - e2 - e') as [|p|p]; [cbn; lia| |lia].
    apply Z.shiftl_mul_pow2. lia. }
  clearbody m'.
  pose proof (Z_div_mod m' (Zpos m2) ltac:(lia)) as D.
  destruct (Z.div_eucl m' (Zpos m2)) as [q r].
  exists q, r. destruct D as [D1 D2].
  assert (0 < 2 ^ (e1 - e2 - e')) by (apply Z.pow_pos_nonneg; lia).
  repeat split; try lia; nia.
Qed.

(** [0 <= x / y <= 1] for [0 <= x <= y] and a finite [y]. *)
Lemma div_within x y my ey :
  Prim2SF y = S754_finite false my ey ->
  within x y -> within (x / y) 1.
Proof.
  intros Hy Hx.
  rewrite (within_spec _ _ _ _ Hy) in Hx.
  rewrite (within_spec _ _ _ _ Prim2SF_one).
  rewrite div_spec, Hy. unfold SF64div.
  pose proof (bounded_lo _ _ (valid_finite _ _ _ _ Hy)) as By.
  destruct Hx as [[s Ex]|(m & e & Ex & Hu)]; rewrite Ex.
  - left. cbn. eauto.
  - pose proof (bounded_lo _ _ (valid_finite _ _ _ _ Ex)) as Bx.
    cbn [SFdiv xorb].
    remember (Z.min (fexp prec emax (Zpos (digits2_pos m) + e
                                     - (Zpos (digits2_pos my) + ey))) (e - ey))
      as e' eqn:He'.
    destruct (SFdiv_core_binary_spec m e my ey e' He')
      as (q & r & -> & Hqr & Hr & Hq).
    rewrite fexp_eq in He'.
    pose proof (digits2_pos_bounds m) as [L1 U1].
    pose proof (digits2_pos_bounds my) as [L2 U2].
    remember (Zpos (digits2_pos m)) as d1 eqn:Ed1.
    remember (Zpos (digits2_pos my)) as d2 eqn:Ed2.
    assert (Hd1 : 1 <= d1) by lia. assert (Hd2 : 1 <= d2) by lia.
    clear Ed1 Ed2.
    remember (e - ey - e') as s eqn:Es.
    assert (Hs : 0 <= s) by lia.
    assert (0 < 2 ^ s) by (apply Z.pow_pos_nonneg; lia).
    (* the quotient has the digits the rounding needs *)
    assert (Hdig : (q = 0 -> d1 + s <= d2) /\ (0 < q -> d1 + s - d2 <= Zdigits2 q)).
    { split.
      - intros ->.
        destruct (Z_le_gt_dec (d1 + s) d2) as [|G]; [assumption|exfalso].
        assert (2 ^ d2 <= 2 ^ (d1 - 1 + s)) by (apply Z.pow_le_mono_r; lia).
        rewrite Z.pow_add_r in H0 by lia. nia.
      - intros Hq0. destruct q as [|q|q]; try lia. cbn [Zdigits2].
        destruct (Z_le_gt_dec (d1 + s - d2) 1) as [|G]; [lia|].
        assert (d1 + s - d2 - 1 < Zpos (digits2_pos q)); [|lia].
        apply digits2_pos_gt; [lia|].
        assert (E : 2 ^ (d1 - 1) * 2 ^ s = 2 ^ (d1 + s - d2 - 1) * 2 ^ d2).
        { rewrite <- !Z.pow_add_r by lia. f_equal. lia. }
        assert (0 < 2 ^ (d1 + s - d2 - 1)) by (apply Z.pow_pos_nonneg; lia).
        nia. }
    destruct Hdig as [Hdig0 Hdig1].
    assert (T : 0 < 2 ^ 2200) by (apply Z.pow_pos_nonneg; lia).
    (* the quotient is at most one *)
    assert (Hval : q * 2 ^ (e' + 2200) * (Zpos my * 2 ^ (ey + 2200))
                   + r * 2 ^ (e' + 2200) * 2 ^ (ey + 2200)
                   <= 2 ^ 2200 * (Zpos my * 2 ^ (ey + 2200))).
    { unfold units in Hu.
      assert (E : 2 ^ (e + 2200) * 2 ^ 2200
                  = 2 ^ s * 2 ^ (e' + 2200) * 2 ^ (ey + 2200)).
      { rewrite <- !Z.pow_add_r by lia. f_equal. lia. }
      assert (0 < 2 ^ (e' + 2200)) by (apply Z.pow_pos_nonneg; lia).
      assert (0 < 2 ^ (ey + 2200)) by (apply Z.pow_pos_nonneg; lia).
      assert (Zpos m * 2 ^ (e + 2200) * 2 ^ 2200
              <= Zpos my * 2 ^ (ey + 2200) * 2 ^ 2200) by nia.
      replace (Zpos m * 2 ^ (e + 2200) * 2 ^ 2200)
        with ((Zpos m * 2 ^ s) * 2 ^ (e' + 2200) * 2 ^ (ey + 2200)) in H2
        by (rewrite <- !Z.mul_assoc; f_equal; rewrite !Z.mul_assoc; lia).
      rewrite Hqr in H2. nia. }
    assert (P : 0 < 2 ^ (e' + 2200)) by (apply Z.pow_pos_nonneg; lia).
    assert (Q : 0 < Zpos my * 2 ^ (ey + 2200))
      by (apply Z.mul_pos_pos; [lia|apply Z.pow_pos_nonneg; lia]).
    assert (Q' : 0 < 2 ^ (ey + 2200)) by (apply Z.pow_pos_nonneg; lia).
    apply round_within.
    + exact Hq.
    + lia.
    + rewrite fexp_eq.
      destruct (Z.eq_dec q 0) as [->|Hq0].
      * cbn [Zdigits2]. specialize (Hdig0 eq_refl). lia.
      * specialize (Hdig1 ltac:(lia)). lia.
    + intros ->. specialize (Hdig0 eq_refl). lia.
    + reflexivity.
    + rewrite units_one. unfold units. rewrite Z.mul_1_l.
      change (0 + 2200) with 2200.
      apply (Z.mul_le_mono_pos_r _ _ (Zpos my * 2 ^ (ey + 2200))); [exact Q|].
      assert (0 <= r * 2 ^ (e' + 2200) * 2 ^ (ey + 2200)) by nia.
      lia.
    + intros Hl. rewrite new_location_exact in Hl.
      rewrite units_one. unfold units. rewrite Z.mul_1_l.
      change (0 + 2200) with 2200.
      apply (Z.mul_lt_mono_pos_r (Zpos my * 2 ^ (ey + 2200))); [exact Q|].
      assert (0 < r * 2 ^ (e' + 2200) * 2 ^ (ey + 2200)) by nia.
      lia.
Qed.

(** An int below [2^53] converts exactly. *)
Lemma binary_round_exact p :
  Zpos p < 2 ^ 53 ->
  exists m e, binary_round prec emax false p 0 = S754_finite false m e
              /\ units (Zpos m) e = units (Zpos p) 0.
Proof.
  intros Hp. unfold binary_round.
  pose proof (digits2_pos_le p 53 ltac:(lia) Hp) as Hd.
  destruct (binary_round_aligned p 0) as (mz & ez & -> & Hlo & Hal & Hun & _ & Hc).
  rewrite fexp_eq in Hc. specialize (Hc ltac:(lia)).
  exists mz, ez. split; [|apply Hun; lia].
  apply binary_round_aux_canonical.
  unfold bounded, canonical_mantissa. apply andb_true_intro. split.
  - apply Z.eqb_eq. symmetry. exact Hc.
  - apply Z.leb_le. change (emax - prec) with 971.
    rewrite fexp_eq in Hc.
    assert (Zpos (digits2_pos mz) + ez <= 53); [|lia].
    pose proof (units_digits_le mz ez p 0 ltac:(lia) ltac:(lia)
                  ltac:(rewrite Hun by lia; lia)).
    lia.
Qed.

Lemma float_of_int_exact n :
  0 <= n < 2 ^ 53 ->
  (n = 0 /\ Prim2SF (float_of_int n) = S754_zero false)
  \/ exists m e, Prim2SF (float_of_int n) = S754_finite false m e
                 /\ units (Zpos m) e = units n 0.
Proof.
  intros Hn. unfold float_of_int.
  destruct (Z.ltb_spec n 0) as [|_]; [lia|].
  rewrite of_uint63_spec, <- Uint63.is_int
    by (change (2 ^ Uint63Axioms.to_Z Uint63Axioms.digits) with (2 ^ 63);
        split; [lia|]; apply Z.lt_trans with (2 ^ 53); [lia|reflexivity]).
  destruct n as [|p|p]; [left; split; reflexivity| |lia].
  right. cbn [binary_normalize]. apply binary_round_exact. lia.
Qed.

(** [0 <= a / b <= 1] for ints [0 <= a <= b], [0 < b < 2^53]. *)
Lemma int_ratio_within a b :
  0 <= a <= b -> 0 < b < 2 ^ 53 ->
  within (PrimFloat.div (float_of_int a) (float_of_int b)) 1.
Proof.
  intros Ha Hb.
  destruct (float_of_int_exact b ltac:(lia)) as [[-> _]|(mb & eb & Eb & Ub)];
    [lia|].
  apply (div_within _ _ _ _ Eb).
  rewrite (within_spec _ _ _ _ Eb).
  destruct (float_of_int_exact a ltac:(lia)) as [[_ Ea]|(ma & ea & Ea & Ua)];
    rewrite Ea.
  - left. eauto.
  - right. exists ma, ea. split; [reflexivity|].
    rewrite Ua, Ub. apply units_le; lia.
Qed.

Lemma Prim2SF_07 : Prim2SF 0.7 = S754_finite false 6305039478318694 (-53).
Proof. reflexivity. Qed.

Lemma Prim2SF_03 : Prim2SF 0.3 = S754_finite false 5404319552844595 (-54).
Proof. reflexivity. Qed.

Lemma Prim2SF_100 : Prim2SF 100 = S754_finite false 7036874417766400 (-46).
Proof. reflexivity. Qed.

(** [similarity * 0.7 + (conf / 100) * 0.3] stays in [[0, 1]]. *)
Lemma text_confidence_within s conf :
  within s 1 -> within conf 100 ->
  within (PrimFloat.add (PrimFloat.mul s 0.7)
                        (PrimFloat.mul (PrimFloat.div conf 100) 0.3)) 1.
Proof.
  intros Hs Hc.
  apply (add_within _ _ 0.7 0.3 1 _ _ _ _ _ _
           Prim2SF_07 Prim2SF_03 Prim2SF_one).
  - vm_compute. discriminate.
  - now apply (mul_within _ _ _ _ Prim2SF_07).
  - apply (mul_within _ _ _ _ Prim2SF_03); [reflexivity|].
    now apply (div_within _ _ _ _ Prim2SF_100).
Qed.

(* ================================================================== *)
(** * Facts about the call-logging computations *)
(* ================================================================== *)

Lemma bind_Ok {A B} (c : W A) (k : A -> W B) b l :
  bind c k = (Ok b, l) ->
  exists a l1 l2, c = (Ok a, l1) /\ k a = (Ok b, l2) /\ l = l1 ++ l2.
Proof.
  unfold bind. destruct c as [[a|e] l1]; [|discriminate].
  destruct (k a) as [o l2] eqn:K. intros E. inversion E; subst.
  exists a, l1, l2. auto.
Qed.

Lemma bind_eq_Ok {A B} (c : W A) (k : A -> W B) a l1 :
  c = (Ok a, l1) -> bind c k = (fst (k a), l1 ++ snd (k a)).
Proof. intros ->. unfold bind. destruct (k a). reflexivity. Qed.

Lemma bind_eq_Raise {A B} (c : W A) (k : A -> W B) e l1 :
  c = (Raise e, l1) -> bind c k = (Raise e, l1).
Proof. intros ->. reflexivity. Qed.

Lemma try_except_Ok {A} (body : W A) (handler : exn -> W A) a l :
  body = (Ok a, l) -> try_except body handler = (Ok a, l).
Proof. intros ->. reflexivity. Qed.

(** A property of the loop state that every turn preserves holds when the
    loop ends. *)
Lemma for_each_invariant {A St} (P : St -> Prop) (body : A -> St -> W St) :
  (forall a st st' l, P st -> body a st = (Ok st', l) -> P st') ->
  forall xs st st' l, P st -> for_each xs body st = (Ok st', l) -> P st'.
Proof.
  intros Hbody. induction xs as [|a xs IH]; intros st st' l Hst E; cbn in E.
  - inversion E; subst. exact Hst.
  - apply bind_Ok in E. destruct E as (st1 & l1 & l2 & E1 & E2 & _).
    eapply IH; [|exact E2]. eapply Hbody; eauto.
Qed.

(** The same, when the turns need to know that the item is in the list. *)
Lemma for_each_invariant_in {A St} (P : St -> Prop) (body : A -> St -> W St)
  (xs : list A) :
  (forall a st st' l, In a xs -> P st -> body a st = (Ok st', l) -> P st') ->
  forall st st' l, P st -> for_each xs body st = (Ok st', l) -> P st'.
Proof.
  induction xs as [|a xs IH]; intros Hbody st st' l Hst E; cbn in E.
  - inversion E; subst. exact Hst.
  - apply bind_Ok in E. destruct E as (st1 & l1 & l2 & E1 & E2 & _).
    eapply IH; [|eapply Hbody; [now left|exact Hst|exact E1]|exact E2].
    intros; eapply Hbody; eauto. now right.
Qed.

(** Inversion of a computation that returned: split every [bind], read
    every external call, decide every test. *)
Ltac unfold_calls H :=
  unfold cvtColor, matchTemplate, minMaxLoc, resize, detectAndCompute,
    knnMatch, findHomography, perspectiveTransform, apply_transform,
    image_to_data, import_pytesseract in H.

Ltac inv_ok :=
  repeat match goal with
  | H : bind _ _ = (Ok _, _) |- _ =>
      apply bind_Ok in H; destruct H as (? & ? & ? & ? & H & ?)
  | H : call _ _ = (Ok _, _) |- _ => unfold call in H; inversion H; clear H
  | H : lift _ = (Ok _, _) |- _ => unfold lift in H; inversion H; clear H
  | H : ret _ = (Ok _, _) |- _ => unfold ret in H; inversion H; clear H
  | H : raise _ = (Ok _, _) |- _ => discriminate H
  | H : (match ?s with _ => _ end) = (Ok _, _) |- _ =>
      destruct s eqn:?; try discriminate H
  end.

(* ================================================================== *)
(** * Every matcher's result meets the threshold it was given *)
(* ================================================================== *)

Lemma meets_initial c : meets c (None, 0%float).
Proof. intros r E. discriminate. Qed.

Lemma meets_update c (st : best) r v :
  (PrimFloat.ltb (snd st) v && PrimFloat.leb c v)%bool = true ->
  confidence r = v -> meets c (Some r, v).
Proof.
  intros H Hv r' E. cbn in E. inversion E; subst.
  apply andb_prop in H. tauto.
Qed.

Lemma _match_template_body_meets ext gs gt c m st st' l :
  meets c st -> _match_template_body ext gs gt c m st = (Ok st', l) ->
  meets c st'.
Proof.
  unfold _match_template_body. intros Hst E. destruct st as [br bc].
  unfold_calls E. inv_ok; subst; auto;
    eapply (meets_update _ (br, bc)); eauto.
Qed.

Lemma _match_template_meets ext s t c r l :
  _match_template ext s t c = (Ok (Some r), l) ->
  PrimFloat.leb c (confidence r) = true.
Proof.
  unfold _match_template. intros E.
  apply bind_Ok in E. destruct E as (gs & ? & ? & _ & E & _).
  apply bind_Ok in E. destruct E as (gt & ? & ? & _ & E & _).
  apply bind_Ok in E. destruct E as (st & ? & ? & E & R & _).
  inversion R; subst.
  eapply (for_each_invariant (meets c)) in E.
  - apply E. congruence.
  - intros. eapply _match_template_body_meets; eauto.
  - apply meets_initial.
Qed.

Lemma _match_multi_scale_body_meets ext gs gt oh ow c scale st st' l :
  meets c st ->
  _match_multi_scale_body ext gs gt oh ow c scale st = (Ok st', l) ->
  meets c st'.
Proof.
  unfold _match_multi_scale_body. intros Hst E. destruct st as [br bc].
  unfold_calls E. inv_ok; subst; auto;
    eapply (meets_update _ (br, bc)); eauto.
Qed.

Lemma _match_multi_scale_meets ext s t c r l :
  _match_multi_scale ext s t c = (Ok (Some r), l) ->
  PrimFloat.leb c (confidence r) = true.
Proof.
  unfold _match_multi_scale. intros E.
  apply bind_Ok in E. destruct E as (gs & ? & ? & _ & E & _).
  apply bind_Ok in E. destruct E as (gt & ? & ? & _ & E & _).
  apply bind_Ok in E. destruct E as ([oh ow] & ? & ? & _ & E & _).
  apply bind_Ok in E. destruct E as (st & ? & ? & E & R & _).
  inversion R; subst.
  eapply (for_each_invariant (meets c)) in E.
  - apply E. congruence.
  - intros. eapply _match_multi_scale_body_meets; eauto.
  - apply meets_initial.
Qed.

Lemma try_except_inv {A} (body : W A) (handler : exn -> W A) a l :
  try_except body handler = (Ok a, l) ->
  body = (Ok a, l) \/
  exists e l1 l2, body = (Raise e, l1) /\ handler e = (Ok a, l2) /\ l = l1 ++ l2.
Proof.
  unfold try_except. destruct body as [[a'|e] l1]; intros E.
  - left. exact E.
  - right. destruct (handler e) as [o l2] eqn:Hh. inversion E; subst.
    exists e, l1, l2. auto.
Qed.

Lemma _match_with_preprocessing_body_meets ext gs gt c pm st st' l :
  meets c st ->
  _match_with_preprocessing_body ext gs gt c pm st = (Ok st', l) ->
  meets c st'.
Proof.
  unfold _match_with_preprocessing_body. intros Hst E.
  apply try_except_inv in E. destruct E as [E | (e & l1 & l2 & _ & E & _)].
  - unfold _match_with_preprocessing_try in E.
    destruct pm as [method_name preprocess], st as [br bc].
    unfold_calls E. inv_ok; subst; auto;
      eapply (meets_update _ (br, bc)); eauto.
  - inversion E; subst. exact Hst.
Qed.

Lemma _match_with_preprocessing_meets ext s t c r l :
  _match_with_preprocessing ext s t c = (Ok (Some r), l) ->
  PrimFloat.leb c (confidence r) = true.
Proof.
  unfold _match_with_preprocessing. intros E.
  apply bind_Ok in E. destruct E as (gs & ? & ? & _ & E & _).
  apply bind_Ok in E. destruct E as (gt & ? & ? & _ & E & _).
  apply bind_Ok in E. destruct E as (st & ? & ? & E & R & _).
  inversion R; subst.
  eapply (for_each_invariant (meets c)) in E.
  - apply E. congruence.
  - intros. eapply _match_with_preprocessing_body_meets; eauto.
  - apply meets_initial.
Qed.

Lemma _match_features_meets ext s t c r l :
  _match_features ext s t c = (Ok (Some r), l) ->
  PrimFloat.leb c (confidence r) = true.
Proof.
  unfold _match_features. intros E.
  apply try_except_inv in E. destruct E as [E | (e & l1 & l2 & _ & E & _)];
    [|discriminate E].
  unfold _match_features_try in E. unfold_calls E.
  inv_ok; subst; try discriminate.
  cbn. assumption.
Qed.

(* ================================================================== *)
(** * C1: the fallback cascade *)
(* ================================================================== *)

Lemma bind_congr {A B} (c : W A) (k1 k2 : A -> W B) :
  (forall a l, c = (Ok a, l) -> k1 a = k2 a) -> bind c k1 = bind c k2.
Proof.
  intros H. unfold bind. destruct c as [[a|e] l]; [|reflexivity].
  rewrite (H a l eq_refl). reflexivity.
Qed.

Lemma first_non_none_log (stages : list (W (option MatchResult))) :
  snd (first_non_none stages) = flat_map snd (stages_run stages).
Proof.
  induction stages as [|[[[r|]|e] l] later IH]; cbn;
    rewrite ?app_nil_r; try reflexivity.
  destruct (first_non_none later) as [o l'] eqn:E. cbn in *.
  now rewrite IH.
Qed.

Lemma first_non_none_None (stages : list (W (option MatchResult))) :
  fst (first_non_none stages) = Ok None <->
  Forall (fun stage => fst stage = Ok None) stages.
Proof.
  induction stages as [|[[[r|]|e] l] later IH]; cbn.
  - split; auto.
  - split; [discriminate|]. intros H. inversion H; subst. discriminate.
  - destruct (first_non_none later) as [o l'] eqn:E. cbn in *.
    rewrite IH. split; intros H.
    + constructor; auto.
    + inversion H; subst. assumption.
  - split; [discriminate|]. intros H. inversion H; subst. discriminate.
Qed.

Lemma first_non_none_first (before after : list (W (option MatchResult)))
  stage r :
  Forall (fun st => fst st = Ok None) before ->
  fst stage = Ok (Some r) ->
  first_non_none (before ++ stage :: after) =
  (Ok (Some r), flat_map snd before ++ snd stage).
Proof.
  intros Hb Hs. induction Hb as [|[o l] before Ho Hb IH]; cbn.
  - destruct stage as [o l]. cbn in Hs. subst o. cbn. now rewrite app_nil_r.
  - cbn in Ho. subst o. cbn. rewrite IH. now rewrite app_assoc.
Qed.

Lemma cascade_refines_spec ext s t c :
  find_template_with_fallbacks ext s t c = cascade_spec ext s t c.
Proof.
  unfold find_template_with_fallbacks, cascade_spec, cascade_stages.
  cbn [first_non_none].
  apply bind_congr. intros [r|] l E; cbn [accepted].
  { now rewrite (_match_multi_scale_meets _ _ _ _ _ _ E). }
  apply bind_congr. intros [r|] l2 E2; cbn [accepted].
  { now rewrite (_match_features_meets _ _ _ _ _ _ E2). }
  apply bind_congr. intros [r|] l3 E3; cbn [accepted].
  { now rewrite (_match_template_meets _ _ _ _ _ _ E3). }
  apply bind_congr. intros [r|] l4 E4; cbn [accepted].
  { now rewrite (_match_with_preprocessing_meets _ _ _ _ _ _ E4). }
  unfold low_confidence.
  destruct (_match_template ext s t 0.5) as [[[r|]|e] l5]; cbn;
    now rewrite ?app_nil_r.
Qed.

(** C1.  [find_template_with_fallbacks] is the cascade of the specification:
    Multi-Scale at [c], Feature at [c * 0.9], Correlation at [c * 0.8],
    Preprocessing at [c * 0.7], last-resort Correlation at [0.5] with its
    method tag marked [_low_confidence], in this order.  It equals
    "first stage that returns a result" over these five stages, outcome and
    call log alike; the calls it makes are those of the stages up to the
    first that does not return none and of no later stage; a stage that
    returns a result after stages that returned none gives the answer; and
    the call returns none exactly when all five stages return none. *)
Theorem cascade_order_and_thresholds :
  forall (ext : externals) (screenshot template : ndarray) (c : float),
    let stages :=
      [ _match_multi_scale ext screenshot template c;
        _match_features ext screenshot template (PrimFloat.mul c 0.9);
        _match_template ext screenshot template (PrimFloat.mul c 0.8);
        _match_with_preprocessing ext screenshot template (PrimFloat.mul c 0.7);
        low_confidence (_match_template ext screenshot template 0.5) ] in
    let answer := find_template_with_fallbacks ext screenshot template c in
    answer = first_non_none stages
    /\ snd answer = flat_map snd (stages_run stages)
    /\ (forall before stage after r,
          stages = before ++ stage :: after ->
          Forall (fun st => fst st = Ok None) before ->
          fst stage = Ok (Some r) ->
          answer = (Ok (Some r), flat_map snd before ++ snd stage))
    /\ (forall r,
          fst (_match_template ext screenshot template 0.5) = Ok (Some r) ->
          fst (low_confidence (_match_template ext screenshot template 0.5)) =
          Ok (Some (method_append r "_low_confidence"))
          /\ method (method_append r "_low_confidence") =
             (method r ++ "_low_confidence")%string)
    /\ (fst answer = Ok None <->
        Forall (fun stage => fst stage = Ok None) stages).
Proof.
  intros ext s t c stages answer.
  assert (E : answer = first_non_none stages)
    by (subst answer stages; apply cascade_refines_spec).
  split; [exact E|]. rewrite E.
  split; [apply first_non_none_log|].
  split; [intros before stage after r -> Hb Hs; now apply first_non_none_first|].
  split; [|apply first_non_none_None].
  intros r Hr. split; [|reflexivity].
  unfold low_confidence.
  destruct (_match_template ext s t 0.5) as [[o|e] l]; cbn in *; [|discriminate].
  inversion Hr; subst. reflexivity.
Qed.

(* ================================================================== *)
(** * C2: the correlation matcher and a template larger than the frame *)
(* ================================================================== *)

Lemma for_each_first_log {A St} (body : A -> St -> W St) a xs st c :
  (exists l1, snd (body a st) = c :: l1) ->
  In c (snd (for_each (a :: xs) body st)).
Proof.
  cbn. unfold bind. destruct (body a st) as [[st'|e] l]; cbn; intros [l1 ->].
  - destruct (for_each xs body st'). cbn. now left.
  - now left.
Qed.

Lemma bind_log_in {A B} (c : W A) (k : A -> W B) a l call :
  c = (Ok a, l) -> In call (snd (k a)) -> In call (snd (bind c k)).
Proof.
  intros -> H. unfold bind. destruct (k a) as [o l']. cbn in *.
  apply in_or_app. now right.
Qed.

(** C2.  [_match_template] has no guard on the dimensions: once the two
    images are grayscale it calls [cv2.matchTemplate] on them, whatever
    their shapes.  On a 100x100 frame and a 120x50 template, taller than the
    frame, the correlation is attempted and the error of OpenCV is raised to
    the caller; the matcher does not return none. *)
Theorem match_template_always_correlates :
  (forall (ext : externals) (screenshot template : ndarray) (c : float),
      match fst (to_gray ext screenshot), fst (to_gray ext template) with
      | Ok gray_screenshot, Ok gray_template =>
          In (call_matchTemplate gray_screenshot gray_template TM_CCOEFF_NORMED)
             (snd (_match_template ext screenshot template c))
      | _, _ => True
      end)
  /\ _match_template (sim dull) (blank [100; 100]) (blank [120; 50]) 0.8 =
     (Raise cv2_error,
      [call_matchTemplate (blank [100; 100]) (blank [120; 50]) TM_CCOEFF_NORMED]).
Proof.
  split; [|reflexivity].
  intros ext s t c.
  destruct (to_gray ext s) as [[gs|e1] l1] eqn:Es; cbn [fst]; [|exact I].
  destruct (to_gray ext t) as [[gt|e2] l2] eqn:Et; cbn [fst]; [|exact I].
  unfold _match_template.
  eapply bind_log_in; [exact Es|].
  eapply bind_log_in; [exact Et|].
  unfold methods.
  match goal with
  | |- In _ (snd (bind ?m _)) =>
      assert (H : In (call_matchTemplate gs gt TM_CCOEFF_NORMED) (snd m))
  end.
  { eapply for_each_first_log. unfold _match_template_body, matchTemplate, call, bind.
    destruct (ext_matchTemplate ext gs gt TM_CCOEFF_NORMED);
      [|eexists; reflexivity].
    match goal with |- exists _, snd (let '(o, l') := ?k in _) = _ => destruct k end.
    eexists; reflexivity. }
  unfold bind at 1.
  match goal with
  | H : In _ (snd ?m) |- _ => destruct m as [[st|e] l]; cbn in *; auto
  end.
  apply in_or_app. now left.
Qed.

(* ================================================================== *)
(** * C3: where exceptions are caught *)
(* ================================================================== *)

Lemma try_except_never_raises {A} (body : W A) (a : A) e :
  fst (try_except body (fun _ => ret a)) <> Raise e.
Proof. unfold try_except. destruct body as [[a'|e'] l]; cbn; discriminate. Qed.

Lemma try_except_absorbs {A} (body : W A) (a : A) e :
  fst body = Raise e -> fst (try_except body (fun _ => ret a)) = Ok a.
Proof.
  unfold try_except. destruct body as [[a'|e'] l]; cbn; [discriminate|reflexivity].
Qed.

Lemma first_non_none_raise (before after : list (W (option MatchResult)))
  stage e :
  Forall (fun st => fst st = Ok None) before ->
  fst stage = Raise e ->
  first_non_none (before ++ stage :: after) =
  (Raise e, flat_map snd before ++ snd stage).
Proof.
  intros Hb Hs. induction Hb as [|[o l] before Ho Hb IH]; cbn.
  - destruct stage as [o l]. cbn in Hs. subst o. cbn. reflexivity.
  - cbn in Ho. subst o. cbn. rewrite IH. now rewrite app_assoc.
Qed.

(** The cascade does not catch: on a 100x100 frame and a 120x50 template the
    first two stages return none, the Correlation stage raises, and the
    caller of [find_template_with_fallbacks] gets the exception; the
    Preprocessing and last-resort stages are never run. *)
Lemma cascade_lets_exception_escape :
  let screenshot := blank [100; 100; 3] in
  let template := blank [120; 50; 3] in
  fst (_match_multi_scale (sim dull) screenshot template 0.8) = Ok None
  /\ fst (_match_features (sim dull) screenshot template (0.8 * 0.9)) = Ok None
  /\ fst (_match_template (sim dull) screenshot template (0.8 * 0.8)) =
     Raise cv2_error
  /\ fst (find_template_with_fallbacks (sim dull) screenshot template 0.8) =
     Raise cv2_error
  /\ map call_name
       (snd (find_template_with_fallbacks (sim dull) screenshot template 0.8)) =
     ["cvtColor"; "cvtColor"; "resize"; "matchTemplate"; "minMaxLoc";
      "resize"; "matchTemplate"; "minMaxLoc"; "resize"; "matchTemplate";
      "minMaxLoc"; "resize"; "matchTemplate"; "minMaxLoc"; "cvtColor";
      "cvtColor"; "detectAndCompute"; "detectAndCompute"; "cvtColor";
      "cvtColor"; "matchTemplate"].
Proof.
  cbv zeta. repeat split; vm_compute; reflexivity.
Qed.

(** An exception inside the Feature Matcher: SIFT finds keypoints, the
    estimated homography is refused by [perspectiveTransform], and the
    matcher returns none. *)
Example feature_exception_absorbed :
  fst (_match_features_try (sim bad_homography) (blank [100; 100]) (blank [20; 20]) 0.5)
  = Raise cv2_error
  /\ fst (_match_features (sim bad_homography) (blank [100; 100]) (blank [20; 20]) 0.5)
     = Ok None.
Proof. split; vm_compute; reflexivity. Qed.

(** C3, as the code has it.  Exceptions are caught inside two matchers, not
    by the cascade.  The Feature Matcher never raises: an exception in its
    body makes it return none, and the cascade then goes on with the
    Correlation stage.  Each turn of the Preprocessing Matcher's loop never
    raises: an exception while one transform is applied or matched leaves
    the best-so-far as it was and the next transform is tried.  An exception
    raised by a stage itself, after stages that returned none, is raised by
    [find_template_with_fallbacks]. *)
Theorem exceptions_caught_inside_matchers :
  forall (ext : externals) (screenshot template : ndarray) (c : float),
    (forall e, fst (_match_features ext screenshot template c) <> Raise e)
    /\ (forall e,
          fst (_match_features_try ext screenshot template c) = Raise e ->
          fst (_match_features ext screenshot template c) = Ok None)
    /\ (forall e,
          fst (_match_multi_scale ext screenshot template c) = Ok None ->
          fst (_match_features_try ext screenshot template (PrimFloat.mul c 0.9))
          = Raise e ->
          fst (find_template_with_fallbacks ext screenshot template c) =
          fst (first_non_none
                 [ _match_template ext screenshot template (PrimFloat.mul c 0.8);
                   _match_with_preprocessing ext screenshot template
                     (PrimFloat.mul c 0.7);
                   low_confidence (_match_template ext screenshot template 0.5) ]))
    /\ (forall gray_screenshot gray_template pm st e,
          fst (_match_with_preprocessing_body ext gray_screenshot gray_template
                 c pm st) <> Raise e)
    /\ (forall gray_screenshot gray_template pm st e,
          fst (_match_with_preprocessing_try ext gray_screenshot gray_template
                 c pm st) = Raise e ->
          fst (_match_with_preprocessing_body ext gray_screenshot gray_template
                 c pm st) = Ok st)
    /\ (forall before stage after e,
          cascade_stages ext screenshot template c = before ++ stage :: after ->
          Forall (fun st => fst st = Ok None) before ->
          fst stage = Raise e ->
          fst (find_template_with_fallbacks ext screenshot template c) = Raise e).
Proof.
  intros ext s t c.
  split; [intros e; apply try_except_never_raises|].
  split; [intros e; apply try_except_absorbs|].
  split.
  { intros e Hms Hf. rewrite cascade_refines_spec.
    unfold cascade_spec, cascade_stages. cbn [first_non_none].
    assert (Hfeat : fst (_match_features ext s t (PrimFloat.mul c 0.9)) = Ok None)
      by (eapply try_except_absorbs; exact Hf).
    destruct (_match_multi_scale ext s t c) as [o1 l1]. cbn in Hms. subst o1.
    destruct (_match_features ext s t (PrimFloat.mul c 0.9)) as [o2 l2].
    cbn in Hfeat. subst o2.
    unfold bind at 1 2.
    match goal with
    | |- fst (let '(o, l') := (let '(o', l'') := ?m in _) in _) = fst ?m' =>
        change m' with m; destruct m as [o3 l3]
    end.
    reflexivity. }
  split; [intros gs gt pm st e; apply try_except_never_raises|].
  split; [intros gs gt pm st e; apply try_except_absorbs|].
  intros before stage after e Hst Hb Hs.
  rewrite cascade_refines_spec. unfold cascade_spec. rewrite Hst.
  now rewrite (first_non_none_raise _ _ _ _ Hb Hs).
Qed.

(* ================================================================== *)
(** * C5: the descriptor-count guard of the Feature Matcher *)
(* ================================================================== *)

Lemma to_gray_log ext img :
  snd (to_gray ext img) = [] \/ snd (to_gray ext img) = [call_cvtColor img].
Proof.
  unfold to_gray. destruct (len (shape img) =? 3); [right|left]; reflexivity.
Qed.

(** The guard looks at the number of descriptors of the template only: a
    frame with 3 descriptors passes it, [knnMatch] is called, and here the
    matcher even returns a result. *)
Lemma feature_guard_ignores_frame_count :
  let screenshot := blank [100; 100] in
  let template := blank [20; 20] in
  (exists kp2 des2,
      ext_detectAndCompute (sim sparse_frame) screenshot = Ok (kp2, Some des2)
      /\ len des2 = 3)
  /\ In "knnMatch"
       (map call_name
          (snd (_match_features (sim sparse_frame) screenshot template 0.8)))
  /\ fst (_match_features (sim sparse_frame) screenshot template 0.8) =
     Ok (Some {| x := 30; y := 40; width := 20; height := 20;
                 confidence := 1;
                 center_x := 40; center_y := 50;
                 method := "feature" |}).
Proof.
  cbv zeta. split; [|split].
  - do 2 eexists. split; vm_compute; reflexivity.
  - vm_compute. auto 10.
  - vm_compute. reflexivity.
Qed.

(** C5, as the code has it.  When, on the grayscale images, the template
    yields no descriptors or fewer than 10, or the frame yields none at all,
    the Feature Matcher returns none and descriptor matching ([knnMatch]) is
    never called. *)
Theorem feature_guard :
  forall (ext : externals) (screenshot template : ndarray) (c : float)
         gray_screenshot gray_template kp1 des1 kp2 des2,
    fst (to_gray ext screenshot) = Ok gray_screenshot ->
    fst (to_gray ext template) = Ok gray_template ->
    ext_detectAndCompute ext gray_template = Ok (kp1, des1) ->
    ext_detectAndCompute ext gray_screenshot = Ok (kp2, des2) ->
    (des1 = None \/ des2 = None \/ exists d, des1 = Some d /\ len d < 10) ->
    fst (_match_features ext screenshot template c) = Ok None
    /\ ~ In "knnMatch"
         (map call_name (snd (_match_features ext screenshot template c))).
Proof.
  intros ext s t c gs gt kp1 des1 kp2 des2 Hs Ht H1 H2 Hguard.
  unfold _match_features, _match_features_try, try_except.
  pose proof (to_gray_log ext s) as Ls. pose proof (to_gray_log ext t) as Lt.
  destruct (to_gray ext s) as [os ls]; destruct (to_gray ext t) as [ot lt].
  cbn in Hs, Ht, Ls, Lt. subst os ot.
  unfold detectAndCompute, call, bind. rewrite H1, H2.
  assert (Hlog : ~ In "knnMatch"
                   (map call_name
                      (ls ++ lt ++ [call_detectAndCompute gt] ++
                       [call_detectAndCompute gs] ++ []))).
  { rewrite !map_app, !in_app_iff. cbn.
    destruct Ls as [-> | ->], Lt as [-> | ->]; cbn;
      intuition discriminate. }
  destruct des1 as [d1|], des2 as [d2|]; cbn; auto.
  destruct (len d1 <? 10) eqn:E; cbn; auto.
  exfalso. apply Z.ltb_ge in E.
  destruct Hguard as [H | [H | (d & H & Hd)]]; try discriminate.
  inversion H; subst. lia.
Qed.

(** The guard at work on a featureless scene. *)
Lemma feature_guard_witness :
  fst (_match_features (sim dull) (blank [100; 100]) (blank [20; 20]) 0.8) = Ok None
  /\ ~ In "knnMatch"
       (map call_name
          (snd (_match_features (sim dull) (blank [100; 100]) (blank [20; 20]) 0.8))).
Proof.
  apply (feature_guard (sim dull) (blank [100; 100]) (blank [20; 20]) 0.8
           (blank [100; 100]) (blank [20; 20]) [] None [] None);
    try reflexivity.
  left. reflexivity.
Defined.

(* ================================================================== *)
(** * C4: the geometry and confidence of returned results *)
(* ================================================================== *)

(** The Feature Matcher returns the truncated bounding box of the projected
    corners as it is: here it starts at (-5, -3), outside a 100x100 frame. *)
Lemma feature_box_leaves_frame :
  let r := {| x := -5; y := -3; width := 20; height := 10; confidence := 1;
              center_x := 5; center_y := 2; method := "feature" |} in
  fst (_match_features (sim off_frame) (blank [100; 100]) (blank [10; 20]) 0.8)
  = Ok (Some r)
  /\ ~ result_invariant 100 100 r.
Proof.
  cbv zeta. split; [vm_compute; reflexivity|].
  unfold result_invariant. cbn. lia.
Qed.

Lemma in_frame_initial FH FW c : in_frame FH FW c (None, 0%float).
Proof. split; [intros r E; discriminate|reflexivity]. Qed.

Lemma in_frame_update FH FW c (st : best) r :
  in_frame FH FW c st ->
  (PrimFloat.ltb (snd st) (confidence r)
   && PrimFloat.leb c (confidence r))%bool = true ->
  PrimFloat.leb (confidence r) 1 = true ->
  in_map (FH - height r + 1) (FW - width r + 1) (x r, y r) ->
  0 < height r -> 0 < width r ->
  in_frame FH FW c (Some r, confidence r).
Proof.
  intros [_ Hbc] Hv H1 [Hx Hy] Hh Hw. cbn in Hx, Hy.
  apply andb_prop in Hv. destruct Hv as [Hlt Hc].
  assert (Hpos : PrimFloat.ltb 0 (confidence r) = true)
    by (eapply leb_ltb_trans; eauto).
  split; [|cbn; now apply ltb_leb].
  intros r' E. cbn in E. inversion E; subst r'.
  unfold result_invariant.
  repeat split; auto; try lia. now apply ltb_leb.
Qed.

Lemma in_map_eta rows cols (p : Z * Z) :
  in_map rows cols p -> in_map rows cols (fst p, snd p).
Proof. destruct p. auto. Qed.

Lemma to_gray_shape ext img FH FW g l :
  cv2_contract ext -> dims img = Some (FH, FW) ->
  to_gray ext img = (Ok g, l) -> shape g = [FH; FW].
Proof.
  intros (Hcvt & _) Hd. unfold to_gray, dims in *.
  destruct (shape img) as [|h [|w [|ch [|? ?]]]] eqn:Es; try discriminate;
    inversion Hd; subst; cbn; intros E.
  - inversion E; subst. exact Es.
  - unfold cvtColor, call in E. inversion E.
    match goal with H : ext_cvtColor _ _ = Ok _ |- _ => apply Hcvt in H; rewrite H end.
    now rewrite Es.
Qed.

Lemma _match_template_body_in_frame ext gs gt c m st st' l FH FW h w :
  cv2_contract ext -> shape gs = [FH; FW] -> shape gt = [h; w] ->
  0 < h <= FH -> 0 < w <= FW ->
  in_frame FH FW c st ->
  _match_template_body ext gs gt c m st = (Ok st', l) ->
  in_frame FH FW c st'.
Proof.
  intros (_ & _ & _ & Hmt) Hgs Hgt Hh Hw Hst E.
  unfold _match_template_body in E. destruct st as [br bc].
  unfold_calls E. inv_ok; subst; auto.
  all: match goal with
       | H1 : ext_matchTemplate _ _ _ _ = Ok _, H2 : ext_minMaxLoc _ _ = Ok _ |- _ =>
           destruct (Hmt _ _ _ _ _ _ _ _ _ _ _ _ H1 H2 Hgs Hgt ltac:(lia) ltac:(lia))
             as (Hmin & Hmax & Hs1 & Hs2)
       end.
  rewrite Hgt in *. cbn in *.
  match goal with H : Ok _ = Ok _ |- _ => inversion H; subst end.
  destruct (tm_method_eqb m TM_SQDIFF_NORMED);
    match goal with H : (_, _) = (_, _) |- _ => inversion H; subst end;
    match goal with
    | |- in_frame _ _ _ (Some ?r, _) =>
        apply (in_frame_update FH FW c (br, bc) r); cbn; auto using in_map_eta; lia
    end.
Qed.


Lemma for_each_in_frame {A} FH FW c (body : A -> best -> W best) xs st l :
  (forall a st st' l, in_frame FH FW c st -> body a st = (Ok st', l) ->
                      in_frame FH FW c st') ->
  for_each xs body (None, 0%float) = (Ok st, l) ->
  forall r, fst st = Some r ->
            result_invariant FH FW r
            /\ PrimFloat.leb c (confidence r) = true
            /\ PrimFloat.ltb 0 (confidence r) = true.
Proof.
  intros Hbody E.
  eapply (for_each_invariant (in_frame FH FW c)) in E; eauto.
  - apply E.
  - apply in_frame_initial.
Qed.

Lemma _match_multi_scale_body_in_frame ext gs gt oh ow c scale st st' l FH FW :
  cv2_contract ext -> shape gs = [FH; FW] ->
  in_frame FH FW c st ->
  _match_multi_scale_body ext gs gt oh ow c scale st = (Ok st', l) ->
  in_frame FH FW c st'.
Proof.
  intros (_ & Hrs & _ & Hmt) Hgs Hst E.
  unfold _match_multi_scale_body in E. destruct st as [br bc].
  unfold_calls E. rewrite Hgs in E. inv_ok; subst; auto.
  match goal with
  | H : (_ || _)%bool = false |- _ =>
      apply orb_false_elim in H; destruct H as [Hsh Hsw];
      apply Z.ltb_ge in Hsh, Hsw
  end.
  repeat match goal with
  | H : (_ >? _) = false |- _ => rewrite Z.gtb_ltb in H; apply Z.ltb_ge in H
  end.
  match goal with
  | H1 : ext_matchTemplate _ _ _ _ = Ok _, H2 : ext_minMaxLoc _ _ = Ok _,
    H3 : ext_resize _ _ _ = Ok _ |- _ =>
      apply Hrs in H3; cbn in H3;
      destruct (Hmt _ _ _ _ _ _ _ _ _ _ _ _ H1 H2 Hgs H3 ltac:(lia) ltac:(lia))
        as (Hmin & Hmax & Hs1 & Hs2)
  end.
  match goal with
  | |- in_frame ?a ?b _ (Some ?r, _) =>
      apply (in_frame_update a b c (br, bc) r); cbn; auto using in_map_eta; lia
  end.
Qed.

Lemma preprocess_func_shape ext p img r l :
  cv2_contract ext -> preprocess_func ext p img = (Ok r, l) ->
  shape r = shape img.
Proof.
  intros (_ & _ & Htr & _). unfold preprocess_func.
  destruct p as [t|]; intros E.
  - unfold apply_transform, call in E. inversion E. eapply Htr; eauto.
  - inversion E; subst. reflexivity.
Qed.

Lemma _match_with_preprocessing_body_in_frame ext gs gt c pm st st' l FH FW h w :
  cv2_contract ext -> shape gs = [FH; FW] -> shape gt = [h; w] ->
  0 < h <= FH -> 0 < w <= FW ->
  in_frame FH FW c st ->
  _match_with_preprocessing_body ext gs gt c pm st = (Ok st', l) ->
  in_frame FH FW c st'.
Proof.
  intros Hc Hgs Hgt Hh Hw Hst E.
  unfold _match_with_preprocessing_body in E.
  apply try_except_inv in E. destruct E as [E | (e & l1 & l2 & _ & E & _)];
    [|inversion E; subst; exact Hst].
  unfold _match_with_preprocessing_try in E.
  destruct pm as [method_name preprocess], st as [br bc].
  apply bind_Ok in E. destruct E as (ps & ? & ? & Hps & E & _).
  apply bind_Ok in E. destruct E as (ptl & ? & ? & Hpt & E & _).
  apply (preprocess_func_shape _ _ _ _ _ Hc) in Hps, Hpt.
  rewrite Hgs in Hps. rewrite Hgt in Hpt.
  destruct Hc as (_ & _ & _ & Hmt).
  unfold_calls E. inv_ok; subst; auto.
  match goal with
  | H1 : ext_matchTemplate _ _ _ _ = Ok _, H2 : ext_minMaxLoc _ _ = Ok _ |- _ =>
      destruct (Hmt _ _ _ _ _ _ _ _ _ _ _ _ H1 H2 Hps Hpt ltac:(lia) ltac:(lia))
        as (Hmin & Hmax & Hs1 & Hs2)
  end.
  rewrite Hpt in *. cbn in *.
  match goal with H : Ok _ = Ok _ |- _ => inversion H; subst end.
  match goal with
  | |- in_frame ?a ?b _ (Some ?r, _) =>
      apply (in_frame_update a b c (br, bc) r); cbn; auto using in_map_eta; lia
  end.
Qed.

Lemma _match_multi_scale_in_frame ext s t c r FH FW :
  cv2_contract ext -> dims s = Some (FH, FW) ->
  fst (_match_multi_scale ext s t c) = Ok (Some r) ->
  result_invariant FH FW r
  /\ PrimFloat.leb c (confidence r) = true
  /\ PrimFloat.ltb 0 (confidence r) = true.
Proof.
  intros Hc Hd E.
  destruct (_match_multi_scale ext s t c) as [o l] eqn:Em. cbn in E. subst o.
  unfold _match_multi_scale in Em.
  apply bind_Ok in Em. destruct Em as (gs & ? & ? & Hgs & Em & _).
  apply bind_Ok in Em. destruct Em as (gt & ? & ? & _ & Em & _).
  apply bind_Ok in Em. destruct Em as ([oh ow] & ? & ? & _ & Em & _).
  apply bind_Ok in Em. destruct Em as (st & ? & ? & Em & R & _).
  inversion R; subst.
  apply (to_gray_shape _ _ _ _ _ _ Hc Hd) in Hgs.
  eapply for_each_in_frame; [|exact Em|congruence].
  intros. eapply _match_multi_scale_body_in_frame; eauto.
Qed.

Lemma _match_template_in_frame ext s t c r FH FW h w :
  cv2_contract ext -> dims s = Some (FH, FW) -> dims t = Some (h, w) ->
  0 < h <= FH -> 0 < w <= FW ->
  fst (_match_template ext s t c) = Ok (Some r) ->
  result_invariant FH FW r
  /\ PrimFloat.leb c (confidence r) = true
  /\ PrimFloat.ltb 0 (confidence r) = true.
Proof.
  intros Hc Hd Hdt Hh Hw E.
  destruct (_match_template ext s t c) as [o l] eqn:Em. cbn in E. subst o.
  unfold _match_template in Em.
  apply bind_Ok in Em. destruct Em as (gs & ? & ? & Hgs & Em & _).
  apply bind_Ok in Em. destruct Em as (gt & ? & ? & Hgt & Em & _).
  apply bind_Ok in Em. destruct Em as (st & ? & ? & Em & R & _).
  inversion R; subst.
  apply (to_gray_shape _ _ _ _ _ _ Hc Hd) in Hgs.
  apply (to_gray_shape _ _ _ _ _ _ Hc Hdt) in Hgt.
  eapply for_each_in_frame; [|exact Em|congruence].
  intros. eapply _match_template_body_in_frame; eauto.
Qed.

Lemma _match_with_preprocessing_in_frame ext s t c r FH FW h w :
  cv2_contract ext -> dims s = Some (FH, FW) -> dims t = Some (h, w) ->
  0 < h <= FH -> 0 < w <= FW ->
  fst (_match_with_preprocessing ext s t c) = Ok (Some r) ->
  result_invariant FH FW r
  /\ PrimFloat.leb c (confidence r) = true
  /\ PrimFloat.ltb 0 (confidence r) = true.
Proof.
  intros Hc Hd Hdt Hh Hw E.
  destruct (_match_with_preprocessing ext s t c) as [o l] eqn:Em.
  cbn in E. subst o.
  unfold _match_with_preprocessing in Em.
  apply bind_Ok in Em. destruct Em as (gs & ? & ? & Hgs & Em & _).
  apply bind_Ok in Em. destruct Em as (gt & ? & ? & Hgt & Em & _).
  apply bind_Ok in Em. destruct Em as (st & ? & ? & Em & R & _).
  inversion R; subst.
  apply (to_gray_shape _ _ _ _ _ _ Hc Hd) in Hgs.
  apply (to_gray_shape _ _ _ _ _ _ Hc Hdt) in Hgt.
  eapply for_each_in_frame; [|exact Em|congruence].
  intros. eapply _match_with_preprocessing_body_in_frame; eauto.
Qed.

Lemma fold_add_bounds mk a :
  Forall (fun b => b = 0 \/ b = 1) mk ->
  a <= fold_left Z.add mk a <= a + len mk.
Proof.
  unfold len. revert a. induction mk as [|b mk IH]; intros a H; cbn [fold_left].
  - cbn. lia.
  - inversion H as [|? ? Hb Hmk]; subst. specialize (IH (a + b) Hmk).
    cbn [List.length]. lia.
Qed.

Lemma inlier_ratio_within mask :
  (forall mk, mask = Some mk ->
              Forall (fun b => b = 0 \/ b = 1) mk /\ 0 < len mk < 2 ^ 53) ->
  within (inlier_ratio_of mask) 1.
Proof.
  intros H. destruct mask as [mk|]; cbn [inlier_ratio_of].
  - destruct (H mk eq_refl) as [H01 Hlen].
    pose proof (fold_add_bounds mk 0 H01).
    apply int_ratio_within; unfold np_sum; lia.
  - split; reflexivity.
Qed.

Lemma _match_features_confidence ext s t c r :
  mask_contract ext ->
  fst (_match_features ext s t c) = Ok (Some r) ->
  within (confidence r) 1 /\ PrimFloat.leb c (confidence r) = true.
Proof.
  intros Hm E. destruct (_match_features ext s t c) as [o l] eqn:Ef.
  cbn in E. subst o.
  split; [|eapply _match_features_meets; eauto].
  unfold _match_features in Ef.
  apply try_except_inv in Ef. destruct Ef as [E | (e & l1 & l2 & _ & E & _)];
    [|discriminate E].
  unfold _match_features_try in E. unfold_calls E.
  inv_ok; subst; try discriminate.
  cbn [confidence]. apply inlier_ratio_within. intros mk ->.
  match goal with
  | H : ext_findHomography _ _ _ = Ok _ |- _ => exact (Hm _ _ _ _ H)
  end.
Qed.

Lemma text_similarity_within ext tl tc :
  (forall a b, within (ext_ratio ext a b) 1) ->
  within (text_similarity ext tl tc) 1.
Proof.
  intros Hr. unfold text_similarity.
  destruct (contains tl tc); [split; reflexivity|].
  destruct (contains tc tl); [split; reflexivity|apply Hr].
Qed.

Lemma token_kept_initial FH FW tokens v : token_kept FH FW tokens (None, v).
Proof. intros bm E. discriminate. Qed.

Lemma find_text_body_kept ext FH FW tokens tl c fz it st st' l :
  (forall a b, within (ext_ratio ext a b) 1) ->
  (forall i tx, In (i, tx) (enumerate (ocr_text tokens)) ->
                is_empty tx || is_empty (strip tx) = false ->
                token_in_frame FH FW tokens i) ->
  In it (enumerate (ocr_text tokens)) ->
  token_kept FH FW tokens st ->
  find_text_body ext tokens tl c fz it st = (Ok st', l) ->
  token_kept FH FW tokens st'.
Proof.
  intros Hr Ht Hin Hst E. destruct it as [i tx]. destruct st as [bm bs].
  unfold find_text_body in E.
  destruct (is_empty tx || is_empty (strip tx)) eqn:Eb.
  { unfold ret in E. injection E as <- _. exact Hst. }
  apply bind_Ok in E. destruct E as (conf & l1 & l2 & Ec & E & _).
  unfold lift in Ec. injection Ec as Ec _.
  destruct (PrimFloat.ltb (PrimFloat.div conf 100) c).
  { unfold ret in E. injection E as <- _. exact Hst. }
  destruct (PrimFloat.leb fz (text_similarity ext tl (py_lower (strip tx)))
            && PrimFloat.ltb bs (text_similarity ext tl (py_lower (strip tx)))).
  - unfold ret in E. injection E as <- _.
    intros bm' Ebm. cbn in Ebm. injection Ebm as <-. cbn.
    split; [now apply text_similarity_within|].
    split; [exists conf; split; [exact Ec|reflexivity]|].
    now apply (Ht i tx).
  - unfold ret in E. injection E as <- _. exact Hst.
Qed.

Lemma find_text_in_invariant ext FH FW tokens t c fz r l :
  (forall a b, within (ext_ratio ext a b) 1) ->
  (forall i tx, In (i, tx) (enumerate (ocr_text tokens)) ->
                is_empty tx || is_empty (strip tx) = false ->
                token_in_frame FH FW tokens i) ->
  find_text_in ext tokens t c fz = (Ok (Some r), l) ->
  result_invariant FH FW r.
Proof.
  intros Hr Ht E. unfold find_text_in in E.
  apply bind_Ok in E. destruct E as (st & l1 & l2 & Efor & E & _).
  assert (Hst : token_kept FH FW tokens st).
  { eapply for_each_invariant_in; [|apply token_kept_initial|exact Efor].
    intros a st0 st1 l0 Hin H0 Eb. eapply find_text_body_kept; eauto. }
  destruct (fst st) as [bm|] eqn:Ebm; [|discriminate E].
  destruct (Hst bm Ebm) as (Hs & (conf & Hc & Ho) & (Hconf & Hbox)).
  apply bind_Ok in E. destruct E as (x0 & ? & ? & Ex & E & _).
  apply bind_Ok in E. destruct E as (y0 & ? & ? & Ey & E & _).
  apply bind_Ok in E. destruct E as (w0 & ? & ? & Ew & E & _).
  apply bind_Ok in E. destruct E as (h0 & ? & ? & Eh & E & _).
  unfold lift in Ex, Ey, Ew, Eh.
  injection Ex as Ex _. injection Ey as Ey _.
  injection Ew as Ew _. injection Eh as Eh _.
  unfold ret in E. injection E as <- _.
  destruct (Hbox _ _ _ _ Ex Ey Ew Eh) as (? & ? & ? & ? & ? & ?).
  pose proof (text_confidence_within _ _ Hs (Hconf _ Hc)) as [C0 C1].
  unfold result_invariant. cbn. rewrite Ho.
  repeat match goal with |- _ /\ _ => split end; auto.
Qed.

Lemma find_text_invariant ext s target c fz r FH FW :
  cv2_contract ext -> dims s = Some (FH, FW) -> ocr_contract ext FH FW ->
  fst (find_text ext s target c fz) = Ok (Some r) ->
  result_invariant FH FW r.
Proof.
  intros Hcv Hd [Hr Ht] E.
  destruct (find_text ext s target c fz) as [o l] eqn:Ef. cbn in E. subst o.
  unfold find_text in Ef.
  apply try_except_inv in Ef.
  destruct Ef as [E | (e & l1 & l2 & _ & E & _)]; [|discriminate E].
  apply bind_Ok in E. destruct E as (py & ? & ? & Epy & E & _).
  apply bind_Ok in E. destruct E as (gray & ? & ? & Eg & E & _).
  apply bind_Ok in E. destruct E as (thresh & ? & ? & Eth & E & _).
  apply bind_Ok in E. destruct E as (tokens & ? & ? & Etok & E & _).
  unfold import_pytesseract in Epy.
  destruct (ext_pytesseract ext) as [py'|] eqn:Ep; [|discriminate Epy].
  unfold ret in Epy. injection Epy as -> _.
  apply (to_gray_shape _ _ _ _ _ _ Hcv Hd) in Eg.
  unfold apply_transform, call in Eth. injection Eth as Eth _.
  destruct Hcv as (_ & _ & Htr & _). apply Htr in Eth.
  unfold image_to_data, call in Etok. injection Etok as Etok _.
  eapply find_text_in_invariant; [exact Hr| |exact E].
  intros i tx Hin Hne. apply (Ht py thresh tokens i tx); auto.
  unfold dims. rewrite Eth, Eg. reflexivity.
Qed.

(** C4, as the code has it.  On a frame of [frame_h] rows and [frame_w]
    columns, when OpenCV honours its contract:
    - every result of the Multi-Scale Matcher, and every result of the
      Correlation and Preprocessing Matchers on a non-empty template that
      fits the frame, has [width > 0], [height > 0], its box inside the
      frame and its confidence in [(0, 1]] and at least the threshold;
    - every result of the Text Resolver has [width > 0], [height > 0], its
      box inside the frame and its confidence in [[0, 1]], when the OCR
      engine reports its tokens inside the image with a confidence between
      0 and 100 and difflib a ratio in [[0, 1]];
    - every result of the Feature Matcher has its confidence in [[0, 1]]
      and at least the threshold, when the inlier mask is one of zeros and
      ones.
    (The box of a Feature Matcher result is the truncated bounding box of
    the projected corners, unclamped.) *)
Theorem results_meet_invariant :
  forall (ext : externals) (screenshot : ndarray) (frame_h frame_w : Z),
    cv2_contract ext ->
    dims screenshot = Some (frame_h, frame_w) ->
    (forall (template : ndarray) (c : float) (r : MatchResult),
        (fst (_match_multi_scale ext screenshot template c) = Ok (Some r)
         \/ exists h w,
              dims template = Some (h, w)
              /\ 0 < h <= frame_h /\ 0 < w <= frame_w
              /\ (fst (_match_template ext screenshot template c) = Ok (Some r)
                  \/ fst (_match_with_preprocessing ext screenshot template c)
                     = Ok (Some r))) ->
        result_invariant frame_h frame_w r
        /\ PrimFloat.leb c (confidence r) = true
        /\ PrimFloat.ltb 0 (confidence r) = true)
    /\ (forall (target_text : string) (c fuzzy_threshold : float)
               (r : MatchResult),
          ocr_contract ext frame_h frame_w ->
          fst (find_text ext screenshot target_text c fuzzy_threshold)
          = Ok (Some r) ->
          result_invariant frame_h frame_w r)
    /\ (forall (template : ndarray) (c : float) (r : MatchResult),
          mask_contract ext ->
          fst (_match_features ext screenshot template c) = Ok (Some r) ->
          within (confidence r) 1
          /\ PrimFloat.leb c (confidence r) = true).
Proof.
  intros ext s FH FW Hc Hd. split; [|split].
  - intros t c r [E | (h & w & Hdt & Hh & Hw & [E | E])].
    + eapply _match_multi_scale_in_frame; eauto.
    + eapply _match_template_in_frame; eauto.
    + eapply _match_with_preprocessing_in_frame; eauto.
  - intros target c fz r Ho E. eapply find_text_invariant; eauto.
  - intros t c r Hm E. eapply _match_features_confidence; eauto.
Qed.

(** The stand-in honours the contract when its scores are normalised. *)
Lemma ltb_irrefl v : PrimFloat.ltb v v = false.
Proof.
  destruct (PrimFloat.ltb v v) eqn:E; auto.
  pose proof (ltb_leb _ _ E) as L. apply ltb_not_leb in E. congruence.
Qed.

Lemma sim_minMaxLoc_constant v n rows cols :
  sim_minMaxLoc {| shape := [rows; cols]; data := repeat v (S n) |} =
  Ok (v, v, (0 mod cols, 0 / cols), (0 mod cols, 0 / cols)).
Proof.
  unfold sim_minMaxLoc. cbn [shape data repeat].
  assert (F : forall k i,
             fold_left
               (fun (acc : float * Z * float * Z * Z) (u : float) =>
                  let '(mn, mni, mx, mxi, i) := acc in
                  (if PrimFloat.ltb u mn then u else mn,
                   if PrimFloat.ltb u mn then i else mni,
                   if PrimFloat.ltb mx u then u else mx,
                   if PrimFloat.ltb mx u then i else mxi,
                   i + 1))
               (repeat v k) (v, 0, v, 0, i) = (v, 0, v, 0, i + Z.of_nat k)).
  { induction k as [|k IH]; intros i; cbn [repeat fold_left].
    - f_equal. lia.
    - rewrite ltb_irrefl, IH. f_equal. lia. }
  rewrite F. reflexivity.
Qed.

Lemma sim_contract k :
  (forall shp m, PrimFloat.leb (k_score k shp m) 1 = true
                 /\ PrimFloat.leb (PrimFloat.sub 1 (k_score k shp m)) 1 = true) ->
  cv2_contract (sim k).
Proof.
  intros Hk. split; [|split; [|split]].
  - intros img g E. inversion E. reflexivity.
  - intros img dsize r E. inversion E. reflexivity.
  - intros t img r E. inversion E. reflexivity.
  - intros img templ m res mn mx p q H W h w Emt Emm Hi Ht Hh Hw.
    cbn in Emt, Emm. unfold sim_matchTemplate in Emt.
    rewrite Hi, Ht in Emt.
    replace ((h <=? H) && (w <=? W))%bool with true in Emt
      by (symmetry; apply andb_true_intro; split; apply Z.leb_le; lia).
    inversion Emt; subst res; clear Emt.
    destruct (Z.to_nat ((H - h + 1) * (W - w + 1))) as [|n] eqn:En;
      [discriminate Emm|].
    rewrite sim_minMaxLoc_constant in Emm. inversion Emm; subst.
    rewrite Z.mod_0_l, Z.div_0_l by lia.
    unfold in_map. cbn. destruct (Hk [h; w] m). repeat split; auto; lia.
Qed.

Lemma graded_contract : cv2_contract (sim graded).
Proof.
  apply sim_contract. intros shp m. cbn.
  destruct shp as [|h [|w [|? ?]]]; try (split; reflexivity).
  destruct (h <? 15); [split; reflexivity|].
  destruct (h <? 25); split; reflexivity.
Qed.

Lemma dull_scores_contract k :
  k_score k = k_score dull -> cv2_contract (sim k).
Proof.
  intros E. apply sim_contract. intros shp m. rewrite E. cbn.
  destruct (tm_method_eqb m TM_SQDIFF_NORMED); split; reflexivity.
Qed.

Lemma login_ocr_contract : ocr_contract (sim login_screen) 600 800.
Proof.
  split.
  - intros a b. split; reflexivity.
  - intros py img tokens i tx Epy _ Etok Hin _.
    cbn in Epy. injection Epy as <-. injection Etok as <-.
    cbn in Hin. destruct Hin as [Hin|[]]. injection Hin as <- <-.
    split.
    + intros conf E. cbn in E. injection E as <-. split; reflexivity.
    + intros l t w h El Et Ew Eh. cbn in El, Et, Ew, Eh.
      injection El as <-. injection Et as <-.
      injection Ew as <-. injection Eh as <-. lia.
Qed.

Lemma sim_mask_contract k : mask_contract (sim k).
Proof.
  intros src dst H mk E. cbn in E. unfold sim_findHomography in E.
  destruct (len src <? 4) eqn:E4; [discriminate E|].
  destruct (2 ^ 53 <=? len src) eqn:E53; [discriminate E|].
  cbn [orb] in E. injection E as _ <-.
  apply Z.ltb_ge in E4. apply Z.leb_gt in E53.
  split.
  - apply Forall_forall. intros b Hb. apply in_map_iff in Hb.
    destruct Hb as (? & <- & _). now right.
  - unfold len in *. rewrite length_map. lia.
Qed.

(** The theorem at work: the Multi-Scale Matcher on a 30x30 frame and a
    20x20 template; the Text Resolver on the token "Login" in an 800x600
    frame; and the Feature Matcher in the scene of [off_frame], where the
    box leaves the frame and the confidence is 1. *)
Lemma results_meet_invariant_witness :
  let r := {| x := 0; y := 0; width := 16; height := 16; confidence := 0.6;
              center_x := 8; center_y := 8; method := "multi_scale_0.8x" |} in
  let t := {| x := 300; y := 200; width := 40; height := 20;
              confidence := (1.0 * 0.7 + 0.9 * 0.3)%float;
              center_x := 320; center_y := 210;
              method := "ocr_fuzzy(1.00)" |} in
  let f := {| x := -5; y := -3; width := 20; height := 10; confidence := 1;
              center_x := 5; center_y := 2; method := "feature" |} in
  (result_invariant 30 30 r
   /\ PrimFloat.leb 0.5 (confidence r) = true
   /\ PrimFloat.ltb 0 (confidence r) = true)
  /\ result_invariant 600 800 t
  /\ (within (confidence f) 1 /\ PrimFloat.leb 0.8 (confidence f) = true).
Proof.
  cbv zeta. split; [|split].
  - destruct (results_meet_invariant (sim graded) (blank [30; 30; 3]) 30 30
                graded_contract eq_refl) as (H & _ & _).
    apply (H (blank [20; 20; 3]) 0.5%float). left. vm_compute. reflexivity.
  - destruct (results_meet_invariant (sim login_screen) (blank [600; 800; 3])
                600 800 (dull_scores_contract login_screen eq_refl) eq_refl)
      as (_ & H & _).
    apply (H "login" 0.8%float 0.6%float); [exact login_ocr_contract|].
    vm_compute. reflexivity.
  - destruct (results_meet_invariant (sim off_frame) (blank [100; 100])
                100 100 (dull_scores_contract off_frame eq_refl) eq_refl)
      as (_ & _ & H).
    apply (H (blank [10; 20]) 0.8%float); [exact (sim_mask_contract off_frame)|].
    vm_compute. reflexivity.
Defined.

(** A template larger than the frame in both dimensions: OpenCV swaps the
    two images, and the Correlation Matcher reports a box of the template's
    size, which the frame cannot hold. *)
Example oversize_template_leaves_frame :
  let r := {| x := 0; y := 0; width := 40; height := 40;
              confidence := 0.6%float; center_x := 20; center_y := 20;
              method := "template" |} in
  fst (_match_template (sim graded) (blank [30; 30]) (blank [40; 40]) 0.3)
  = Ok (Some r)
  /\ ~ result_invariant 30 30 r.
Proof.
  cbv zeta. split; [vm_compute; reflexivity|].
  unfold result_invariant. cbn. lia.
Qed.

(* ================================================================== *)
(** * C6: the Multi-Scale Matcher keeps the best qualifying scale *)
(* ================================================================== *)

Lemma bind_ret_l {A B} (a : A) (k : A -> W B) : bind (ret a) k = k a.
Proof. unfold bind, ret. destruct (k a). reflexivity. Qed.

Lemma bind_ret_r {A} (c : W A) : bind c ret = c.
Proof.
  unfold bind, ret. destruct c as [[a|e] l]; [|reflexivity].
  now rewrite app_nil_r.
Qed.

Lemma bind_assoc {A B C} (c : W A) (k : A -> W B) (h : B -> W C) :
  bind (bind c k) h = bind c (fun a => bind (k a) h).
Proof.
  unfold bind. destruct c as [[a|e] l]; [|reflexivity].
  destruct (k a) as [[b|e] l1]; [|reflexivity].
  destruct (h b) as [o l2]. now rewrite app_assoc.
Qed.

Lemma bind_ext {A B} (c : W A) (k1 k2 : A -> W B) :
  (forall a, k1 a = k2 a) -> bind c k1 = bind c k2.
Proof. intros H. apply bind_congr. intros a _ _. apply H. Qed.

Lemma bind_lift_Ok {A B} (a : A) (k : A -> W B) : bind (lift (Ok a)) k = k a.
Proof. apply bind_ret_l. Qed.

Lemma bind_lift_Raise {A B} e (k : A -> W B) :
  bind (lift (Raise e)) k = lift (Raise e).
Proof. reflexivity. Qed.

(** One turn of the loop is: propose, then keep the better. *)
Lemma _match_multi_scale_body_attempt ext gs gt oh ow c scale st :
  _match_multi_scale_body ext gs gt oh ow c scale st =
  bind (scale_attempt ext gs gt oh ow scale)
       (fun a => ret (match a with
                      | Some r => keep_best c st r
                      | None => st
                      end)).
Proof.
  unfold _match_multi_scale_body, scale_attempt. destruct st as [br bc].
  repeat (rewrite bind_assoc; apply bind_ext; intro).
  match goal with |- context [if ?b then _ else _] => destruct b end;
    [now rewrite bind_ret_l|].
  rewrite bind_assoc; apply bind_ext; intro cols.
  match goal with |- context [if ?b then _ else _] => destruct b end;
    [now rewrite bind_ret_l|].
  match goal with |- context [if ?b then _ else _] => destruct b end;
    [now rewrite bind_ret_l|].
  repeat (rewrite bind_assoc; apply bind_ext; intro).
  match goal with p : (float * float * (Z * Z) * (Z * Z))%type |- _ =>
    destruct p as [[[min_val max_val] min_loc] max_loc] end.
  rewrite bind_ret_l. unfold keep_best. cbn [fst snd confidence].
  destruct (PrimFloat.ltb bc max_val && PrimFloat.leb c max_val)%bool;
    reflexivity.
Qed.

Lemma for_each_attempts ext gs gt oh ow c scales st :
  for_each scales (_match_multi_scale_body ext gs gt oh ow c) st =
  bind (attempts_over ext gs gt oh ow scales)
       (fun rs => ret (fold_left (keep_best c) rs st)).
Proof.
  revert st. induction scales as [|scale later IH]; intros st;
    cbn [for_each attempts_over].
  - now rewrite bind_ret_l.
  - rewrite _match_multi_scale_body_attempt, !bind_assoc.
    apply bind_ext. intros a. rewrite bind_ret_l, IH, bind_assoc.
    apply bind_ext. intros rest. rewrite bind_ret_l.
    destruct a; reflexivity.
Qed.

(** The matcher is: collect what the tried scales propose, then fold the
    keep-the-better test over it, starting from no result and confidence 0. *)
Lemma _match_multi_scale_attempts ext s t c :
  _match_multi_scale ext s t c =
  bind (multi_scale_attempts ext s t)
       (fun rs => ret (fst (fold_left (keep_best c) rs (None, 0%float)))).
Proof.
  unfold _match_multi_scale, multi_scale_attempts.
  rewrite bind_assoc. apply bind_ext. intros gs.
  rewrite bind_assoc. apply bind_ext. intros gt.
  rewrite bind_assoc. apply bind_ext. intros [oh ow].
  rewrite for_each_attempts, bind_assoc.
  apply bind_ext. intros rs. now rewrite bind_ret_l.
Qed.

Lemma kept_step c seen st r :
  kept c seen st -> kept c (seen ++ [r]) (keep_best c st r).
Proof.
  intros (H0 & Hsome & Hmax & Hnone). unfold keep_best.
  destruct (PrimFloat.ltb (snd st) (confidence r)) eqn:Elt;
    [destruct (PrimFloat.leb c (confidence r)) eqn:Ec|]; cbn [andb].
  - (* the proposal replaces the best *)
    assert (Hpos : PrimFloat.ltb 0 (confidence r) = true)
      by (eapply leb_ltb_trans; eauto).
    repeat apply conj; cbn [fst snd].
    + now apply ltb_leb.
    + intros r0 E. inversion E; subst r0. rewrite in_app_iff. cbn. auto.
    + intros q Hin Hq. apply in_app_iff in Hin. destruct Hin as [Hin|[<-|[]]].
      * eapply leb_trans; [apply Hmax; auto|now apply ltb_leb].
      * eapply leb_refl_r; eauto.
    + discriminate.
  - (* greater but below the threshold *)
    repeat apply conj; auto.
    + intros r0 E. destruct (Hsome r0 E) as (? & ? & ? & ?).
      rewrite in_app_iff. auto.
    + intros q Hin Hq. apply in_app_iff in Hin. destruct Hin as [Hin|[<-|[]]];
        [auto|congruence].
  - (* not greater *)
    repeat apply conj; auto.
    + intros r0 E. destruct (Hsome r0 E) as (? & ? & ? & ?).
      rewrite in_app_iff. auto.
    + intros q Hin Hq. apply in_app_iff in Hin. destruct Hin as [Hin|[<-|[]]];
        [auto|].
      apply not_ltb_leb; auto; eapply leb_refl_r; eauto.
Qed.

Lemma kept_fold c rs seen st :
  kept c seen st -> kept c (seen ++ rs) (fold_left (keep_best c) rs st).
Proof.
  revert seen st. induction rs as [|r rs IH]; intros seen st H; cbn.
  - now rewrite app_nil_r.
  - replace (seen ++ r :: rs) with ((seen ++ [r]) ++ rs)
      by (now rewrite <- app_assoc).
    apply IH. now apply kept_step.
Qed.

Lemma kept_all c rs :
  kept c rs (fold_left (keep_best c) rs (None, 0%float)).
Proof.
  apply (kept_fold c rs []).
  repeat apply conj; cbn; auto; try discriminate; intros ? [].
Qed.

(** With threshold 0 on a scene without correlation, every tried scale
    proposes a result of confidence 0, which is at least the threshold, and
    the matcher returns none: the best-so-far starts at confidence 0 and
    only a strictly greater score replaces it. *)
Lemma multi_scale_drops_zero_scores :
  let screenshot := blank [30; 30] in
  let template := blank [20; 20] in
  (exists rs,
      fst (multi_scale_attempts (sim flat) screenshot template) = Ok rs
      /\ rs <> []
      /\ Forall (fun r => PrimFloat.leb 0 (confidence r) = true) rs)
  /\ fst (_match_multi_scale (sim flat) screenshot template 0) = Ok None.
Proof.
  cbv zeta. split; [|vm_compute; reflexivity].
  eexists. split; [vm_compute; reflexivity|].
  split; [discriminate|].
  repeat constructor.
Qed.

(** C6, as the code has it.  When the calls of the tried scales all return,
    proposing the results [rs] in ladder order, the Multi-Scale Matcher
    returns, with the same calls.  A returned result is one of [rs], its
    confidence is at least [c] and positive, and no proposal whose
    confidence is at least [c] has a greater confidence.  The matcher
    returns none exactly when no proposal has a confidence that is both at
    least [c] and positive.  A proposal whose confidence is below [c] leaves
    the best-so-far as it was. *)
Theorem multi_scale_keeps_best :
  forall (ext : externals) (screenshot template : ndarray) (c : float)
         (rs : list MatchResult),
    fst (multi_scale_attempts ext screenshot template) = Ok rs ->
    exists res,
      _match_multi_scale ext screenshot template c =
      (Ok res, snd (multi_scale_attempts ext screenshot template))
      /\ (forall r, res = Some r ->
            In r rs
            /\ PrimFloat.leb c (confidence r) = true
            /\ PrimFloat.ltb 0 (confidence r) = true
            /\ forall q, In q rs -> PrimFloat.leb c (confidence q) = true ->
                         PrimFloat.leb (confidence q) (confidence r) = true)
      /\ (res = None <->
          forall q, In q rs -> PrimFloat.leb c (confidence q) = true ->
                    PrimFloat.ltb 0 (confidence q) = false)
      /\ (forall gray_screenshot gray_template original_h original_w scale st q,
            fst (scale_attempt ext gray_screenshot gray_template
                   original_h original_w scale) = Ok (Some q) ->
            PrimFloat.leb c (confidence q) = false ->
            fst (_match_multi_scale_body ext gray_screenshot gray_template
                   original_h original_w c scale st) = Ok st).
Proof.
  intros ext s t c rs Hrs.
  exists (fst (fold_left (keep_best c) rs (None, 0%float))).
  pose proof (kept_all c rs) as (H0 & Hsome & Hmax & Hnone).
  destruct (fold_left (keep_best c) rs (None, 0%float)) as [br bc] eqn:Ef.
  cbn [fst snd] in *.
  split; [|split; [|split]].
  - rewrite _match_multi_scale_attempts.
    destruct (multi_scale_attempts ext s t) as [o l]. cbn in Hrs. subst o.
    unfold bind, ret. rewrite Ef. cbn. now rewrite app_nil_r.
  - intros r ->. destruct (Hsome r eq_refl) as (Hin & Hc & Hq & Hpos).
    rewrite Hc. repeat split; auto.
  - split.
    + intros -> q Hin Hq. rewrite Hnone in Hmax by reflexivity.
      apply leb_not_ltb. auto.
    + intros Hall. destruct br as [r|]; [|reflexivity].
      destruct (Hsome r eq_refl) as (Hin & Hc & Hq & Hpos).
      rewrite <- Hc in Hq, Hpos. rewrite (Hall r Hin Hq) in Hpos. discriminate.
  - intros gs gt oh ow scale st q Ha Hq.
    rewrite _match_multi_scale_body_attempt.
    destruct (scale_attempt ext gs gt oh ow scale) as [o l]. cbn in Ha. subst o.
    unfold bind, ret, keep_best. cbn. rewrite Hq, andb_false_r. reflexivity.
Qed.

(** The theorem at work: a 30x30 frame and a 20x20 template, whose windows
    score 0.2 at the small sizes, 0.6 at the middle sizes and 0.4 at the
    large ones; with threshold 0.5 the first scale that scores 0.6 wins. *)
Lemma multi_scale_keeps_best_witness :
  exists rs res,
    fst (multi_scale_attempts (sim graded) (blank [30; 30]) (blank [20; 20])) = Ok rs
    /\ List.length rs = 11%nat
    /\ fst (_match_multi_scale (sim graded) (blank [30; 30]) (blank [20; 20]) 0.5)
       = Ok res
    /\ option_map method res = Some "multi_scale_0.8x"
    /\ (forall q, In q rs -> PrimFloat.leb 0.5 (confidence q) = true ->
                  exists r, res = Some r
                            /\ PrimFloat.leb (confidence q) (confidence r) = true).
Proof.
  eexists. 
  destruct (multi_scale_keeps_best (sim graded) (blank [30; 30]) (blank [20; 20])
              0.5 _ ltac:(vm_compute; reflexivity))
    as (res & Hrun & Hsome & Hnone & Hstep).
  exists res. split; [vm_compute; reflexivity|].
  split; [reflexivity|].
  rewrite Hrun. split; [reflexivity|].
  assert (Er : exists r, res = Some r /\ method r = "multi_scale_0.8x").
  { vm_compute in Hrun. inversion Hrun. eexists. split; reflexivity. }
  destruct Er as (r & -> & Hm). split; [cbn; now rewrite Hm|].
  intros q Hin Hq. exists r. split; [reflexivity|].
  destruct (Hsome r eq_refl) as (_ & _ & _ & Hbest). auto.
Defined.

(* ================================================================== *)
(** * C7: the Text Resolver on the token "Login" and the target "log" *)
(* ================================================================== *)

(** The target ["log"] is a substring of the token ["login"], which is the
    first case of the similarity: 1.0, not 0.95.  The confidence of the
    result is [1.0 * 0.7 + 0.9 * 0.3], which is not
    [0.7 * 0.95 + 0.3 * 0.9]. *)
Lemma login_similarity_is_not_095 :
  text_similarity (sim login_screen) (strip (py_lower "log"))
    (py_lower (strip "Login")) = 1.0%float
  /\ (exists r,
         fst (find_text (sim login_screen) (blank [600; 800; 3]) "log" 0.8 0.6)
         = Ok (Some r)
         /\ confidence r = (1.0 * 0.7 + 0.9 * 0.3)%float
         /\ PrimFloat.eqb (confidence r) (0.7 * 0.95 + 0.3 * 0.9)%float = false
         /\ method r = "ocr_fuzzy(1.00)").
Proof.
  split; [vm_compute; reflexivity|].
  eexists. split; [vm_compute; reflexivity|].
  repeat split; vm_compute; reflexivity.
Qed.

(** C7, as the code has it.  For the single token ["Login"] read with OCR
    confidence 0.9 (90 percent) in any box, and the target ["log"], when
    the token passes the OCR-confidence filter and the fuzzy threshold is at
    most 1, the similarity is the substring case 1.0 and the result is the
    token's box with confidence [1.0 * 0.7 + 0.9 * 0.3]. *)
Theorem login_target_log :
  forall (ext : externals) (left top w h : Z) (ocr_threshold fuzzy_threshold : float),
    PrimFloat.ltb (PrimFloat.div 90 100) ocr_threshold = false ->
    PrimFloat.leb fuzzy_threshold 1 = true ->
    let tokens := {| ocr_text := ["Login"]; ocr_conf := [90%float];
                     ocr_left := [left]; ocr_top := [top];
                     ocr_width := [w]; ocr_height := [h] |} in
    text_similarity ext (strip (py_lower "log")) (py_lower (strip "Login"))
    = 1.0%float
    /\ find_text_in ext tokens "log" ocr_threshold fuzzy_threshold =
       (Ok (Some {| x := left; y := top; width := w; height := h;
                    confidence := (1.0 * 0.7 + 0.9 * 0.3)%float;
                    center_x := left + w / 2; center_y := top + h / 2;
                    method := "ocr_fuzzy(1.00)" |}),
        []).
Proof.
  intros ext left top w h oc fz Hocr Hfz. cbv zeta.
  assert (Esim : text_similarity ext (strip (py_lower "log"))
                   (py_lower (strip "Login")) = 1.0%float)
    by (vm_compute; reflexivity).
  split; [exact Esim|].
  unfold find_text_in.
  cbn [enumerate enumerate_from ocr_text for_each].
  rewrite bind_ret_r.
  unfold find_text_body.
  change (is_empty "Login" || is_empty (strip "Login"))%bool with false.
  cbv iota.
  change (py_index (ocr_conf _) 0) with (@Ok float 90%float).
  rewrite bind_lift_Ok, Hocr, Esim, Hfz.
  change (PrimFloat.ltb 0.0 1.0) with true. cbn [andb].
  rewrite bind_ret_l. cbn [fst index ocr_left ocr_top ocr_width ocr_height].
  change (py_index [left] 0) with (Ok left).
  change (py_index [top] 0) with (Ok top).
  change (py_index [w] 0) with (Ok w).
  change (py_index [h] 0) with (Ok h).
  rewrite !bind_lift_Ok. cbn [similarity ocr_confidence].
  vm_compute. reflexivity.
Qed.

(** The theorem at work with the usual thresholds 0.8 and 0.6. *)
Lemma login_target_log_witness :
  find_text_in (sim login_screen) login_token "log" 0.8 0.6 =
  (Ok (Some {| x := 300; y := 200; width := 40; height := 20;
               confidence := (1.0 * 0.7 + 0.9 * 0.3)%float;
               center_x := 300 + 40 / 2; center_y := 200 + 20 / 2;
               method := "ocr_fuzzy(1.00)" |}),
   []).
Proof.
  apply (login_target_log (sim login_screen) 300 200 40 20 0.8 0.6);
    vm_compute; reflexivity.
Defined.

(* ================================================================== *)
(** * C10: text resolution ignores case and surrounding whitespace *)
(* ================================================================== *)




























(** The two variants on the token "Login": the target ["log"], and
    ["  LoG "] with swapped case and padding, resolve alike. *)
Example find_text_variant_example :
  (only_space "  " ++ recase [true; false; true] "log" ++ only_space " x")%string
  = "  LoG "
  /\ find_text (sim login_screen) (blank [600; 800; 3]) "  LoG " 0.8 0.6
     = find_text (sim login_screen) (blank [600; 800; 3]) "log" 0.8 0.6.
Proof. split; vm_compute; reflexivity. Qed.

(* ================================================================== *)
(** * Facts about dictionaries *)
(* ================================================================== *)

Lemma keys_dict_remove {V} (d : dict V) k :
  keys (dict_remove d k) = keys_remove (keys d) k.
Proof.
  unfold keys. induction d as [|[k' v] d IH]; cbn; [reflexivity|].
  destruct (String.eqb k' k); cbn; [reflexivity|]. now rewrite IH.
Qed.

Lemma keys_dict_setitem {V} (d : dict V) k v :
  keys (dict_setitem d k v) = keys_set (keys d) k.
Proof.
  unfold keys. induction d as [|[k' v'] d IH]; cbn; [reflexivity|].
  destruct (String.eqb k' k); cbn; [reflexivity|]. now rewrite IH.
Qed.

Lemma dict_contains_keys {V} (d : dict V) k :
  dict_contains d k = true <-> In k (keys d).
Proof.
  unfold dict_contains. induction d as [|[k' v] d IH]; cbn.
  - split; [discriminate|tauto].
  - destruct (String.eqb k' k) eqn:E.
    + apply String.eqb_eq in E. split; auto.
    + apply String.eqb_neq in E. rewrite IH. split; [auto|]. intros [?|?]; tauto.
Qed.

Lemma dict_lookup_keys {V} (d : dict V) k :
  In k (keys d) -> exists v, dict_lookup d k = Some v.
Proof.
  intros H. apply dict_contains_keys in H. unfold dict_contains in H.
  destruct (dict_lookup d k) as [v|]; [eauto|discriminate].
Qed.

Lemma dict_lookup_Some_contains {V} (d : dict V) k v :
  dict_lookup d k = Some v -> dict_contains d k = true.
Proof. unfold dict_contains. now intros ->. Qed.

Lemma in_keys_remove ks k k' : In k' (keys_remove ks k) -> In k' ks.
Proof.
  induction ks as [|a ks IH]; cbn; [tauto|].
  destruct (String.eqb a k); cbn; [auto|]. intros [?|?]; auto.
Qed.

Lemma NoDup_keys_remove ks k : NoDup ks -> NoDup (keys_remove ks k).
Proof.
  induction 1 as [|a ks Ha Hks IH]; cbn; [constructor|].
  destruct (String.eqb a k); [assumption|].
  constructor; [|assumption]. intros H. apply Ha. eapply in_keys_remove; eauto.
Qed.

Lemma not_in_keys_remove ks k : NoDup ks -> ~ In k (keys_remove ks k).
Proof.
  induction 1 as [|a ks Ha Hks IH]; cbn; [tauto|].
  destruct (String.eqb a k) eqn:E.
  - apply String.eqb_eq in E. now subst a.
  - apply String.eqb_neq in E. intros [?|?]; [congruence|tauto].
Qed.

Lemma in_keys_set ks k k' : In k' (keys_set ks k) -> In k' ks \/ k' = k.
Proof.
  induction ks as [|a ks IH]; cbn.
  - intros [?|[]]; auto.
  - destruct (String.eqb a k); cbn; [tauto|]. intros [?|?]; [auto|].
    destruct (IH H); auto.
Qed.

Lemma NoDup_keys_set ks k : NoDup ks -> NoDup (keys_set ks k).
Proof.
  induction 1 as [|a ks Ha Hks IH]; cbn; [repeat constructor; auto|].
  destruct (String.eqb a k) eqn:E; [now constructor|].
  apply String.eqb_neq in E.
  constructor; [|assumption]. intros H. apply in_keys_set in H.
  destruct H; [tauto|congruence].
Qed.

Lemma length_keys_remove ks k :
  In k ks -> S (List.length (keys_remove ks k)) = List.length ks.
Proof.
  induction ks as [|a ks IH]; cbn; [tauto|].
  destruct (String.eqb a k) eqn:E; [reflexivity|].
  apply String.eqb_neq in E. intros [?|H]; [congruence|].
  cbn. now rewrite IH.
Qed.

Lemma length_keys_set ks k :
  (List.length (keys_set ks k) <= S (List.length ks))%nat.
Proof.
  induction ks as [|a ks IH]; cbn; [lia|].
  destruct (String.eqb a k); cbn; lia.
Qed.

Lemma length_keys {V} (d : dict V) : List.length (keys d) = List.length d.
Proof. apply length_map. Qed.

Lemma dict_lookup_remove_same {V} (d : dict V) k :
  NoDup (keys d) -> dict_lookup (dict_remove d k) k = None.
Proof.
  intros H. destruct (dict_lookup (dict_remove d k) k) eqn:E; [|reflexivity].
  apply dict_lookup_Some_contains, dict_contains_keys in E.
  rewrite keys_dict_remove in E. now apply not_in_keys_remove in E.
Qed.

Lemma dict_lookup_entry {V} (d : dict V) k v :
  NoDup (keys d) -> In (k, v) d -> dict_lookup d k = Some v.
Proof.
  induction d as [|[k' v'] d IH]; cbn; [tauto|].
  intros Hnd [E|Hin]; inversion Hnd; subst.
  - inversion E; subst. now rewrite String.eqb_refl.
  - destruct (String.eqb k' k) eqn:E; [|auto].
    apply String.eqb_eq in E. subst k'. exfalso.
    match goal with H : ~ In _ _ |- _ => apply H end.
    apply (List.in_map fst) in Hin. exact Hin.
Qed.

(* ================================================================== *)
(** * Facts about [min] over the access times *)
(* ================================================================== *)

(** [min(d.keys(), key=lambda k: d[k])] scans the entries of [d]. *)
Lemma min_by_from_scan (f : string -> outcome float) (d : dict float) bk bv :
  (forall k v, In (k, v) d -> f k = Ok v) ->
  min_by_from f (keys d) bk bv = Ok (first_min_from d bk bv).
Proof.
  revert bk bv. induction d as [|[k v] d IH]; intros bk bv Hf; cbn;
    [reflexivity|].
  rewrite (Hf k v) by (now left).
  destruct (PrimFloat.ltb v bv); apply IH; intros; apply Hf; now right.
Qed.

Lemma first_min_from_least d : forall before bk bv after,
  (forall k' v', In (k', v') before -> PrimFloat.leb v' bv = false) ->
  (forall k' v', In (k', v') after -> PrimFloat.ltb v' bv = false) ->
  first_least ((before ++ (bk, bv) :: after) ++ d) (first_min_from d bk bv).
Proof.
  induction d as [|[k v] d IH]; intros before bk bv after Hb Ha; cbn.
  - rewrite app_nil_r. exists before, bv, after. auto.
  - destruct (PrimFloat.ltb v bv) eqn:E.
    + replace ((before ++ (bk, bv) :: after) ++ (k, v) :: d)
        with (((before ++ (bk, bv) :: after) ++ (k, v) :: []) ++ d)
        by (repeat (rewrite <- app_assoc || rewrite <- app_comm_cons);
            reflexivity).
      apply (IH (before ++ (bk, bv) :: after) k v []); [|intros ? ? []].
      intros k' v' Hin. destruct (PrimFloat.leb v' v) eqn:El; [|reflexivity].
      exfalso. apply in_app_iff in Hin. destruct Hin as [Hin|[Hin|Hin]].
      * pose proof (leb_trans _ _ _ El (ltb_leb _ _ E)) as L.
        rewrite (Hb _ _ Hin) in L. discriminate.
      * inversion Hin; subst. apply ltb_not_leb in E. congruence.
      * pose proof (leb_ltb_trans _ _ _ El E) as L.
        rewrite (Ha _ _ Hin) in L. discriminate.
    + replace ((before ++ (bk, bv) :: after) ++ (k, v) :: d)
        with ((before ++ (bk, bv) :: (after ++ [(k, v)])) ++ d)
        by (repeat (rewrite <- app_assoc || rewrite <- app_comm_cons);
            reflexivity).
      apply IH; [assumption|].
      intros k' v' Hin. apply in_app_iff in Hin.
      destruct Hin as [Hin|[Hin|[]]]; [eauto|]. inversion Hin; subst. exact E.
Qed.

Lemma first_least_in_keys d k : first_least d k -> In k (keys d).
Proof.
  intros (b & v & a & -> & _). unfold keys. rewrite map_app.
  apply in_or_app. right. now left.
Qed.

Lemma min_by_least (d : dict float) :
  NoDup (keys d) -> d <> [] ->
  exists k, min_by (dict_getitem d) (keys d) = Ok k /\ first_least d k
            /\ In k (keys d).
Proof.
  intros Hnd Hne. destruct d as [|[k v] d]; [congruence|].
  assert (Hf : forall k' v', In (k', v') ((k, v) :: d) ->
                             dict_getitem ((k, v) :: d) k' = Ok v').
  { intros k' v' Hin. unfold dict_getitem.
    now rewrite (dict_lookup_entry _ _ _ Hnd Hin). }
  assert (Hl : first_least ((k, v) :: d) (first_min_from d k v))
    by (apply (first_min_from_least d [] k v []); intros ? ? []).
  exists (first_min_from d k v).
  split; [|split; [exact Hl|now apply first_least_in_keys]].
  cbn [keys map fst min_by]. rewrite (Hf k v) by (now left).
  change (map fst d) with (keys d).
  apply min_by_from_scan. intros; apply Hf; now right.
Qed.

Lemma min_by_empty f : min_by f [] = Raise ValueError.
Proof. reflexivity. Qed.

(* ================================================================== *)
(** * Facts about the cache methods *)
(* ================================================================== *)

Ltac splits := repeat match goal with |- _ /\ _ => split end.

Lemma keys_set_in ks k : In k ks -> keys_set ks k = ks.
Proof.
  induction ks as [|a ks IH]; cbn; [tauto|].
  destruct (String.eqb a k) eqn:E; [reflexivity|].
  apply String.eqb_neq in E. intros [?|H]; [congruence|]. now rewrite IH.
Qed.

Lemma in_sync_remove self k :
  in_sync self ->
  in_sync (with_dicts self (dict_remove (cache self) k)
                      (dict_remove (access_times self) k)).
Proof.
  intros [Hk Hnd]. split; cbn [with_dicts cache access_times].
  - rewrite !keys_dict_remove. now rewrite Hk.
  - rewrite keys_dict_remove. now apply NoDup_keys_remove.
Qed.

Lemma in_sync_set self k v t :
  in_sync self ->
  in_sync (with_dicts self (dict_setitem (cache self) k v)
                      (dict_setitem (access_times self) k t)).
Proof.
  intros [Hk Hnd]. split; cbn [with_dicts cache access_times].
  - rewrite !keys_dict_setitem. now rewrite Hk.
  - rewrite keys_dict_setitem. now apply NoDup_keys_set.
Qed.

Lemma in_sync_empty self : in_sync self -> cache self = [] -> access_times self = [].
Proof.
  intros [Hk _] E. rewrite E in Hk. destruct (access_times self); [reflexivity|].
  discriminate Hk.
Qed.

Lemma in_sync_nonempty self :
  in_sync self -> cache self <> [] -> access_times self <> [].
Proof.
  intros [Hk _] Hne E. rewrite E in Hk. destruct (cache self); [congruence|].
  discriminate Hk.
Qed.

(** One turn of the eviction loop on a non-empty cache removes the first
    least-recently-accessed entry from both dictionaries. *)
Lemma evict_oldest_spec self :
  in_sync self -> cache self <> [] ->
  exists k,
    first_least (access_times self) k
    /\ In k (keys (cache self))
    /\ evict_oldest self =
       Some (Ok tt, with_dicts self (dict_remove (cache self) k)
                               (dict_remove (access_times self) k)).
Proof.
  intros Hs Hne. pose proof Hs as [Hk Hnd].
  destruct (min_by_least (access_times self)) as (k & Hmin & Hl & Hin).
  - now rewrite <- Hk.
  - now apply in_sync_nonempty.
  - exists k. split; [exact Hl|]. rewrite Hk. split; [exact Hin|].
    unfold evict_oldest, sbind, get, slift, set_cache, set_access_times.
    rewrite Hmin. unfold dict_delitem.
    assert (Hc : dict_contains (cache self) k = true)
      by (apply dict_contains_keys; now rewrite Hk).
    assert (Ha : dict_contains (access_times self) k = true)
      by (now apply dict_contains_keys).
    rewrite Hc. cbn [cache access_times max_size ttl]. rewrite Ha. reflexivity.
Qed.

(** On an empty cache, [min] of no keys raises [ValueError]. *)
Lemma evict_oldest_empty self :
  in_sync self -> cache self = [] ->
  evict_oldest self = Some (Raise ValueError, self).
Proof.
  intros Hs E. unfold evict_oldest, sbind, get, slift.
  now rewrite (in_sync_empty self Hs E).
Qed.

Lemma length_dict_remove {V} (d : dict V) k :
  In k (keys d) -> len (dict_remove d k) = len d - 1.
Proof.
  intros H. unfold len. rewrite <- !length_keys, keys_dict_remove.
  apply length_keys_remove in H. lia.
Qed.

(** The eviction loop ends within the turns it is given: with no more
    entries than [max_size] allows less one, or, on an empty cache that is
    still "full", by the [ValueError] of [min]. *)
Lemma while_evict fuel : forall self,
  in_sync self -> (List.length (cache self) < fuel)%nat ->
  exists r self',
    while_loop fuel cache_full evict_oldest self = Some (r, self')
    /\ in_sync self'
    /\ max_size self' = max_size self /\ ttl self' = ttl self
    /\ match r with
       | Ok _ => len (cache self') < max_size self
       | Raise e => e = ValueError /\ cache self' = [] /\ max_size self <= 0
       end.
Proof.
  induction fuel as [|fuel IH]; intros self Hs Hlen; [lia|].
  cbn [while_loop]. destruct (cache_full self) eqn:Ef.
  - unfold cache_full in Ef. apply Z.leb_le in Ef.
    destruct (cache self) as [|e c] eqn:Ec.
    + unfold sbind. rewrite (evict_oldest_empty self Hs Ec).
      exists (Raise ValueError), self. rewrite Ec. cbn in Ef.
      splits; auto.
    + destruct (evict_oldest_spec self Hs) as (k & _ & Hin & Hev);
        [rewrite Ec; discriminate|].
      unfold sbind. rewrite Hev.
      destruct (IH (with_dicts self (dict_remove (cache self) k)
                               (dict_remove (access_times self) k)))
        as (r & self' & Hw & Hs' & Hm & Ht & Hr).
      * now apply in_sync_remove.
      * cbn [cache with_dicts]. pose proof (length_dict_remove _ _ Hin) as Hl.
        rewrite Ec in *. unfold len in Hl. cbn [List.length] in *. lia.
      * rewrite Ec in *. exists r, self'. rewrite Hw.
        splits; auto.
  - exists (Ok tt), self. unfold cache_full in Ef. apply Z.leb_gt in Ef.
    splits; auto.
Qed.

Lemma length_dict_setitem {V} (d : dict V) k v :
  len (dict_setitem d k v) <= len d + 1.
Proof.
  unfold len. rewrite <- !length_keys, keys_dict_setitem.
  pose proof (length_keys_set (keys d) k). lia.
Qed.

Lemma len_nonneg {A} (xs : list A) : 0 <= len xs.
Proof. unfold len. lia. Qed.

Lemma dict_lookup_setitem_same {V} (d : dict V) k v :
  dict_lookup (dict_setitem d k v) k = Some v.
Proof.
  induction d as [|[k' v'] d IH]; cbn.
  - now rewrite String.eqb_refl.
  - destruct (String.eqb k' k) eqn:E; cbn; rewrite E; [reflexivity|exact IH].
Qed.

(** [_add_to_cache] always ends; it leaves the two dictionaries in step,
    and no more than [max_size] entries when [max_size] is not negative. *)
Lemma _add_to_cache_spec key value now self :
  in_sync self ->
  exists r self',
    _add_to_cache key value now self = Some (r, self')
    /\ in_sync self'
    /\ max_size self' = max_size self /\ ttl self' = ttl self
    /\ (0 <= max_size self -> len (cache self') <= max_size self)
    /\ (r = Ok tt -> dict_lookup (cache self') key = Some value).
Proof.
  intros Hs. unfold _add_to_cache.
  destruct (while_evict (S (List.length (cache self))) self Hs)
    as (r & s1 & Hw & Hs1 & Hm & Ht & Hr); [lia|].
  unfold sbind at 1. unfold get at 1. cbv beta iota.
  unfold sbind at 1. rewrite Hw. destruct r as [[]|e].
  - unfold sbind, get, set_cache, set_access_times.
    cbn [cache access_times max_size ttl].
    do 2 eexists. split; [reflexivity|].
    split; [exact (in_sync_set s1 key value now Hs1)|].
    cbn [cache max_size ttl]. splits; auto.
    + intros _. pose proof (length_dict_setitem (cache s1) key value). lia.
    + intros _. apply dict_lookup_setitem_same.
  - destruct Hr as (-> & Hc & Hle).
    exists (Raise ValueError), s1. splits; auto; [|discriminate].
    intros H0. rewrite Hc. cbn. lia.
Qed.

(** On a cache that holds exactly [max_size >= 1] entries, [_add_to_cache]
    evicts one entry, the first least-recently-accessed one, and then sets
    the new entry. *)
Lemma _add_to_cache_full key value now self :
  in_sync self -> len (cache self) = max_size self -> 0 < max_size self ->
  exists oldest,
    first_least (access_times self) oldest
    /\ _add_to_cache key value now self =
       Some (Ok tt,
             with_dicts self
               (dict_setitem (dict_remove (cache self) oldest) key value)
               (dict_setitem (dict_remove (access_times self) oldest) key now)).
Proof.
  intros Hs Hlen Hpos.
  assert (Hne : cache self <> []).
  { intros E. rewrite E in Hlen. cbn in Hlen. lia. }
  destruct (evict_oldest_spec self Hs Hne) as (k & Hl & Hin & Hev).
  exists k. split; [exact Hl|].
  unfold _add_to_cache.
  unfold sbind at 1. unfold get at 1. cbv beta iota.
  unfold sbind at 1. cbn [while_loop].
  assert (Ef : cache_full self = true)
    by (unfold cache_full; apply Z.leb_le; lia).
  rewrite Ef. unfold sbind at 1. rewrite Hev.
  assert (Ef' : cache_full (with_dicts self (dict_remove (cache self) k)
                                       (dict_remove (access_times self) k))
                = false).
  { unfold cache_full. cbn [with_dicts cache max_size]. apply Z.leb_gt.
    pose proof (length_dict_remove _ _ Hin). lia. }
  destruct (List.length (cache self)) as [|n];
    cbn [while_loop]; rewrite Ef'; reflexivity.
Qed.

(** The first part of [get_template] on an entry that is still valid: the
    template is returned and its access time becomes the current time. *)
Lemma get_template_hit fs now path self v t :
  dict_lookup (cache self) path = Some v ->
  dict_lookup (access_times self) path = Some t ->
  PrimFloat.ltb (PrimFloat.sub now t) (ttl self) = true ->
  get_template fs now path self =
  Some (Ok (Some v),
        with_dicts self (cache self)
                   (dict_setitem (access_times self) path now)).
Proof.
  intros Hc Ha Hv. unfold get_template, get_template_cached.
  unfold sbind, get, slift, sret, set_access_times, dict_getitem.
  rewrite (dict_lookup_Some_contains _ _ _ Hc), Ha, Hv.
  cbn [cache]. rewrite Hc. reflexivity.
Qed.

(** The first part of [get_template] on an expired entry: the entry is
    deleted from both dictionaries and control goes on to loading. *)
Lemma get_template_cached_expired now path self v t :
  dict_lookup (cache self) path = Some v ->
  dict_lookup (access_times self) path = Some t ->
  PrimFloat.ltb (PrimFloat.sub now t) (ttl self) = false ->
  get_template_cached now path self =
  Some (Ok None,
        with_dicts self (dict_remove (cache self) path)
                   (dict_remove (access_times self) path)).
Proof.
  intros Hc Ha Hv. unfold get_template_cached.
  unfold sbind, get, slift, sret, set_cache, set_access_times,
    dict_getitem, dict_delitem.
  rewrite (dict_lookup_Some_contains _ _ _ Hc), Ha, Hv.
  cbn [cache access_times max_size ttl].
  rewrite (dict_lookup_Some_contains _ _ _ Ha). reflexivity.
Qed.

Lemma get_template_cached_absent now path self :
  dict_lookup (cache self) path = None ->
  get_template_cached now path self = Some (Ok None, self).
Proof.
  intros Hc. unfold get_template_cached, sbind, get, sret, dict_contains.
  now rewrite Hc.
Qed.

Lemma get_template_load fs now path self self1 :
  get_template_cached now path self = Some (Ok None, self1) ->
  get_template fs now path self = load_and_cache fs now path self1.
Proof.
  intros H. unfold get_template. unfold sbind at 1.
  rewrite H. reflexivity.
Qed.

Lemma load_and_cache_spec fs now path self :
  in_sync self ->
  exists r self',
    load_and_cache fs now path self = Some (r, self')
    /\ in_sync self'
    /\ max_size self' = max_size self /\ ttl self' = ttl self
    /\ (0 <= max_size self -> len (cache self) <= max_size self ->
        len (cache self') <= max_size self).
Proof.
  intros Hs. unfold load_and_cache. unfold sbind at 1. unfold slift at 1.
  destruct (path_exists fs path) as [[|]|ep];
    try solve [do 2 eexists; split; [reflexivity|]; splits; auto].
  unfold sbind at 1. unfold slift at 1.
  destruct (imread fs path) as [[template|]|ei];
    try solve [do 2 eexists; split; [reflexivity|]; splits; auto].
  destruct (_add_to_cache_spec path template now self Hs)
    as (r & self' & Ha & Hs' & Hm & Ht & Hb & _).
  unfold sbind. rewrite Ha. destruct r as [[]|e]; do 2 eexists;
    (split; [reflexivity|]); splits; auto.
Qed.

(** [get_template] always ends and keeps the invariant. *)
Lemma get_template_spec fs now path self :
  in_sync self ->
  exists r self',
    get_template fs now path self = Some (r, self')
    /\ in_sync self'
    /\ max_size self' = max_size self /\ ttl self' = ttl self
    /\ (0 <= max_size self -> len (cache self) <= max_size self ->
        len (cache self') <= max_size self).
Proof.
  intros Hs. pose proof Hs as [Hk Hnd].
  destruct (dict_lookup (cache self) path) as [v|] eqn:Hc.
  - destruct (dict_lookup_keys (access_times self) path) as [t Ha].
    { rewrite <- Hk. apply dict_contains_keys.
      eapply dict_lookup_Some_contains; eauto. }
    destruct (PrimFloat.ltb (PrimFloat.sub now t) (ttl self)) eqn:Hv.
    + rewrite (get_template_hit fs now path self v t Hc Ha Hv).
      do 2 eexists. split; [reflexivity|]. split.
      * split; cbn [with_dicts cache access_times]; [|exact Hnd].
        rewrite keys_dict_setitem, <- Hk, keys_set_in; [reflexivity|].
        apply dict_contains_keys. eapply dict_lookup_Some_contains; eauto.
      * cbn [with_dicts cache max_size ttl]. auto.
    + rewrite (get_template_load fs now path self _
                 (get_template_cached_expired now path self v t Hc Ha Hv)).
      destruct (load_and_cache_spec fs now path _ (in_sync_remove self path Hs))
        as (r & self' & Hl & Hs' & Hm & Ht & Hb).
      exists r, self'. split; [exact Hl|]. split; [exact Hs'|].
      cbn [with_dicts max_size ttl cache] in *. splits; auto.
      intros H0 Hlen. apply Hb; auto.
      assert (Hin : In path (keys (cache self)))
        by (apply dict_contains_keys; eapply dict_lookup_Some_contains; eauto).
      pose proof (length_dict_remove _ _ Hin). lia.
  - rewrite (get_template_load fs now path self _
               (get_template_cached_absent now path self Hc)).
    apply load_and_cache_spec. exact Hs.
Qed.

Lemma dict_lookup_setitem_other {V} (d : dict V) k k' v :
  k' <> k -> dict_lookup (dict_setitem d k v) k' = dict_lookup d k'.
Proof.
  intros Hne. induction d as [|[k0 v0] d IH]; cbn.
  - destruct (String.eqb k k') eqn:E; [|reflexivity].
    apply String.eqb_eq in E. congruence.
  - destruct (String.eqb k0 k) eqn:E; cbn.
    + apply String.eqb_eq in E. subst k0.
      destruct (String.eqb k k') eqn:E'; [|reflexivity].
      apply String.eqb_eq in E'. congruence.
    + now rewrite IH.
Qed.

(** What [_add_to_cache] does, in terms of the cache [s1] that the eviction
    loop leaves: the loop either ends normally, and the entry is set in
    both dictionaries of [s1], or it raises on an empty cache whose
    [max_size] is not positive, and nothing is set. *)
Lemma _add_to_cache_shape key value now self :
  in_sync self ->
  exists r s1,
    _add_to_cache key value now self =
    Some (match r with
          | Ok _ => (Ok tt,
                     with_dicts s1 (dict_setitem (cache s1) key value)
                                (dict_setitem (access_times s1) key now))
          | Raise e => (Raise e, s1)
          end)
    /\ in_sync s1
    /\ max_size s1 = max_size self /\ ttl s1 = ttl self
    /\ (cache_full self = false -> r = Ok tt /\ s1 = self)
    /\ match r with
       | Ok _ => len (cache s1) < max_size self
       | Raise e => e = ValueError /\ cache s1 = [] /\ max_size self <= 0
       end.
Proof.
  intros Hs. unfold _add_to_cache.
  destruct (while_evict (S (List.length (cache self))) self Hs)
    as (r & s1 & Hw & Hs1 & Hm & Ht & Hr); [lia|].
  exists r, s1. unfold sbind at 1. unfold get at 1. cbv beta iota.
  unfold sbind at 1. rewrite Hw. splits; auto.
  - destruct r as [[]|e]; reflexivity.
  - intros Hf. cbn [while_loop] in Hw. rewrite Hf in Hw.
    injection Hw as <- <-. auto.
Qed.

(* ================================================================== *)
(** * C8 and C9: capacity, eviction order, refresh and expiry *)
(* ================================================================== *)

Lemma run_op_spec op self :
  in_sync self ->
  exists r self',
    run_op op self = Some (r, self')
    /\ in_sync self'
    /\ max_size self' = max_size self /\ ttl self' = ttl self
    /\ (0 <= max_size self -> len (cache self) <= max_size self ->
        len (cache self') <= max_size self).
Proof.
  intros Hs. destruct op as [fs now path | key value now]; cbn [run_op].
  - destruct (get_template_spec fs now path self Hs)
      as (r & self' & Hg & Hs' & Hm & Ht & Hb).
    unfold sbind. rewrite Hg.
    destruct r; do 2 eexists; (split; [reflexivity|]); splits; auto.
  - destruct (_add_to_cache_spec key value now self Hs)
      as (r & self' & Hg & Hs' & Hm & Ht & Hb & _).
    exists r, self'. splits; auto.
Qed.

(** Every sequence of operations on a fresh cache ends, and leaves a cache
    whose dictionaries are in step, with the configuration it was made
    with, and no more entries than a non-negative [max_size] allows. *)
Lemma run_ops_spec ops : forall self,
  in_sync self ->
  exists self',
    run_ops ops self = Some self'
    /\ in_sync self'
    /\ max_size self' = max_size self /\ ttl self' = ttl self
    /\ (0 <= max_size self -> len (cache self) <= max_size self ->
        len (cache self') <= max_size self).
Proof.
  induction ops as [|op ops IH]; intros self Hs; cbn [run_ops].
  - exists self. splits; auto.
  - destruct (run_op_spec op self Hs) as (r & s1 & Hr & Hs1 & Hm & Ht & Hb).
    rewrite Hr. destruct (IH s1 Hs1) as (s2 & Hr2 & Hs2 & Hm2 & Ht2 & Hb2).
    exists s2. splits; auto; try congruence.
    intros H0 Hlen. rewrite <- Hm. apply Hb2; rewrite Hm; auto.
Qed.

Lemma in_sync_init max_size ttl : in_sync (VisionCache_init max_size ttl).
Proof. split; cbn; [reflexivity|constructor]. Qed.

(** C8.  After any sequence of [get_template] and [_add_to_cache] calls on
    a cache made with a capacity [max_size >= 0], every call having ended:
    the cache holds at most [max_size] entries; an insertion into a cache
    that holds [max_size >= 1] entries evicts exactly one entry, the first
    in insertion order among those whose last-access time is least (every
    entry before it was accessed strictly later, no entry after it
    earlier), and then stores the new one; a hit returns the held
    template and sets its last-access time to the current time, leaving the
    rest as it was; and with [max_size >= 1] every insertion ends normally
    and leaves the new entry stored with the current time as its
    last-access time, in a cache of at most [max_size] entries. *)
Theorem cache_capacity_and_lru :
  forall (capacity : Z) (time_to_live : float) (ops : list cache_op),
    0 <= capacity ->
    exists self,
      run_ops ops (VisionCache_init capacity time_to_live) = Some self
      /\ max_size self = capacity /\ ttl self = time_to_live
      /\ len (cache self) <= capacity
      /\ keys (cache self) = keys (access_times self)
      /\ (forall key value now,
            len (cache self) = capacity -> 0 < capacity ->
            exists before oldest t_oldest after,
              access_times self = before ++ (oldest, t_oldest) :: after
              /\ (forall k t, In (k, t) before ->
                              PrimFloat.leb t t_oldest = false)
              /\ (forall k t, In (k, t) after ->
                              PrimFloat.ltb t t_oldest = false)
              /\ _add_to_cache key value now self =
                 Some (Ok tt,
                       with_dicts self
                         (dict_setitem (dict_remove (cache self) oldest)
                            key value)
                         (dict_setitem (dict_remove (access_times self) oldest)
                            key now)))
      /\ (forall fs now path held t,
            dict_lookup (cache self) path = Some held ->
            dict_lookup (access_times self) path = Some t ->
            PrimFloat.ltb (PrimFloat.sub now t) (ttl self) = true ->
            get_template fs now path self =
            Some (Ok (Some held),
                  with_dicts self (cache self)
                    (dict_setitem (access_times self) path now)))
      /\ (forall key value now,
            0 < capacity ->
            exists self1,
              _add_to_cache key value now self = Some (Ok tt, self1)
              /\ dict_lookup (cache self1) key = Some value
              /\ dict_lookup (access_times self1) key = Some now
              /\ len (cache self1) <= capacity).
Proof.
  intros capacity time_to_live ops Hcap.
  destruct (run_ops_spec ops (VisionCache_init capacity time_to_live)
              (in_sync_init _ _))
    as (self & Hrun & Hs & Hm & Ht & Hb).
  cbn [VisionCache_init max_size ttl cache] in *.
  exists self. split; [exact Hrun|]. split; [exact Hm|]. split; [exact Ht|].
  split; [apply Hb; cbn; lia|]. split; [apply Hs|]. split; [|split].
  - intros key value now Hlen Hpos.
    destruct (_add_to_cache_full key value now self Hs)
      as (oldest & (before & t_oldest & after & E & Hbefore & Hafter) & Hadd);
      try lia.
    exists before, oldest, t_oldest, after. auto.
  - intros fs now path held t Hc Ha Hv.
    now apply (get_template_hit fs now path self held t).
  - intros key value now Hpos.
    destruct (_add_to_cache_shape key value now self Hs)
      as (r & s1 & Ha & Hs1 & Hm1 & Ht1 & _ & Hr).
    destruct r as [[]|e]; [|destruct Hr as (_ & _ & Hle); lia].
    eexists. split; [exact Ha|]. cbn [with_dicts cache access_times].
    rewrite !dict_lookup_setitem_same. splits; auto.
    pose proof (length_dict_setitem (cache s1) key value). lia.
Qed.

(** The theorem at work on a cache of capacity 2.  Two insertions fill it.
    A hit on the first template then returns what is held, not what the
    file system has, and moves its access time.  A third insertion evicts
    the first template, the least recently accessed, and stores the new
    one. *)
Lemma cache_capacity_and_lru_witness :
  exists self,
    run_ops [op_put "a.png" old_pixels 1; op_put "b.png" old_pixels 2]
            (VisionCache_init 2 60) = Some self
    /\ len (cache self) = 2
    /\ get_template disk 3 "a.png" self =
       Some (Ok (Some old_pixels),
             with_dicts self (cache self)
               [("a.png", 3%float); ("b.png", 2%float)])
    /\ _add_to_cache "c.png" new_pixels 4 self =
       Some (Ok tt,
             with_dicts self
               [("b.png", old_pixels); ("c.png", new_pixels)]
               [("b.png", 2%float); ("c.png", 4%float)]).
Proof.
  destruct (cache_capacity_and_lru 2 60
              [op_put "a.png" old_pixels 1; op_put "b.png" old_pixels 2]
              ltac:(lia))
    as (self & Hrun & _ & _ & _ & _ & Hevict & Hhit & _).
  assert (E : run_ops [op_put "a.png" old_pixels 1;
                       op_put "b.png" old_pixels 2] (VisionCache_init 2 60)
              = Some (with_dicts (VisionCache_init 2 60)
                        [("a.png", old_pixels); ("b.png", old_pixels)]
                        [("a.png", 1%float); ("b.png", 2%float)]))
    by (vm_compute; reflexivity).
  rewrite E in Hrun. injection Hrun as <-.
  eexists. split; [exact E|]. split; [reflexivity|]. split.
  - exact (Hhit disk 3%float "a.png" old_pixels 1%float
             eq_refl eq_refl eq_refl).
  - destruct (Hevict "c.png" new_pixels 4%float eq_refl ltac:(lia))
      as (before & oldest & t_oldest & after & Hsplit & Hb & _ & Hadd).
    cbn [with_dicts access_times] in Hsplit.
    destruct before as [|[k1 v1] [|[k2 v2] before']]; cbn in Hsplit.
    + injection Hsplit as <- <- <-. exact Hadd.
    + injection Hsplit as <- <- <- <- <-.
      discriminate (Hb "a.png" 1%float (or_introl eq_refl)).
    + exfalso. injection Hsplit as _ _ _ _ Hnil.
      destruct before'; discriminate Hnil.
Defined.

(** Eviction order on a cache of capacity 2.  Without a hit, inserting a
    third template evicts the first; after a hit on the first, it evicts the
    second; with equal access times, it evicts the one inserted first. *)
Example eviction_order :
  option_map (fun self => keys (cache self))
    (run_ops [op_put "a.png" old_pixels 1; op_put "b.png" old_pixels 2;
              op_put "c.png" old_pixels 4]
       (VisionCache_init 2 60)) = Some ["b.png"; "c.png"]
  /\ option_map (fun self => keys (cache self))
       (run_ops [op_put "a.png" old_pixels 1; op_put "b.png" old_pixels 2;
                 op_get disk 3 "a.png"; op_put "c.png" old_pixels 4]
          (VisionCache_init 2 60)) = Some ["a.png"; "c.png"]
  /\ option_map (fun self => keys (cache self))
       (run_ops [op_put "a.png" old_pixels 1; op_put "b.png" old_pixels 1;
                 op_put "c.png" old_pixels 2]
          (VisionCache_init 2 60)) = Some ["b.png"; "c.png"].
Proof. repeat split; vm_compute; reflexivity. Qed.

Lemma ltb_asym a b : PrimFloat.ltb a b = true -> PrimFloat.ltb b a = false.
Proof.
  intros H. destruct (PrimFloat.ltb b a) eqn:E; [|reflexivity].
  apply ltb_leb in E. apply ltb_not_leb in H. congruence.
Qed.

(** C9.  In a cache reached by any sequence of operations, let an entry's
    age since its last access exceed the TTL.  Then the next
    [get_template] on its key does not take the cached branch: the entry is
    deleted from both dictionaries at that access and the call goes on as
    for a key that was never cached, that is, it loads from the file
    system.  Whatever it returns is what [cv2.imread] has just decoded
    (which is then the cached template), never the held one; when the file
    is gone or unreadable it returns none and the purged cache. *)
Theorem expired_entry_is_purged :
  forall (capacity : Z) (time_to_live : float) (ops : list cache_op)
         (self : VisionCache) (fs : filesystem) (now : float) (path : string)
         (held : ndarray) (t : float),
    run_ops ops (VisionCache_init capacity time_to_live) = Some self ->
    dict_lookup (cache self) path = Some held ->
    dict_lookup (access_times self) path = Some t ->
    PrimFloat.ltb (ttl self) (PrimFloat.sub now t) = true ->
    let purged := with_dicts self (dict_remove (cache self) path)
                             (dict_remove (access_times self) path) in
    get_template_cached now path self = Some (Ok None, purged)
    /\ dict_lookup (cache purged) path = None
    /\ dict_lookup (access_times purged) path = None
    /\ get_template fs now path self = load_and_cache fs now path purged
    /\ (forall r self',
          get_template fs now path self = Some (Ok (Some r), self') ->
          path_exists fs path = Ok true /\ imread fs path = Ok (Some r)
          /\ dict_lookup (cache self') path = Some r)
    /\ (forall self',
          get_template fs now path self = Some (Ok None, self') ->
          self' = purged).
Proof.
  intros capacity time_to_live ops self fs now path held t Hrun Hc Ha Hage purged.
  destruct (run_ops_spec ops (VisionCache_init capacity time_to_live)
              (in_sync_init _ _)) as (self0 & Hrun0 & Hs & _).
  rewrite Hrun in Hrun0. inversion Hrun0; subst self0. clear Hrun0.
  pose proof Hs as [Hk Hnd].
  assert (Hexp : get_template_cached now path self = Some (Ok None, purged))
    by (eapply get_template_cached_expired; eauto using ltb_asym).
  assert (Hload : get_template fs now path self = load_and_cache fs now path purged)
    by (now apply get_template_load).
  split; [exact Hexp|].
  split; [now apply dict_lookup_remove_same|].
  split; [apply dict_lookup_remove_same; now rewrite <- Hk|].
  split; [exact Hload|].
  rewrite Hload. unfold load_and_cache. unfold sbind at 1 3.
  unfold slift at 1 3.
  destruct (path_exists fs path) as [[|]|ep];
    try solve [split; [intros r self' E; discriminate E|];
               intros self' E; inversion E; reflexivity].
  unfold sbind at 1 3. unfold slift at 1 2.
  destruct (imread fs path) as [[template|]|ei];
    try solve [split; [intros r self' E; discriminate E|];
               intros self' E; inversion E; reflexivity].
  destruct (_add_to_cache_spec path template now purged
              (in_sync_remove self path Hs))
    as (r & s' & Hadd & _ & _ & _ & _ & Hstored).
  unfold sbind. rewrite Hadd. destruct r as [[]|e]; split.
  - intros r self' E. inversion E; subst. auto.
  - intros self' E. discriminate E.
  - intros r self' E. discriminate E.
  - intros self' E. discriminate E.
Qed.

(** The theorem at work: a template cached at time 0 with a TTL of 60 and
    asked for at time 100 is decoded again; the new pixels are returned. *)
Lemma expired_entry_is_purged_witness :
  let self := {| cache := [("a.png", old_pixels)];
                 access_times := [("a.png", 0%float)];
                 max_size := 2; ttl := 60 |} in
  get_template_cached 100 "a.png" self =
  Some (Ok None, with_dicts self [] [])
  /\ get_template disk 100 "a.png" self =
     Some (Ok (Some new_pixels),
           with_dicts self [("a.png", new_pixels)] [("a.png", 100%float)]).
Proof.
  cbv zeta.
  destruct (expired_entry_is_purged 2 60 [op_put "a.png" old_pixels 0]
              {| cache := [("a.png", old_pixels)];
                 access_times := [("a.png", 0%float)];
                 max_size := 2; ttl := 60 |}
              disk 100 "a.png" old_pixels 0
              eq_refl eq_refl eq_refl eq_refl)
    as (Hcached & _ & _ & Hget & _).
  split; [exact Hcached|]. rewrite Hget. reflexivity.
Defined.

(* ================================================================== *)
(** * Further properties of [VisionCache] *)
(* ================================================================== *)

(** The outcome of [get_template] on a cache whose dictionaries are in
    step. *)
Lemma get_template_outcome fs now path self :
  in_sync self ->
  exists r self',
    get_template fs now path self = Some (r, self')
    /\ match r with
       | Ok (Some v) =>
           dict_lookup (cache self') path = Some v
           /\ dict_lookup (access_times self') path = Some now
           /\ ttl self' = ttl self
           /\ ((exists t, dict_lookup (cache self) path = Some v
                          /\ dict_lookup (access_times self) path = Some t
                          /\ PrimFloat.ltb (PrimFloat.sub now t) (ttl self)
                             = true
                          /\ cache self' = cache self)
               \/ (path_exists fs path = Ok true
                   /\ imread fs path = Ok (Some v)))
       | Ok None =>
           file_missing fs path
           /\ dict_lookup (cache self') path = None
       | Raise e =>
           load_raises fs path (max_size self) e
           /\ dict_lookup (cache self') path = None
       end.
Proof.
  intros Hs. pose proof Hs as [Hk Hnd].
  assert (Hload : forall s0,
    in_sync s0 -> max_size s0 = max_size self -> ttl s0 = ttl self ->
    dict_lookup (cache s0) path = None ->
    exists r self',
      load_and_cache fs now path s0 = Some (r, self')
      /\ match r with
         | Ok (Some v) =>
             dict_lookup (cache self') path = Some v
             /\ dict_lookup (access_times self') path = Some now
             /\ ttl self' = ttl self
             /\ path_exists fs path = Ok true
             /\ imread fs path = Ok (Some v)
         | Ok None =>
             file_missing fs path
             /\ dict_lookup (cache self') path = None
         | Raise e =>
             load_raises fs path (max_size self) e
             /\ dict_lookup (cache self') path = None
         end).
  { intros s0 Hs0 Hm0 Ht0 Hc0. unfold load_and_cache, file_missing,
      load_raises.
    unfold sbind at 1. unfold slift at 1.
    destruct (path_exists fs path) as [[|]|ep] eqn:Ep;
      try solve [do 2 eexists; split; [reflexivity|]; cbv beta iota; auto 8].
    unfold sbind at 1. unfold slift at 1.
    destruct (imread fs path) as [[template|]|ei] eqn:Ei;
      try solve [do 2 eexists; split; [reflexivity|]; cbv beta iota; auto 8].
    destruct (_add_to_cache_shape path template now s0 Hs0)
      as (r & s1 & Ha & Hs1 & Hm1 & Ht1 & _ & Hr).
    unfold sbind. rewrite Ha. destruct r as [[]|e].
    - do 2 eexists. split; [reflexivity|].
      cbn [with_dicts cache access_times ttl].
      rewrite !dict_lookup_setitem_same. splits; auto. congruence.
    - do 2 eexists. split; [reflexivity|].
      destruct Hr as (-> & Hc1 & Hle). split; [|now rewrite Hc1].
      right. right. splits; eauto. lia. }
  destruct (dict_lookup (cache self) path) as [v|] eqn:Hc.
  - destruct (dict_lookup_keys (access_times self) path) as [t Ha].
    { rewrite <- Hk. apply dict_contains_keys.
      eapply dict_lookup_Some_contains; eauto. }
    destruct (PrimFloat.ltb (PrimFloat.sub now t) (ttl self)) eqn:Hv.
    + rewrite (get_template_hit fs now path self v t Hc Ha Hv).
      do 2 eexists. split; [reflexivity|].
      cbn [with_dicts cache access_times ttl].
      rewrite dict_lookup_setitem_same. splits; auto.
      left. exists t. auto.
    + rewrite (get_template_load fs now path self _
                 (get_template_cached_expired now path self v t Hc Ha Hv)).
      destruct (Hload _ (in_sync_remove self path Hs) eq_refl eq_refl)
        as (r & self' & Hl & Hr).
      { cbn [with_dicts cache]. now apply dict_lookup_remove_same. }
      exists r, self'. split; [exact Hl|].
      destruct r as [[v'|]|e]; auto.
      destruct Hr as (? & ? & ? & ? & ?). splits; auto.
  - rewrite (get_template_load fs now path self _
               (get_template_cached_absent now path self Hc)).
    destruct (Hload self Hs eq_refl eq_refl Hc) as (r & self' & Hl & Hr).
    exists r, self'. split; [exact Hl|].
    destruct r as [[v'|]|e]; auto.
    destruct Hr as (? & ? & ? & ? & ?). splits; auto.
Qed.

(** On an empty cache whose [max_size] is not positive the loop condition
    [len(self.cache) >= self.max_size] holds, and [min] of no keys raises. *)
Lemma _add_to_cache_no_capacity self key value now :
  cache self = [] -> access_times self = [] -> max_size self <= 0 ->
  _add_to_cache key value now self = Some (Raise ValueError, self).
Proof.
  intros Hc Ha Hm. unfold _add_to_cache.
  unfold sbind at 1. unfold get at 1. cbv beta iota.
  unfold sbind at 1. rewrite Hc. cbn [List.length while_loop].
  assert (Ef : cache_full self = true)
    by (unfold cache_full; rewrite Hc; cbn; apply Z.leb_le; lia).
  rewrite Ef. unfold sbind at 1.
  unfold evict_oldest, sbind, get, slift. rewrite Ha. reflexivity.
Qed.

Lemma get_template_no_capacity fs now path self :
  cache self = [] -> access_times self = [] -> max_size self <= 0 ->
  get_template fs now path self =
  Some (match path_exists fs path with
        | Ok true =>
            match imread fs path with
            | Ok (Some _) => Raise ValueError
            | Ok None => Ok None
            | Raise e => Raise e
            end
        | Ok false => Ok None
        | Raise e => Raise e
        end, self).
Proof.
  intros Hc Ha Hm.
  rewrite (get_template_load fs now path self self)
    by (apply get_template_cached_absent; now rewrite Hc).
  unfold load_and_cache. unfold sbind at 1. unfold slift at 1.
  destruct (path_exists fs path) as [[|]|ep]; try reflexivity.
  unfold sbind at 1. unfold slift at 1.
  destruct (imread fs path) as [[template|]|ei]; try reflexivity.
  unfold sbind. now rewrite _add_to_cache_no_capacity by assumption.
Qed.

(** A cache made with a capacity that is not positive stays empty. *)
Lemma run_ops_no_capacity ops : forall self,
  cache self = [] -> access_times self = [] -> max_size self <= 0 ->
  run_ops ops self = Some self.
Proof.
  induction ops as [|op ops IH]; intros self Hc Ha Hm; [reflexivity|].
  cbn [run_ops].
  destruct op as [fs now path | key value now]; cbn [run_op].
  - unfold sbind at 1.
    rewrite get_template_no_capacity by assumption.
    destruct (path_exists fs path) as [[|]|ep];
      [destruct (imread fs path) as [[template|]|ei]| |];
      unfold sret; auto.
  - rewrite _add_to_cache_no_capacity by assumption. auto.
Qed.

(** X1.  Whatever was done before to a cache made with a capacity of at
    least one, [_add_to_cache(key, value, now)] ends normally, and a
    [get_template(key)] that follows within the time to live returns
    [value], whatever the file system holds, and leaves the templates as
    they are; and when the cache held fewer entries than its capacity, the
    insertion changed no other entry. *)
Theorem put_then_get_round_trip :
  forall (capacity : Z) (time_to_live : float) (ops : list cache_op)
         (self : VisionCache) (key : string) (value : ndarray)
         (now later : float) (fs : filesystem),
    0 < capacity ->
    run_ops ops (VisionCache_init capacity time_to_live) = Some self ->
    PrimFloat.ltb (PrimFloat.sub later now) time_to_live = true ->
    exists self1 self2,
      _add_to_cache key value now self = Some (Ok tt, self1)
      /\ get_template fs later key self1 = Some (Ok (Some value), self2)
      /\ cache self2 = cache self1
      /\ (len (cache self) < capacity ->
          forall k, k <> key ->
                    dict_lookup (cache self1) k = dict_lookup (cache self) k).
Proof.
  intros capacity time_to_live ops self key value now later fs Hcap Hrun Hv.
  destruct (run_ops_spec ops (VisionCache_init capacity time_to_live)
              (in_sync_init _ _))
    as (self0 & Hrun0 & Hs & Hm & Ht & _).
  rewrite Hrun in Hrun0. injection Hrun0 as <-.
  cbn [VisionCache_init max_size ttl] in Hm, Ht.
  destruct (_add_to_cache_shape key value now self Hs)
    as (r & s1 & Ha & Hs1 & Hm1 & Ht1 & Hnf & Hr).
  destruct r as [[]|e]; [|destruct Hr as (_ & _ & Hle); lia].
  do 2 eexists. split; [exact Ha|]. split; [|split].
  - apply (get_template_hit fs later key _ value now).
    + apply dict_lookup_setitem_same.
    + apply dict_lookup_setitem_same.
    + cbn [with_dicts ttl]. now rewrite Ht1, Ht.
  - reflexivity.
  - intros Hlen k Hk. cbn [with_dicts cache].
    rewrite dict_lookup_setitem_other by exact Hk.
    destruct Hnf as [_ ->]; [|reflexivity].
    unfold cache_full. apply Z.leb_gt. lia.
Qed.

(** The round trip on a cache of capacity 2 that already holds one
    template. *)
Lemma put_then_get_round_trip_witness :
  exists self1 self2,
    _add_to_cache "b.png" new_pixels 2
      (with_dicts (VisionCache_init 2 60)
                  [("a.png", old_pixels)] [("a.png", 1%float)])
    = Some (Ok tt, self1)
    /\ get_template disk 30 "b.png" self1 = Some (Ok (Some new_pixels), self2).
Proof.
  destruct (put_then_get_round_trip 2 60 [op_put "a.png" old_pixels 1]
              (with_dicts (VisionCache_init 2 60)
                          [("a.png", old_pixels)] [("a.png", 1%float)])
              "b.png" new_pixels 2 30 disk)
    as (self1 & self2 & H1 & H2 & _);
    [lia | reflexivity | reflexivity |].
  exists self1, self2. split; [exact H1 | exact H2].
Defined.

(** X2.  A cache made with a capacity of zero or less never holds
    anything: after any sequence of calls both dictionaries are empty,
    every [_add_to_cache] raises [ValueError] (the eviction loop asks for
    the oldest of no entries), and so does every [get_template] of a file
    that exists and decodes, instead of returning the template. *)
Theorem cache_without_capacity :
  forall (capacity : Z) (time_to_live : float) (ops : list cache_op)
         (self : VisionCache),
    capacity <= 0 ->
    run_ops ops (VisionCache_init capacity time_to_live) = Some self ->
    cache self = [] /\ access_times self = []
    /\ (forall key value now,
          _add_to_cache key value now self = Some (Raise ValueError, self))
    /\ (forall fs now path template,
          path_exists fs path = Ok true ->
          imread fs path = Ok (Some template) ->
          get_template fs now path self = Some (Raise ValueError, self)).
Proof.
  intros capacity time_to_live ops self Hcap Hrun.
  rewrite run_ops_no_capacity in Hrun by (cbn; auto).
  injection Hrun as <-. cbn [VisionCache_init cache access_times].
  splits; auto.
  - intros. now apply _add_to_cache_no_capacity.
  - intros fs now path template Hp Hi.
    rewrite get_template_no_capacity by (cbn; auto).
    now rewrite Hp, Hi.
Qed.

(** A cache of capacity 0, after a call of each kind, asked for a file that
    exists. *)
Lemma cache_without_capacity_witness :
  get_template disk 3 "a.png" (VisionCache_init 0 60)
  = Some (Raise ValueError, VisionCache_init 0 60).
Proof.
  destruct (cache_without_capacity 0 60
              [op_get disk 1 "a.png"; op_put "b.png" old_pixels 2]
              (VisionCache_init 0 60))
    as (_ & _ & _ & Hget); [lia | reflexivity |].
  exact (Hget disk 3%float "a.png" new_pixels eq_refl eq_refl).
Defined.

(** X3.  The outcomes of [get_template] after any sequence of calls on a
    cache.  It always ends.  A template it returns is afterwards held
    under the path with the current time as access time, and is either the
    entry that was held and had not expired (the file system is not
    consulted and the templates stay as they are) or what [cv2.imread]
    gave for an existing file.  It returns [None] only when the file does
    not exist or does not decode.  It raises only what [Path(p).exists()]
    or [cv2.imread] raised, or the [ValueError] of an insertion into a
    cache whose capacity is not positive, for a file that exists and
    decodes.  Whenever it ends without a template, the cache holds nothing
    under the path: an expired entry has been deleted before the file
    system was asked. *)
Theorem get_template_outcomes :
  forall (capacity : Z) (time_to_live : float) (ops : list cache_op)
         (self : VisionCache) (fs : filesystem) (now : float) (path : string),
    run_ops ops (VisionCache_init capacity time_to_live) = Some self ->
    exists r self',
      get_template fs now path self = Some (r, self')
      /\ match r with
         | Ok (Some v) =>
             dict_lookup (cache self') path = Some v
             /\ dict_lookup (access_times self') path = Some now
             /\ ((exists t, dict_lookup (cache self) path = Some v
                            /\ dict_lookup (access_times self) path = Some t
                            /\ PrimFloat.ltb (PrimFloat.sub now t) time_to_live
                               = true
                            /\ cache self' = cache self)
                 \/ (path_exists fs path = Ok true
                     /\ imread fs path = Ok (Some v)))
         | Ok None =>
             file_missing fs path
             /\ dict_lookup (cache self') path = None
         | Raise e =>
             load_raises fs path capacity e
             /\ dict_lookup (cache self') path = None
         end.
Proof.
  intros capacity time_to_live ops self fs now path Hrun.
  destruct (run_ops_spec ops (VisionCache_init capacity time_to_live)
              (in_sync_init _ _))
    as (self0 & Hrun0 & Hs & Hm & Ht & _).
  rewrite Hrun in Hrun0. injection Hrun0 as <-.
  cbn [VisionCache_init max_size ttl] in Hm, Ht.
  destruct (get_template_outcome fs now path self Hs) as (r & self' & Hg & Hr).
  exists r, self'. split; [exact Hg|].
  rewrite Hm, Ht in Hr. destruct r as [[v|]|e]; auto.
  destruct Hr as (? & ? & _ & ?). auto.
Qed.

(** The theorem on a cache that holds an expired entry for the path, when
    [Path(p).exists()] raises: the call raises the same exception, and the
    expired entry is gone. *)
Lemma get_template_outcomes_witness :
  exists self',
    get_template unreadable 100 "a.png"
      (with_dicts (VisionCache_init 2 60)
                  [("a.png", old_pixels)] [("a.png", 1%float)])
    = Some (Raise OSError, self')
    /\ dict_lookup (cache self') "a.png" = None.
Proof.
  destruct (get_template_outcomes 2 60 [op_put "a.png" old_pixels 1]
              (with_dicts (VisionCache_init 2 60)
                          [("a.png", old_pixels)] [("a.png", 1%float)])
              unreadable 100 "a.png" eq_refl)
    as (r & self' & H & Hr).
  vm_compute in H. injection H as <- <-.
  eexists. split; [vm_compute; reflexivity|exact (proj2 Hr)].
Defined.

(** X4.  Once [get_template] has returned a template for a path, a second
    call for the same path within the time to live returns the same
    template whatever the file system holds by then (the file may have
    changed or be gone), and only moves the access time. *)
Theorem second_get_is_served_from_cache :
  forall (capacity : Z) (time_to_live : float) (ops : list cache_op)
         (self self1 : VisionCache) (fs fs' : filesystem)
         (now later : float) (path : string) (template : ndarray),
    run_ops ops (VisionCache_init capacity time_to_live) = Some self ->
    get_template fs now path self = Some (Ok (Some template), self1) ->
    PrimFloat.ltb (PrimFloat.sub later now) time_to_live = true ->
    get_template fs' later path self1 =
    Some (Ok (Some template),
          with_dicts self1 (cache self1)
                     (dict_setitem (access_times self1) path later)).
Proof.
  intros capacity time_to_live ops self self1 fs fs' now later path template
         Hrun Hget Hv.
  destruct (run_ops_spec ops (VisionCache_init capacity time_to_live)
              (in_sync_init _ _))
    as (self0 & Hrun0 & Hs & Hm & Ht & _).
  rewrite Hrun in Hrun0. injection Hrun0 as <-.
  cbn [VisionCache_init max_size ttl] in Hm, Ht.
  destruct (get_template_outcome fs now path self Hs) as (r & self' & Hg & Hr).
  rewrite Hget in Hg. injection Hg as <- <-.
  destruct Hr as (Hc & Ha & Ht1 & _).
  apply (get_template_hit fs' later path self1 template now Hc Ha).
  now rewrite Ht1, Ht.
Qed.

(** A file loaded at time 1 and asked for again at time 30, when the file
    system no longer has it. *)
Lemma second_get_is_served_from_cache_witness :
  get_template {| path_exists := fun _ => Ok false;
                  imread := fun _ => Ok None |}
    30 "a.png"
    (with_dicts (VisionCache_init 2 60)
                [("a.png", new_pixels)] [("a.png", 1%float)])
  = Some (Ok (Some new_pixels),
          with_dicts (VisionCache_init 2 60)
                     [("a.png", new_pixels)] [("a.png", 30%float)]).
Proof.
  exact (second_get_is_served_from_cache 2 60 []
           (VisionCache_init 2 60)
           (with_dicts (VisionCache_init 2 60)
                       [("a.png", new_pixels)] [("a.png", 1%float)])
           disk {| path_exists := fun _ => Ok false;
                   imread := fun _ => Ok None |}
           1 30 "a.png" new_pixels eq_refl eq_refl eq_refl).
Defined.

(* ================================================================== *)
(** * What the matchers' results say about themselves *)
(* ================================================================== *)

Lemma every_initial P v : every P (None, v).
Proof. intros r E. discriminate. Qed.

Lemma every_update P r v : P r -> every P (Some r, v).
Proof. intros H r' E. cbn in E. inversion E; subst. exact H. Qed.

Lemma _match_template_every ext s t c r l :
  _match_template ext s t c = (Ok (Some r), l) ->
  centered r /\ method r = "template".
Proof.
  unfold _match_template. intros E.
  apply bind_Ok in E. destruct E as (gs & ? & ? & _ & E & _).
  apply bind_Ok in E. destruct E as (gt & ? & ? & _ & E & _).
  apply bind_Ok in E. destruct E as (st & ? & ? & E & R & _).
  inversion R; subst.
  eapply (for_each_invariant
            (every (fun r => centered r /\ method r = "template"))) in E.
  - apply E. congruence.
  - clear. intros m [br bc] st' l Hst E. unfold _match_template_body in E.
    unfold_calls E. inv_ok; subst; auto;
      apply every_update; split; [split|]; reflexivity.
  - apply every_initial.
Qed.

Lemma _match_multi_scale_every ext s t c r l :
  _match_multi_scale ext s t c = (Ok (Some r), l) ->
  exists gs lg,
    to_gray ext s = (Ok gs, lg)
    /\ centered r /\ In (method r) multi_scale_tags
    /\ 10 <= width r /\ 10 <= height r
    /\ (forall rows, py_index (shape gs) 0 = Ok rows -> height r <= rows)
    /\ (forall cols, py_index (shape gs) 1 = Ok cols -> width r <= cols).
Proof.
  unfold _match_multi_scale. intros E.
  apply bind_Ok in E. destruct E as (gs & lg & ? & Eg & E & _).
  apply bind_Ok in E. destruct E as (gt & ? & ? & _ & E & _).
  apply bind_Ok in E. destruct E as ([oh ow] & ? & ? & _ & E & _).
  apply bind_Ok in E. destruct E as (st & ? & ? & E & R & _).
  inversion R; subst.
  exists gs, lg. split; [exact Eg|].
  eapply (for_each_invariant_in
            (every (fun r =>
               centered r /\ In (method r) multi_scale_tags
               /\ 10 <= width r /\ 10 <= height r
               /\ (forall rows, py_index (shape gs) 0 = Ok rows ->
                                height r <= rows)
               /\ (forall cols, py_index (shape gs) 1 = Ok cols ->
                                width r <= cols)))) in E.
  - apply E. congruence.
  - clear. intros scale [br bc] st' l Hin Hst E.
    unfold _match_multi_scale_body in E.
    unfold_calls E. inv_ok; subst; auto.
    apply every_update. cbn [x y width height center_x center_y method].
    apply orb_false_elim in Heqb1. destruct Heqb1 as [Hh Hw].
    apply Z.ltb_ge in Hh, Hw. rewrite Z.gtb_ltb in Heqb, Heqb0.
    apply Z.ltb_ge in Heqb, Heqb0.
    split; [split; reflexivity|]. splits; auto.
    + apply (List.in_map (fun scale =>
               ("multi_scale_" ++ format_fixed 1 scale ++ "x")%string)
               scale_factors scale Hin).
    + intros rows Hr.
      match goal with
      | H : _ <= ?v |- _ => replace rows with v by congruence; exact H
      end.
    + intros cols Hc.
      match goal with
      | H : _ <= ?v |- _ => replace cols with v by congruence; exact H
      end.
  - apply every_initial.
Qed.

Lemma _match_with_preprocessing_every ext s t c r l :
  _match_with_preprocessing ext s t c = (Ok (Some r), l) ->
  centered r /\ In (method r) preprocessed_tags.
Proof.
  unfold _match_with_preprocessing. intros E.
  apply bind_Ok in E. destruct E as (gs & ? & ? & _ & E & _).
  apply bind_Ok in E. destruct E as (gt & ? & ? & _ & E & _).
  apply bind_Ok in E. destruct E as (st & ? & ? & E & R & _).
  inversion R; subst.
  eapply (for_each_invariant_in
            (every (fun r => centered r /\ In (method r) preprocessed_tags)))
    in E.
  - apply E. congruence.
  - clear. intros pm st st' l Hin Hst E.
    unfold _match_with_preprocessing_body in E.
    apply try_except_inv in E. destruct E as [E | (e & l1 & l2 & _ & E & _)].
    + unfold _match_with_preprocessing_try in E.
      destruct pm as [method_name preprocess], st as [br bc].
      unfold_calls E. inv_ok; subst; auto.
      apply every_update. split; [split; reflexivity|].
      apply (List.in_map (fun pm => ("preprocessed_" ++ fst pm)%string)
               preprocessing_methods _ Hin).
    + inversion E; subst. exact Hst.
  - apply every_initial.
Qed.

Lemma _match_features_every ext s t c r l :
  _match_features ext s t c = (Ok (Some r), l) ->
  centered r /\ method r = "feature".
Proof.
  unfold _match_features. intros E.
  apply try_except_inv in E. destruct E as [E | (e & l1 & l2 & _ & E & _)];
    [|discriminate E].
  unfold _match_features_try in E. unfold_calls E.
  inv_ok; subst; try discriminate.
  split; [split|]; reflexivity.
Qed.

(** A run of [_match_template] that finds nothing never updates the best
    result, so no score passed both tests; a stricter threshold lets no
    more scores pass, and the run makes the same calls with the same
    outcome. *)
Lemma _match_template_body_stricter ext gs gt lo hi m l :
  PrimFloat.leb lo hi = true ->
  _match_template_body ext gs gt lo m (None, 0%float)
  = (Ok (None, 0%float), l) ->
  _match_template_body ext gs gt hi m (None, 0%float)
  = (Ok (None, 0%float), l).
Proof.
  intros Hle E. unfold _match_template_body in *.
  unfold matchTemplate, minMaxLoc, call, bind in *.
  destruct (ext_matchTemplate ext gs gt m) as [res|e]; [|discriminate E].
  destruct (ext_minMaxLoc ext res) as [[[[min_val max_val] min_loc] max_loc]|e];
    [|discriminate E].
  destruct (if tm_method_eqb m TM_SQDIFF_NORMED
            then ((1 - min_val)%float, min_loc) else (max_val, max_loc))
    as [mc tl].
  destruct (PrimFloat.ltb 0 mc) eqn:Hpos; cbn [andb] in *; [|exact E].
  destruct (PrimFloat.leb lo mc) eqn:Hlo.
  - unfold lift in E. destruct (unpack2 (shape gt)) as [[h w]|e];
      cbn in E; discriminate E.
  - destruct (PrimFloat.leb hi mc) eqn:Hhi; [|exact E].
    rewrite (leb_trans _ _ _ Hle Hhi) in Hlo. discriminate Hlo.
Qed.

Lemma _match_template_body_start ext gs gt c m st' l :
  _match_template_body ext gs gt c m (None, 0%float) = (Ok st', l) ->
  st' = (None, 0%float) \/ fst st' <> None.
Proof.
  intros E. unfold _match_template_body in E. unfold_calls E.
  inv_ok; subst; auto; right; discriminate.
Qed.

Lemma _match_template_body_found ext gs gt c m st st' l :
  fst st <> None ->
  _match_template_body ext gs gt c m st = (Ok st', l) -> fst st' <> None.
Proof.
  intros Hst E. destruct st as [br bc]. unfold _match_template_body in E.
  unfold_calls E. inv_ok; subst; auto; discriminate.
Qed.

Lemma _match_template_loop_stricter ext gs gt lo hi :
  PrimFloat.leb lo hi = true ->
  forall ms st l,
    for_each ms (_match_template_body ext gs gt lo) (None, 0%float)
    = (Ok st, l) ->
    fst st = None ->
    for_each ms (_match_template_body ext gs gt hi) (None, 0%float)
    = (Ok st, l).
Proof.
  intros Hle. induction ms as [|m ms IH]; intros st l E Hst; cbn in *;
    [exact E|].
  apply bind_Ok in E. destruct E as (st1 & l1 & l2 & E1 & E2 & ->).
  destruct (_match_template_body_start _ _ _ _ _ _ _ E1) as [-> | Hfound].
  - rewrite (bind_eq_Ok _ _ _ _
               (_match_template_body_stricter _ _ _ _ _ _ _ Hle E1)).
    now rewrite (IH _ _ E2 Hst).
  - exfalso.
    apply (for_each_invariant (fun st => fst st <> None)
             (_match_template_body ext gs gt lo)
             (fun a st st' l H E => _match_template_body_found
                                      ext gs gt lo a st st' l H E)
             ms st1 st l2 Hfound E2).
    exact Hst.
Qed.

Lemma _match_template_stricter ext s t lo hi l :
  PrimFloat.leb lo hi = true ->
  _match_template ext s t lo = (Ok None, l) ->
  _match_template ext s t hi = (Ok None, l).
Proof.
  intros Hle E. unfold _match_template in *.
  apply bind_Ok in E. destruct E as (gs & l1 & ? & E1 & E & ->).
  apply bind_Ok in E. destruct E as (gt & l2 & ? & E2 & E & ->).
  apply bind_Ok in E. destruct E as (st & l3 & l4 & E3 & R & ->).
  unfold ret in R. injection R as Hst <-.
  rewrite (bind_eq_Ok _ _ _ _ E1). cbv beta.
  rewrite (bind_eq_Ok _ _ _ _ E2). cbv beta.
  rewrite (bind_eq_Ok _ _ _ _
             (_match_template_loop_stricter _ _ _ _ _ Hle _ _ _ E3 Hst)).
  cbn. now rewrite Hst.
Qed.

(** Where a result of the cascade comes from. *)
Lemma find_template_with_fallbacks_stage ext s t c r l :
  find_template_with_fallbacks ext s t c = (Ok (Some r), l) ->
  (exists l1, _match_multi_scale ext s t c = (Ok (Some r), l1))
  \/ (exists l1, _match_features ext s t (PrimFloat.mul c 0.9)
                 = (Ok (Some r), l1))
  \/ (exists l1, _match_template ext s t (PrimFloat.mul c 0.8)
                 = (Ok (Some r), l1))
  \/ (exists l1, _match_with_preprocessing ext s t (PrimFloat.mul c 0.7)
                 = (Ok (Some r), l1))
  \/ (exists r0 l3 l5,
        _match_template ext s t (PrimFloat.mul c 0.8) = (Ok None, l3)
        /\ _match_template ext s t 0.5 = (Ok (Some r0), l5)
        /\ r = method_append r0 "_low_confidence").
Proof.
  unfold find_template_with_fallbacks. intros E.
  apply bind_Ok in E. destruct E as ([r1|] & l1 & ? & E1 & E & _).
  { cbn [accepted] in E.
    rewrite (_match_multi_scale_meets _ _ _ _ _ _ E1) in E.
    inversion E; subst. eauto. }
  cbn [accepted] in E.
  apply bind_Ok in E. destruct E as ([r2|] & l2 & ? & E2 & E & _).
  { cbn [accepted] in E.
    rewrite (_match_features_meets _ _ _ _ _ _ E2) in E.
    inversion E; subst. eauto. }
  cbn [accepted] in E.
  apply bind_Ok in E. destruct E as ([r3|] & l3 & ? & E3 & E & _).
  { cbn [accepted] in E.
    rewrite (_match_template_meets _ _ _ _ _ _ E3) in E.
    inversion E; subst. eauto 6. }
  cbn [accepted] in E.
  apply bind_Ok in E. destruct E as ([r4|] & l4 & ? & E4 & E & _).
  { cbn [accepted] in E.
    rewrite (_match_with_preprocessing_meets _ _ _ _ _ _ E4) in E.
    inversion E; subst. eauto 8. }
  cbn [accepted] in E.
  apply bind_Ok in E. destruct E as ([r5|] & l5 & ? & E5 & E & _);
    [|discriminate E].
  inversion E; subst. do 4 right. eauto 8.
Qed.

(** The tags of the scale ladder and of the named transforms, evaluated. *)
Lemma multi_scale_tags_eq :
  multi_scale_tags =
  ["multi_scale_0.5x"; "multi_scale_0.6x"; "multi_scale_0.7x";
   "multi_scale_0.8x"; "multi_scale_0.9x"; "multi_scale_1.0x";
   "multi_scale_1.1x"; "multi_scale_1.2x"; "multi_scale_1.3x";
   "multi_scale_1.4x"; "multi_scale_1.5x"; "multi_scale_1.6x";
   "multi_scale_1.7x"; "multi_scale_1.8x"; "multi_scale_1.9x";
   "multi_scale_2.0x"].
Proof. vm_compute. reflexivity. Qed.

Lemma preprocessed_tags_eq :
  preprocessed_tags =
  ["preprocessed_original"; "preprocessed_blur"; "preprocessed_threshold";
   "preprocessed_edges"; "preprocessed_morphology"].
Proof. reflexivity. Qed.

(** A tag names one matcher only. *)
Ltac tag_clash :=
  repeat match goal with
  | H : In _ multi_scale_tags |- _ => rewrite multi_scale_tags_eq in H
  | H : In _ preprocessed_tags |- _ => rewrite preprocessed_tags_eq in H
  end;
  cbn [In] in *;
  repeat match goal with
  | H : _ \/ _ |- _ => destruct H
  | H : False |- _ => destruct H
  | H : _ = method _ |- _ => symmetry in H
  end;
  congruence.

(** X5.  [find_template] compares the method name exactly: for a name that
    is none of ["auto"], ["template"], ["feature"] and ["multi_scale"] (a
    name in another case, say) it raises [ValueError] before any call to
    OpenCV, whatever the images, the threshold and the multi-scale flag. *)
Theorem find_template_unknown_method :
  forall (ext : externals) (screenshot template : ndarray) (c : float)
         (meth : string) (multi_scale : bool),
    meth <> "auto" -> meth <> "template" -> meth <> "feature" ->
    meth <> "multi_scale" ->
    find_template ext screenshot template c meth multi_scale
    = (Raise ValueError, []).
Proof.
  intros ext s t c meth ms H1 H2 H3 H4. unfold find_template.
  apply String.eqb_neq in H1, H2, H3, H4. now rewrite H1, H2, H3, H4.
Qed.

(** The method name in capitals is unknown. *)
Lemma find_template_unknown_method_witness :
  find_template (sim graded) (blank [100; 100]) (blank [20; 20]) 0.5
                "Template" true
  = (Raise ValueError, []).
Proof.
  apply (find_template_unknown_method (sim graded) (blank [100; 100])
           (blank [20; 20]) 0.5 "Template" true); discriminate.
Defined.

(** X6.  What a result of [find_template] says, whatever OpenCV answers.
    Its confidence is at least the threshold asked for; its centre is the
    middle of its box (by floor division); its method tag is that of the
    matcher that produced it, which is the matcher asked for by name, and,
    under ["auto"] with multi-scale matching switched off, never the
    multi-scale matcher (the flag is read under ["auto"] only). *)
Theorem find_template_result :
  forall (ext : externals) (screenshot template : ndarray) (c : float)
         (meth : string) (multi_scale : bool) (r : MatchResult) (l : log),
    find_template ext screenshot template c meth multi_scale
    = (Ok (Some r), l) ->
    PrimFloat.leb c (confidence r) = true
    /\ centered r
    /\ (In (method r) multi_scale_tags \/ method r = "feature"
        \/ method r = "template")
    /\ (meth = "template" -> method r = "template")
    /\ (meth = "feature" -> method r = "feature")
    /\ (meth = "multi_scale" -> In (method r) multi_scale_tags)
    /\ (meth = "auto" -> multi_scale = false ->
        ~ In (method r) multi_scale_tags).
Proof.
  intros ext s t c meth ms r l E.
  assert (Hms : forall l, _match_multi_scale ext s t c = (Ok (Some r), l) ->
                 PrimFloat.leb c (confidence r) = true /\ centered r
                 /\ In (method r) multi_scale_tags).
  { intros l0 E0. split; [eapply _match_multi_scale_meets; eauto|].
    destruct (_match_multi_scale_every _ _ _ _ _ _ E0)
      as (_ & _ & _ & ? & ? & _). auto. }
  assert (Hf : forall l, _match_features ext s t c = (Ok (Some r), l) ->
                PrimFloat.leb c (confidence r) = true /\ centered r
                /\ method r = "feature").
  { intros l0 E0. split; [eapply _match_features_meets; eauto|].
    eapply _match_features_every; eauto. }
  assert (Ht : forall l, _match_template ext s t c = (Ok (Some r), l) ->
                PrimFloat.leb c (confidence r) = true /\ centered r
                /\ method r = "template").
  { intros l0 E0. split; [eapply _match_template_meets; eauto|].
    eapply _match_template_every; eauto. }
  assert (Hft : forall l,
            bind (_match_features ext s t c)
                 (fun result => match result with
                                | Some _ => ret result
                                | None => _match_template ext s t c
                                end) = (Ok (Some r), l) ->
            PrimFloat.leb c (confidence r) = true /\ centered r
            /\ (method r = "feature" \/ method r = "template")).
  { intros l0 E0.
    apply bind_Ok in E0. destruct E0 as ([r1|] & l1 & l2 & E1 & E2 & _).
    - inversion E2; subst. destruct (Hf _ E1) as (? & ? & ?). auto.
    - destruct (Ht _ E2) as (? & ? & ?). auto. }
  unfold find_template in E.
  destruct (String.eqb meth "auto") eqn:Ea.
  { apply String.eqb_eq in Ea. subst meth.
    assert (H : PrimFloat.leb c (confidence r) = true /\ centered r
                /\ (In (method r) multi_scale_tags /\ ms = true
                    \/ method r = "feature" \/ method r = "template")).
    { destruct ms.
      - apply bind_Ok in E. destruct E as ([r1|] & l1 & l2 & E1 & E2 & _).
        + inversion E2; subst. destruct (Hms _ E1) as (? & ? & ?). auto.
        + destruct (Hft _ E2) as (? & ? & ?). tauto.
      - destruct (Hft _ E) as (? & ? & ?). tauto. }
    destruct H as (? & ? & Htag). splits; auto; try discriminate.
    - tauto.
    - intros _ -> Hin. destruct Htag as [[_ ?]|[?|?]]; [discriminate| |];
        tag_clash. }
  destruct (String.eqb meth "template") eqn:Et.
  { apply String.eqb_eq in Et. subst meth.
    destruct (Ht _ E) as (? & ? & ?). splits; auto; discriminate. }
  destruct (String.eqb meth "feature") eqn:Ef.
  { apply String.eqb_eq in Ef. subst meth.
    destruct (Hf _ E) as (? & ? & ?). splits; auto; discriminate. }
  destruct (String.eqb meth "multi_scale") eqn:Em; [|discriminate E].
  apply String.eqb_eq in Em. subst meth.
  destruct (Hms _ E) as (? & ? & ?). splits; auto; discriminate.
Qed.

(** A template found by the multi-scale matcher under ["auto"]. *)
Lemma find_template_result_witness :
  exists r l,
    find_template (sim graded) (blank [100; 100]) (blank [20; 20]) 0.5
                  "auto" true = (Ok (Some r), l)
    /\ PrimFloat.leb 0.5 (confidence r) = true
    /\ centered r.
Proof.
  do 2 eexists. split; [vm_compute; reflexivity|].
  match goal with
  | |- PrimFloat.leb _ (confidence ?r) = true /\ _ =>
      destruct (find_template_result (sim graded) (blank [100; 100])
                  (blank [20; 20]) 0.5 "auto" true r _
                  ltac:(vm_compute; reflexivity))
        as (H1 & H2 & _)
  end.
  split; [exact H1 | exact H2].
Defined.

(** X7.  The method tag of a result of [find_template_with_fallbacks] names
    the stage that produced it, and with it the threshold that the
    confidence is known to meet: a multi-scale tag, the caller's threshold;
    ["feature"], 0.9 of it; ["template"], 0.8 of it; a preprocessing tag,
    0.7 of it; ["template_low_confidence"], 0.5.  The tag is always one of
    these, and the centre of the result is the middle of its box. *)
Theorem cascade_tag_names_the_stage :
  forall (ext : externals) (screenshot template : ndarray) (c : float)
         (r : MatchResult) (l : log),
    find_template_with_fallbacks ext screenshot template c
    = (Ok (Some r), l) ->
    centered r
    /\ (In (method r) multi_scale_tags \/ method r = "feature"
        \/ method r = "template" \/ In (method r) preprocessed_tags
        \/ method r = "template_low_confidence")
    /\ (In (method r) multi_scale_tags ->
        PrimFloat.leb c (confidence r) = true)
    /\ (method r = "feature" ->
        PrimFloat.leb (PrimFloat.mul c 0.9) (confidence r) = true)
    /\ (method r = "template" ->
        PrimFloat.leb (PrimFloat.mul c 0.8) (confidence r) = true)
    /\ (In (method r) preprocessed_tags ->
        PrimFloat.leb (PrimFloat.mul c 0.7) (confidence r) = true)
    /\ (method r = "template_low_confidence" ->
        PrimFloat.leb 0.5 (confidence r) = true).
Proof.
  intros ext s t c r l E.
  destruct (find_template_with_fallbacks_stage _ _ _ _ _ _ E)
    as [[l1 E1]|[[l1 E1]|[[l1 E1]|[[l1 E1]|(r0 & l3 & l5 & _ & E1 & ->)]]]].
  - pose proof (_match_multi_scale_meets _ _ _ _ _ _ E1) as Hc.
    destruct (_match_multi_scale_every _ _ _ _ _ _ E1)
      as (_ & _ & _ & Hcen & Htag & _).
    splits; auto; intros; tag_clash.
  - pose proof (_match_features_meets _ _ _ _ _ _ E1) as Hc.
    destruct (_match_features_every _ _ _ _ _ _ E1) as (Hcen & Htag).
    splits; auto; intros; tag_clash.
  - pose proof (_match_template_meets _ _ _ _ _ _ E1) as Hc.
    destruct (_match_template_every _ _ _ _ _ _ E1) as (Hcen & Htag).
    splits; auto; intros; tag_clash.
  - pose proof (_match_with_preprocessing_meets _ _ _ _ _ _ E1) as Hc.
    destruct (_match_with_preprocessing_every _ _ _ _ _ _ E1) as (Hcen & Htag).
    splits; auto 6; intros; tag_clash.
  - pose proof (_match_template_meets _ _ _ _ _ _ E1) as Hc.
    destruct (_match_template_every _ _ _ _ _ _ E1) as (Hcen & Htag).
    assert (Htag' : method (method_append r0 "_low_confidence")
                    = "template_low_confidence")
      by (cbn [method_append method]; now rewrite Htag).
    split; [exact Hcen|]. split; [auto 6|].
    cbn [method_append confidence] in *.
    splits; auto; intros; tag_clash.
Qed.

(** A result of the first stage, tagged with its scale. *)
Lemma cascade_tag_names_the_stage_witness :
  exists r l,
    find_template_with_fallbacks (sim graded) (blank [100; 100])
      (blank [20; 20]) 0.5 = (Ok (Some r), l)
    /\ method r = "multi_scale_0.8x"
    /\ PrimFloat.leb 0.5 (confidence r) = true.
Proof.
  do 2 eexists. split; [vm_compute; reflexivity|].
  split; [reflexivity|].
  match goal with
  | |- PrimFloat.leb _ (confidence ?r) = true =>
      destruct (cascade_tag_names_the_stage (sim graded) (blank [100; 100])
                  (blank [20; 20]) 0.5 r _ ltac:(vm_compute; reflexivity))
        as (_ & _ & H & _)
  end.
  apply H. rewrite multi_scale_tags_eq. cbn. auto.
Defined.

(** X8.  With a threshold [c] for which [c * 0.8 <= 0.5] (0.625 and
    below), the last resort of [find_template_with_fallbacks] never yields
    anything: it repeats the third stage's [_match_template] with a
    threshold that is no lower, so when it is reached it finds nothing
    again.  Every result then comes from one of the first four stages, and
    none carries the low-confidence mark. *)
Theorem last_resort_needs_a_high_threshold :
  forall (ext : externals) (screenshot template : ndarray) (c : float)
         (r : MatchResult) (l : log),
    PrimFloat.leb (PrimFloat.mul c 0.8) 0.5 = true ->
    find_template_with_fallbacks ext screenshot template c
    = (Ok (Some r), l) ->
    method r <> "template_low_confidence"
    /\ ((exists l1, _match_multi_scale ext screenshot template c
                    = (Ok (Some r), l1))
        \/ (exists l1, _match_features ext screenshot template
                         (PrimFloat.mul c 0.9) = (Ok (Some r), l1))
        \/ (exists l1, _match_template ext screenshot template
                         (PrimFloat.mul c 0.8) = (Ok (Some r), l1))
        \/ (exists l1, _match_with_preprocessing ext screenshot template
                         (PrimFloat.mul c 0.7) = (Ok (Some r), l1))).
Proof.
  intros ext s t c r l Hle E.
  destruct (find_template_with_fallbacks_stage _ _ _ _ _ _ E)
    as [[l1 E1]|[[l1 E1]|[[l1 E1]|[[l1 E1]|(r0 & l3 & l5 & E3 & E5 & ->)]]]].
  - split; [|eauto].
    destruct (_match_multi_scale_every _ _ _ _ _ _ E1)
      as (_ & _ & _ & _ & Htag & _).
    intros Hm. tag_clash.
  - split; [|eauto].
    destruct (_match_features_every _ _ _ _ _ _ E1) as (_ & Htag).
    congruence.
  - split; [|eauto 6].
    destruct (_match_template_every _ _ _ _ _ _ E1) as (_ & Htag).
    congruence.
  - split; [|eauto 8].
    destruct (_match_with_preprocessing_every _ _ _ _ _ _ E1) as (_ & Htag).
    intros Hm. tag_clash.
  - rewrite (_match_template_stricter _ _ _ _ _ _ Hle E3) in E5.
    discriminate E5.
Qed.

(** With threshold 0.6 a result comes from an earlier stage. *)
Lemma last_resort_needs_a_high_threshold_witness :
  exists r l,
    find_template_with_fallbacks (sim graded) (blank [100; 100])
      (blank [20; 20]) 0.6 = (Ok (Some r), l)
    /\ method r <> "template_low_confidence".
Proof.
  do 2 eexists. split; [vm_compute; reflexivity|].
  match goal with
  | |- method ?r <> _ =>
      destruct (last_resort_needs_a_high_threshold (sim graded)
                  (blank [100; 100]) (blank [20; 20]) 0.6 r _
                  ltac:(vm_compute; reflexivity)
                  ltac:(vm_compute; reflexivity))
        as (H & _)
  end.
  exact H.
Defined.

Lemma for_each_log {A St} (P : cv_call -> Prop) (body : A -> St -> W St) :
  (forall a st, Forall P (snd (body a st))) ->
  forall xs st, Forall P (snd (for_each xs body st)).
Proof.
  intros Hbody. induction xs as [|a xs IH]; intros st; cbn [for_each].
  - constructor.
  - unfold bind. pose proof (Hbody a st) as Ha.
    destruct (body a st) as [[st1|e] l1]; cbn [snd] in *; [|exact Ha].
    pose proof (IH st1) as Hx.
    destruct (for_each xs body st1) as [o l2]. cbn [snd] in *.
    apply Forall_app. auto.
Qed.

Lemma Forall_bind {A B} (P : cv_call -> Prop) (c : W A) (k : A -> W B) :
  Forall P (snd c) ->
  (forall a, fst c = Ok a -> Forall P (snd (k a))) ->
  Forall P (snd (bind c k)).
Proof.
  intros Hc Hk. unfold bind. destruct c as [[a|e] l]; cbn [fst snd] in *;
    [|exact Hc].
  specialize (Hk a eq_refl). destruct (k a) as [o l']. cbn [snd] in *.
  apply Forall_app. auto.
Qed.

Ltac log_step :=
  apply Forall_bind;
  [first [constructor; [exact I|constructor] | constructor] | intros ? ?].

Lemma _match_multi_scale_body_log ext gs gt oh ow c scale st :
  Forall (resize_in_bounds gs)
         (snd (_match_multi_scale_body ext gs gt oh ow c scale st)).
Proof.
  unfold _match_multi_scale_body. destruct st as [br bc].
  log_step. log_step.
  apply Forall_bind; [constructor|intros rows Hrows].
  destruct (_ >? rows) eqn:Eh; [constructor|].
  apply Forall_bind; [constructor|intros cols Hcols].
  destruct (_ >? cols) eqn:Ew; [constructor|].
  match goal with |- context [if ?b then _ else _] => destruct b eqn:Esmall end;
    [constructor|].
  apply orb_false_elim in Esmall. destruct Esmall as [Hh10 Hw10].
  apply Z.ltb_ge in Hh10, Hw10. rewrite Z.gtb_ltb in Eh, Ew.
  apply Z.ltb_ge in Eh, Ew. unfold lift in Hrows, Hcols. cbn [fst] in *.
  apply Forall_bind.
  { constructor; [|constructor]. cbn [resize_in_bounds fst snd].
    repeat match goal with |- _ /\ _ => split end; auto.
    - intros rows' E. replace rows' with rows by congruence. exact Eh.
    - intros cols' E. replace cols' with cols by congruence. exact Ew. }
  intros scaled _. log_step. log_step.
  match goal with p : (float * float * (Z * Z) * (Z * Z))%type |- _ =>
    destruct p as [[[min_val max_val] min_loc] max_loc] end.
  match goal with |- context [if ?b then _ else _] => destruct b end;
    constructor.
Qed.

(** A scale whose scaled template is larger than the screenshot, or
    smaller than 10 by 10, leaves the state as it is and calls nothing. *)
Lemma _match_multi_scale_body_skip ext gs gt oh ow c scale st sw sh rows cols :
  int_of_float (PrimFloat.mul (float_of_int ow) scale) = Ok sw ->
  int_of_float (PrimFloat.mul (float_of_int oh) scale) = Ok sh ->
  py_index (shape gs) 0 = Ok rows ->
  py_index (shape gs) 1 = Ok cols ->
  rows < sh \/ cols < sw \/ sh < 10 \/ sw < 10 ->
  _match_multi_scale_body ext gs gt oh ow c scale st = (Ok st, []).
Proof.
  intros Hsw Hsh Hrows Hcols Hout. unfold _match_multi_scale_body.
  destruct st as [br bc].
  rewrite Hsw, bind_lift_Ok, Hsh, bind_lift_Ok, Hrows, bind_lift_Ok.
  destruct (sh >? rows) eqn:Eh; [reflexivity|].
  rewrite Hcols, bind_lift_Ok.
  destruct (sw >? cols) eqn:Ew; [reflexivity|].
  destruct ((sh <? 10) || (sw <? 10)) eqn:Es; [reflexivity|].
  exfalso. apply orb_false_elim in Es. destruct Es as [Hh10 Hw10].
  apply Z.ltb_ge in Hh10, Hw10. rewrite Z.gtb_ltb in Eh, Ew.
  apply Z.ltb_ge in Eh, Ew. lia.
Qed.

Lemma _match_multi_scale_log ext s t c gs lg :
  to_gray ext s = (Ok gs, lg) ->
  Forall (resize_in_bounds gs) (snd (_match_multi_scale ext s t c)).
Proof.
  intros Eg. unfold _match_multi_scale.
  apply Forall_bind.
  { rewrite Eg. cbn [snd]. destruct (to_gray_log ext s) as [E|E];
      rewrite Eg in E; cbn [snd] in E; rewrite E; repeat constructor. }
  intros gs' Egs. rewrite Eg in Egs. cbn [fst] in Egs.
  injection Egs as <-.
  apply Forall_bind.
  { destruct (to_gray_log ext t) as [E|E]; rewrite E; repeat constructor. }
  intros gt _. apply Forall_bind; [constructor|]. intros [oh ow] _.
  apply Forall_bind; [|intros; constructor].
  apply for_each_log. intros. apply _match_multi_scale_body_log.
Qed.

(** X9.  The box of a result of [_match_multi_scale], whatever OpenCV
    answers: it is at least 10 by 10, and no higher or wider than the
    (gray) screenshot that was searched.  Smaller and larger scaled
    templates are skipped before any call: every [resize] in the call log
    asks for a size within these bounds, and a turn of the loop whose
    scaled size is outside them leaves the best result as it is and calls
    nothing. *)
Theorem multi_scale_box_size :
  forall (ext : externals) (screenshot template : ndarray) (c : float)
         (r : MatchResult) (l : log),
    _match_multi_scale ext screenshot template c = (Ok (Some r), l) ->
    10 <= width r /\ 10 <= height r
    /\ exists gray_screenshot lg,
         to_gray ext screenshot = (Ok gray_screenshot, lg)
         /\ (forall rows cols rest,
               shape gray_screenshot = rows :: cols :: rest ->
               height r <= rows /\ width r <= cols)
         /\ Forall (resize_in_bounds gray_screenshot) l
         /\ (forall gray_template original_h original_w scale st
                    scaled_w scaled_h rows cols,
               int_of_float (PrimFloat.mul (float_of_int original_w) scale)
               = Ok scaled_w ->
               int_of_float (PrimFloat.mul (float_of_int original_h) scale)
               = Ok scaled_h ->
               py_index (shape gray_screenshot) 0 = Ok rows ->
               py_index (shape gray_screenshot) 1 = Ok cols ->
               rows < scaled_h \/ cols < scaled_w
               \/ scaled_h < 10 \/ scaled_w < 10 ->
               _match_multi_scale_body ext gray_screenshot gray_template
                 original_h original_w c scale st = (Ok st, [])).
Proof.
  intros ext s t c r l E.
  destruct (_match_multi_scale_every _ _ _ _ _ _ E)
    as (gs & lg & Eg & _ & _ & Hw & Hh & Hrows & Hcols).
  split; [exact Hw|]. split; [exact Hh|].
  exists gs, lg. split; [exact Eg|]. split; [|split].
  - intros rows cols rest Hshape. rewrite Hshape in *.
    split; [apply Hrows | apply Hcols]; reflexivity.
  - pose proof (_match_multi_scale_log ext s t c gs lg Eg) as Hl.
    rewrite E in Hl. exact Hl.
  - intros. eapply _match_multi_scale_body_skip; eauto.
Qed.

(** A 20x20 template on a 30x30 frame: the scales from 0.5 to 1.5 fit, and
    the five larger ones are skipped: the log has one conversion less than
    eleven times the three calls of a turn that is not skipped. *)
Lemma multi_scale_box_size_witness :
  exists r l,
    _match_multi_scale (sim graded) (blank [30; 30]) (blank [20; 20]) 0.3
    = (Ok (Some r), l)
    /\ 10 <= width r /\ 10 <= height r
    /\ Forall (resize_in_bounds (blank [30; 30])) l
    /\ len l = 33.
Proof.
  do 2 eexists. split; [vm_compute; reflexivity|].
  match goal with
  | |- 10 <= width ?r /\ _ =>
      destruct (multi_scale_box_size (sim graded) (blank [30; 30])
                  (blank [20; 20]) 0.3 r _ ltac:(vm_compute; reflexivity))
        as (H1 & H2 & gs & lg & Eg & _ & Hl & _)
  end.
  vm_compute in Eg. injection Eg as <- _.
  split; [exact H1|]. split; [exact H2|]. split; [exact Hl|reflexivity].
Defined.

(* ================================================================== *)
(** * Which token [find_text] picks *)
(* ================================================================== *)

(** A property of the loop state and the items seen so far that every
    turn preserves holds of the whole list when the loop ends. *)
Lemma for_each_seen {A St} (P : list A -> St -> Prop) (body : A -> St -> W St) :
  (forall seen a st st' l,
     P seen st -> body a st = (Ok st', l) -> P (seen ++ [a]) st') ->
  forall xs seen st st' l,
    P seen st -> for_each xs body st = (Ok st', l) -> P (seen ++ xs) st'.
Proof.
  intros Hbody. induction xs as [|a xs IH]; intros seen st st' l Hst E;
    cbn in E.
  - inversion E; subst. now rewrite app_nil_r.
  - apply bind_Ok in E. destruct E as (st1 & l1 & l2 & E1 & E2 & _).
    replace (seen ++ a :: xs) with ((seen ++ [a]) ++ xs)
      by (now rewrite <- app_assoc).
    eapply IH; [|exact E2]. eapply Hbody; eauto.
Qed.

Lemma leb_zero_zero : PrimFloat.leb 0 0 = true.
Proof. reflexivity. Qed.

(** A token that does not pass the filters, or does not beat the best
    match, leaves the state as it is. *)
Lemma best_token_skip ext tokens tl c fz seen st i tx :
  best_token ext tokens tl c fz seen st ->
  (forall conf, token_passes tokens c i tx conf ->
     PrimFloat.leb fz (token_similarity ext tl tx) = true ->
     PrimFloat.ltb (snd st) (token_similarity ext tl tx) = false) ->
  best_token ext tokens tl c fz (seen ++ [(i, tx)]) st.
Proof.
  intros (H0 & Hnone & Hsome) Hskip. split; [exact H0|]. split.
  - intros En. destruct (Hnone En) as (Hz & Hall). split; [exact Hz|].
    intros j tj cj Hin Hp Hfz. apply in_app_iff in Hin.
    destruct Hin as [Hin|[Heq|[]]]; [eauto|].
    inversion Heq; subst j tj. rewrite <- Hz. eauto.
  - intros m Em.
    destruct (Hsome m Em)
      as (Hs & Ht & Hfz & Hpos & conf & before & after & -> & Hp & Hc
          & Hb & Ha).
    splits; auto.
    exists conf, before, (after ++ [(i, tx)]).
    rewrite <- app_assoc. splits; auto.
    intros j tj cj Hin Hpj Hfzj. apply in_app_iff in Hin.
    destruct Hin as [Hin|[Heq|[]]]; [eauto|].
    inversion Heq; subst j tj.
    apply not_ltb_leb; [eapply leb_refl_r; exact H0
                       |eapply leb_refl_r; exact Hfzj|eauto].
Qed.

(** A token that passes everything and beats the best match replaces it. *)
Lemma best_token_take ext tokens tl c fz seen st i tx conf :
  best_token ext tokens tl c fz seen st ->
  token_passes tokens c i tx conf ->
  PrimFloat.leb fz (token_similarity ext tl tx) = true ->
  PrimFloat.ltb (snd st) (token_similarity ext tl tx) = true ->
  best_token ext tokens tl c fz (seen ++ [(i, tx)])
    (Some {| index := i; similarity := token_similarity ext tl tx;
             ocr_confidence := PrimFloat.div conf 100.0; text := tx |},
     token_similarity ext tl tx).
Proof.
  intros (H0 & Hnone & Hsome) Hp Hfz Hlt.
  assert (Hpos : PrimFloat.ltb 0 (token_similarity ext tl tx) = true)
    by (eapply leb_ltb_trans; eauto).
  split; [cbn [snd]; now apply ltb_leb|].
  split; [discriminate|].
  intros m Em. cbn [fst] in Em. inversion Em; subst m.
  cbn [snd index similarity ocr_confidence text].
  splits; auto.
  exists conf, seen, []. split; [reflexivity|]. split; [exact Hp|].
  split; [reflexivity|]. split; [|intros ? ? ? []].
  intros j tj cj Hin Hpj Hfzj.
  destruct (fst st) as [m0|] eqn:E0.
  - destruct (Hsome m0 eq_refl)
      as (Hs & Ht & Hfz0 & Hpos0 & conf0 & before & after & -> & Hp0 & Hc0
          & Hb & Ha).
    apply in_app_iff in Hin. destruct Hin as [Hin|[Heq|Hin]].
    + eapply ltb_leb_trans; [eapply Hb; eauto|now apply ltb_leb].
    + inversion Heq; subst j tj. rewrite <- Ht, Hs. exact Hlt.
    + eapply leb_ltb_trans; [eapply Ha; eauto|exact Hlt].
  - destruct (Hnone eq_refl) as (Hz & Hall).
    eapply leb_ltb_trans; [|exact Hpos].
    apply not_ltb_leb; [exact leb_zero_zero
                       |eapply leb_refl_r; exact Hfzj|eauto].
Qed.

Lemma find_text_body_best_token ext tokens tl c fz seen it st st' l :
  best_token ext tokens tl c fz seen st ->
  find_text_body ext tokens tl c fz it st = (Ok st', l) ->
  best_token ext tokens tl c fz (seen ++ [it]) st'.
Proof.
  intros Hst E. destruct it as [i tx], st as [bm bs].
  unfold find_text_body in E.
  destruct (is_empty tx || is_empty (strip tx)) eqn:Eb.
  { inversion E; subst. apply best_token_skip; [exact Hst|].
    intros conf (Hb & _) _. congruence. }
  apply bind_Ok in E. destruct E as (conf & l1 & l2 & E1 & E & _).
  unfold lift in E1. injection E1 as E1 _.
  destruct (PrimFloat.ltb (PrimFloat.div conf 100.0) c) eqn:Ec.
  { inversion E; subst. apply best_token_skip; [exact Hst|].
    intros conf' (_ & Hc' & Hlow) _. rewrite E1 in Hc'.
    injection Hc' as <-. congruence. }
  fold (token_similarity ext tl tx) in E.
  destruct (PrimFloat.leb fz (token_similarity ext tl tx)) eqn:Efz;
    cbn [andb] in E.
  - destruct (PrimFloat.ltb bs (token_similarity ext tl tx)) eqn:Elt;
      inversion E; subst.
    + eapply best_token_take; eauto. unfold token_passes. auto.
    + apply best_token_skip; [exact Hst|]. intros; exact Elt.
  - inversion E; subst. apply best_token_skip; [exact Hst|].
    intros; congruence.
Qed.

Lemma best_token_initial ext tokens tl c fz :
  best_token ext tokens tl c fz [] (None, 0%float).
Proof.
  split; [reflexivity|]. split; [|discriminate].
  intros _. split; [reflexivity|]. intros ? ? ? [].
Qed.

(** X10.  Which token [find_text] answers with, when the scan of the OCR
    dictionary [tokens] returns.  A result is the box of a token that is
    not blank, whose OCR confidence is not below [confidence], and whose
    similarity to the cleaned target is at least [fuzzy_threshold] and
    positive; every such token before it in the dictionary has a strictly
    smaller similarity and none after it a greater one (the first of the
    best wins); the result's confidence is [similarity * 0.7 +
    ocr_confidence * 0.3], its centre the middle of the box and its tag
    the similarity with two decimals.  There is no result only when no
    token that passes the filters and the fuzzy threshold has a positive
    similarity. *)
Theorem find_text_picks_first_best_token :
  forall (ext : externals) (tokens : ocr_data) (target_text : string)
         (c fz : float) (res : option MatchResult) (l : log),
    find_text_in ext tokens target_text c fz = (Ok res, l) ->
    match res with
    | Some r =>
        exists i tx conf before after,
          enumerate (ocr_text tokens) = before ++ (i, tx) :: after
          /\ token_passes tokens c i tx conf
          /\ PrimFloat.leb fz
               (token_similarity ext (strip (py_lower target_text)) tx) = true
          /\ PrimFloat.ltb 0
               (token_similarity ext (strip (py_lower target_text)) tx) = true
          /\ (forall j tj cj,
                In (j, tj) before -> token_passes tokens c j tj cj ->
                PrimFloat.leb fz
                  (token_similarity ext (strip (py_lower target_text)) tj)
                = true ->
                PrimFloat.ltb
                  (token_similarity ext (strip (py_lower target_text)) tj)
                  (token_similarity ext (strip (py_lower target_text)) tx)
                = true)
          /\ (forall j tj cj,
                In (j, tj) after -> token_passes tokens c j tj cj ->
                PrimFloat.leb fz
                  (token_similarity ext (strip (py_lower target_text)) tj)
                = true ->
                PrimFloat.leb
                  (token_similarity ext (strip (py_lower target_text)) tj)
                  (token_similarity ext (strip (py_lower target_text)) tx)
                = true)
          /\ py_index (ocr_left tokens) i = Ok (x r)
          /\ py_index (ocr_top tokens) i = Ok (y r)
          /\ py_index (ocr_width tokens) i = Ok (width r)
          /\ py_index (ocr_height tokens) i = Ok (height r)
          /\ confidence r =
             PrimFloat.add
               (PrimFloat.mul
                  (token_similarity ext (strip (py_lower target_text)) tx) 0.7)
               (PrimFloat.mul (PrimFloat.div conf 100.0) 0.3)
          /\ centered r
          /\ method r =
             ("ocr_fuzzy(" ++
              format_fixed 2
                (token_similarity ext (strip (py_lower target_text)) tx)
              ++ ")")%string
    | None =>
        forall j tj cj,
          In (j, tj) (enumerate (ocr_text tokens)) ->
          token_passes tokens c j tj cj ->
          PrimFloat.leb fz
            (token_similarity ext (strip (py_lower target_text)) tj) = true ->
          PrimFloat.ltb 0
            (token_similarity ext (strip (py_lower target_text)) tj) = false
    end.
Proof.
  intros ext tokens target c fz res l E. unfold find_text_in in E.
  apply bind_Ok in E. destruct E as ([bm bs] & l1 & l2 & Eloop & E & _).
  apply (for_each_seen (best_token ext tokens (strip (py_lower target)) c fz)
           _ (fun seen a st st' l H E =>
                find_text_body_best_token ext tokens _ c fz seen a st st' l H E)
           _ [] _ _ _ (best_token_initial _ _ _ _ _)) in Eloop.
  cbn [app] in Eloop. destruct Eloop as (H0 & Hnone & Hsome).
  cbn [fst snd] in *. destruct bm as [m|].
  - destruct (Hsome m eq_refl)
      as (Hs & Ht & Hfz & Hpos & conf & before & after & Hsplit & Hp & Hc
          & Hb & Ha).
    clear Hnone Hsome. subst bs. rewrite Ht in Hfz, Hpos, Hb, Ha.
    inv_ok. subst.
    exists (index m), (text m), conf, before, after.
    cbn [x y width height confidence method]. rewrite Hc, Ht.
    splits; auto. split; reflexivity.
  - inversion E; subst. destruct (Hnone eq_refl) as (_ & Hall). exact Hall.
Qed.

(** Of two tokens that contain the target, the first is the answer, even
    though the second was read with a better OCR confidence. *)
Lemma find_text_picks_first_best_token_witness :
  exists r l,
    find_text_in (sim dull) two_logins "log" 0.8 0.6 = (Ok (Some r), l)
    /\ top_left r = (300, 200)
    /\ exists i tx conf before after,
         enumerate (ocr_text two_logins) = before ++ (i, tx) :: after
         /\ token_passes two_logins 0.8 i tx conf.
Proof.
  do 2 eexists. split; [vm_compute; reflexivity|]. split; [reflexivity|].
  match goal with
  | |- _ =>
      pose proof (find_text_picks_first_best_token (sim dull) two_logins "log"
                    0.8 0.6 _ _ ltac:(vm_compute; reflexivity)) as H
  end.
  cbv beta iota in H.
  destruct H as (i & tx & conf & before & after & H1 & H2 & _).
  exists i, tx, conf, before, after. split; [exact H1 | exact H2].
Defined.


(* ================================================================== *)
(** * MultiMonitorMatcher *)
(* ================================================================== *)

Lemma monitor_contains_test m px py :
  (mon_x m <=? px) && (px <? mon_x m + mon_width m)
  && ((mon_y m <=? py) && (py <? mon_y m + mon_height m)) = true
  <-> monitor_contains m px py.
Proof.
  unfold monitor_contains.
  rewrite !andb_true_iff, !Z.leb_le, !Z.ltb_lt. tauto.
Qed.

(** X12.  [get_monitor_at_point] returns the first monitor of the list on
    which the point lies (left and top edges included, right and bottom
    edges excluded), and [None] exactly when the point lies on none. *)
Theorem get_monitor_at_point_first :
  forall (monitor_info : list monitor) (px py : Z),
    match get_monitor_at_point monitor_info px py with
    | Some m =>
        exists before after,
          monitor_info = before ++ m :: after
          /\ monitor_contains m px py
          /\ forall m', In m' before -> ~ monitor_contains m' px py
    | None => forall m, In m monitor_info -> ~ monitor_contains m px py
    end.
Proof.
  intros monitor_info px py.
  induction monitor_info as [|m later IH]; cbn [get_monitor_at_point].
  - intros m [].
  - destruct ((mon_x m <=? px) && (px <? mon_x m + mon_width m)
              && ((mon_y m <=? py) && (py <? mon_y m + mon_height m)))
      eqn:Et.
    + exists [], later. split; [reflexivity|].
      split; [now apply monitor_contains_test|]. intros m' [].
    + assert (Hm : ~ monitor_contains m px py).
      { intros Hc. apply monitor_contains_test in Hc. congruence. }
      destruct (get_monitor_at_point later px py) as [m0|].
      * destruct IH as (before & after & -> & Hc & Hb).
        exists (m :: before), after. split; [reflexivity|].
        split; [exact Hc|]. intros m' [<-|Hin]; auto.
      * intros m' [<-|Hin]; auto.
Qed.





(** A template that [find_template] finds on the screenshot: with the
    assumed monitor it is returned as found; after a [system_profiler]
    that ended with return code 1 nothing is returned. *)
Example found_but_no_monitor :
  find_template (sim graded) (blank [100; 100]) (blank [20; 20]) 0.5
                "auto" true
  = (Ok (Some {| x := 0; y := 0; width := 16; height := 16;
                 confidence := 0.6; center_x := 8; center_y := 8;
                 method := "multi_scale_0.8x" |}),
     snd (find_template (sim graded) (blank [100; 100]) (blank [20; 20]) 0.5
                        "auto" true))
  /\ fst (find_template_all_monitors (sim graded) answering
            (_get_monitor_info (Ok 0)) (blank [20; 20]) 0.5 "auto")
     = Ok [{| x := 0; y := 0; width := 16; height := 16;
              confidence := 0.6; center_x := 8; center_y := 8;
              method := "multi_scale_0.8x" |}]
  /\ fst (find_template_all_monitors (sim graded) answering
            (_get_monitor_info (Ok 1)) (blank [20; 20]) 0.5 "auto")
     = Ok [].
Proof. repeat split; vm_compute; reflexivity. Qed.

(* ================================================================== *)
(** * Which formula and which transform the matchers keep *)
(* ================================================================== *)

Section FirstBest.
Context {A : Type} (score : A -> option float) (c : float).

Lemma first_best_initial : first_best score c [] None 0%float.
Proof.
  split; [reflexivity|]. split; [|discriminate].
  intros _. split; [reflexivity|]. intros ? ? [].
Qed.

(** A candidate that is skipped, or whose score does not beat the best,
    leaves the state as it is. *)
Lemma first_best_skip seen pick bc a :
  first_best score c seen pick bc ->
  (forall v, score a = Some v -> PrimFloat.leb c v = true ->
             PrimFloat.ltb bc v = false) ->
  first_best score c (seen ++ [a]) pick bc.
Proof.
  intros (H0 & Hnone & Hsome) Hskip. split; [exact H0|]. split.
  - intros En. destruct (Hnone En) as (Hz & Hall). split; [exact Hz|].
    intros a' v Hin Hs Hc. apply in_app_iff in Hin.
    destruct Hin as [Hin|[<-|[]]]; [eauto|]. rewrite <- Hz. eauto.
  - intros a0 Ea.
    destruct (Hsome a0 Ea) as (before & after & -> & Hs & Hc & Hpos & Hb & Ha).
    exists before, (after ++ [a]). rewrite <- app_assoc.
    splits; auto.
    intros a' v Hin Hs' Hc'. apply in_app_iff in Hin.
    destruct Hin as [Hin|[<-|[]]]; [eauto|].
    apply not_ltb_leb; [eapply leb_refl_r; exact H0
                       |eapply leb_refl_r; exact Hc'|eauto].
Qed.

(** A candidate whose score beats the best and meets the threshold
    replaces it. *)
Lemma first_best_take seen pick bc a v :
  first_best score c seen pick bc ->
  score a = Some v ->
  PrimFloat.ltb bc v = true -> PrimFloat.leb c v = true ->
  first_best score c (seen ++ [a]) (Some a) v.
Proof.
  intros (H0 & Hnone & Hsome) Hs Hlt Hc.
  assert (Hpos : PrimFloat.ltb 0 v = true) by (eapply leb_ltb_trans; eauto).
  split; [now apply ltb_leb|]. split; [discriminate|].
  intros a0 Ea. inversion Ea; subst a0.
  exists seen, []. split; [reflexivity|]. split; [exact Hs|].
  split; [exact Hc|]. split; [exact Hpos|]. split; [|intros ? ? []].
  intros a' v' Hin Hs' Hc'.
  destruct pick as [a0|].
  - destruct (Hsome a0 eq_refl)
      as (before & after & -> & Hs0 & Hc0 & Hpos0 & Hb & Ha).
    apply in_app_iff in Hin. destruct Hin as [Hin|[<-|Hin]].
    + eapply ltb_leb_trans; [eapply Hb; eauto|now apply ltb_leb].
    + rewrite Hs0 in Hs'. inversion Hs'; subst v'. exact Hlt.
    + eapply leb_ltb_trans; [eapply Ha; eauto|exact Hlt].
  - destruct (Hnone eq_refl) as (Hz & Hall).
    eapply leb_ltb_trans; [|exact Hpos].
    apply not_ltb_leb; [exact leb_zero_zero
                       |eapply leb_refl_r; exact Hc'|eauto].
Qed.

End FirstBest.

Lemma _match_template_body_state ext gs gt c seen m st st' l :
  template_state ext gs gt c seen st ->
  _match_template_body ext gs gt c m st = (Ok st', l) ->
  template_state ext gs gt c (seen ++ [m]) st'.
Proof.
  intros (pick & Hfb & Hpick) E. destruct st as [br bc]. cbn [fst snd] in *.
  unfold _match_template_body in E.
  unfold matchTemplate, minMaxLoc, call, bind in E.
  destruct (ext_matchTemplate ext gs gt m) as [res|e] eqn:Em;
    [|discriminate E].
  destruct (ext_minMaxLoc ext res)
    as [[[[min_val max_val] min_loc] max_loc]|e] eqn:Ex; [|discriminate E].
  destruct (if tm_method_eqb m TM_SQDIFF_NORMED
            then ((1 - min_val)%float, min_loc) else (max_val, max_loc))
    as [mc tl] eqn:Ep.
  assert (Ha : formula_attempt ext gs gt m = Ok (mc, tl))
    by (unfold formula_attempt; now rewrite Em, Ex, Ep).
  destruct (PrimFloat.ltb bc mc) eqn:Elt; cbn [andb] in E;
    [destruct (PrimFloat.leb c mc) eqn:Ec|].
  - unfold lift in E.
    destruct (unpack2 (shape gt)) as [[h w]|e] eqn:Eu; [|discriminate E].
    cbn in E. inversion E; subst st' l.
    exists (Some m). cbn [fst snd]. split.
    + eapply first_best_take; eauto. cbn beta. now rewrite Ha.
    + exists mc, tl, h, w. auto.
  - inversion E; subst st' l. exists pick. cbn [fst snd].
    split; [|exact Hpick].
    apply first_best_skip; [exact Hfb|]. cbn beta. rewrite Ha. cbn.
    intros v Hv. inversion Hv; subst v. congruence.
  - inversion E; subst st' l. exists pick. cbn [fst snd].
    split; [|exact Hpick].
    apply first_best_skip; [exact Hfb|]. cbn beta. rewrite Ha. cbn.
    intros v Hv _. inversion Hv; subst v. exact Elt.
Qed.

(** X15.  Which formula [_match_template] keeps, when it returns.  A
    result is the window proposed by one of the three formulas (for the
    squared difference the score is [1 - min_val] at [min_loc], otherwise
    [max_val] at [max_loc]), as wide and high as the gray template; its
    score is at least the threshold and positive; every formula tried
    before it whose score is at least the threshold scored strictly less,
    and none tried after it scored more (the first of the best wins).
    There is no result only when no formula's score is both at least the
    threshold and positive. *)
Theorem match_template_keeps_first_best_formula :
  forall (ext : externals) (screenshot template : ndarray) (c : float)
         (res : option MatchResult) (l : log),
    _match_template ext screenshot template c = (Ok res, l) ->
    exists gray_screenshot gray_template l1 l2,
      to_gray ext screenshot = (Ok gray_screenshot, l1)
      /\ to_gray ext template = (Ok gray_template, l2)
      /\ match res with
         | Some r =>
             exists m before after,
               methods = before ++ m :: after
               /\ formula_attempt ext gray_screenshot gray_template m
                  = Ok (confidence r, (x r, y r))
               /\ unpack2 (shape gray_template) = Ok (height r, width r)
               /\ PrimFloat.leb c (confidence r) = true
               /\ PrimFloat.ltb 0 (confidence r) = true
               /\ (forall m' v loc,
                     In m' before ->
                     formula_attempt ext gray_screenshot gray_template m'
                     = Ok (v, loc) ->
                     PrimFloat.leb c v = true ->
                     PrimFloat.ltb v (confidence r) = true)
               /\ (forall m' v loc,
                     In m' after ->
                     formula_attempt ext gray_screenshot gray_template m'
                     = Ok (v, loc) ->
                     PrimFloat.leb c v = true ->
                     PrimFloat.leb v (confidence r) = true)
               /\ centered r /\ method r = "template"
         | None =>
             forall m v loc,
               In m methods ->
               formula_attempt ext gray_screenshot gray_template m
               = Ok (v, loc) ->
               PrimFloat.leb c v = true -> PrimFloat.ltb 0 v = false
         end.
Proof.
  intros ext s t c res l E. unfold _match_template in E.
  apply bind_Ok in E. destruct E as (gs & l1 & ? & E1 & E & _).
  apply bind_Ok in E. destruct E as (gt & l2 & ? & E2 & E & _).
  apply bind_Ok in E. destruct E as ([br bc] & l3 & ? & Eloop & R & _).
  unfold ret in R. injection R as <- _. cbn [fst].
  exists gs, gt, l1, l2. split; [exact E1|]. split; [exact E2|].
  apply (for_each_seen (template_state ext gs gt c) _
           (fun seen a st st' l H E =>
              _match_template_body_state ext gs gt c seen a st st' l H E)
           _ [] (None, 0%float)) in Eloop.
  2:{ exists None. split; [apply first_best_initial|reflexivity]. }
  cbn [app] in Eloop. destruct Eloop as (pick & (H0 & Hnone & Hsome) & Hpick).
  cbn [fst snd] in *. destruct pick as [m|].
  - destruct Hpick as (v & loc & h & w & Ha & Hu & ->).
    destruct (Hsome m eq_refl)
      as (before & after & Hsplit & Hs & Hc & Hpos & Hb & Haft).
    rewrite Ha in Hs. cbn in Hs. inversion Hs; subst bc.
    exists m, before, after. cbn [x y width height confidence method].
    destruct loc as [lx ly]. cbn [fst snd].
    splits; auto.
    + intros m' v' loc' Hin Ha' Hc'. eapply Hb; eauto. now rewrite Ha'.
    + intros m' v' loc' Hin Ha' Hc'. eapply Haft; eauto. now rewrite Ha'.
    + split; reflexivity.
  - rewrite Hpick. destruct (Hnone eq_refl) as (_ & Hall).
    intros m v loc Hin Ha Hc. eapply Hall; eauto. now rewrite Ha.
Qed.

(** The three formulas on a scene where every window scores 0.6 (0.4
    under the squared difference): the first formula is kept. *)
Lemma match_template_keeps_first_best_formula_witness :
  exists r l,
    _match_template (sim graded) (blank [100; 100]) (blank [20; 20]) 0.5
    = (Ok (Some r), l)
    /\ exists m before after,
         methods = before ++ m :: after
         /\ formula_attempt (sim graded) (blank [100; 100]) (blank [20; 20]) m
            = Ok (confidence r, (x r, y r)).
Proof.
  do 2 eexists. split; [vm_compute; reflexivity|].
  pose proof (match_template_keeps_first_best_formula (sim graded)
                (blank [100; 100]) (blank [20; 20]) 0.5 _ _
                ltac:(vm_compute; reflexivity)) as H.
  destruct H as (gs & gt & l1 & l2 & E1 & E2 & m & before & after & Hs & Ha
                 & _).
  vm_compute in E1. vm_compute in E2.
  injection E1 as <- _. injection E2 as <- _.
  exists m, before, after. split; [exact Hs | exact Ha].
Defined.

Lemma _match_with_preprocessing_body_state ext gs gt c seen pm st st' l :
  preprocessing_state ext gs gt c seen st ->
  _match_with_preprocessing_body ext gs gt c pm st = (Ok st', l) ->
  preprocessing_state ext gs gt c (seen ++ [pm]) st'.
Proof.
  intros (pick & Hfb & Hpick) E. destruct st as [br bc].
  cbn [fst snd] in *.
  assert (Hskip :
    (forall v, transform_score ext gs gt pm = Some v ->
               PrimFloat.leb c v = true -> PrimFloat.ltb bc v = false) ->
    st' = (br, bc) ->
    preprocessing_state ext gs gt c (seen ++ [pm]) st').
  { intros Hs ->. exists pick. cbn [fst snd]. split; [|exact Hpick].
    now apply first_best_skip. }
  destruct pm as [name pp].
  unfold _match_with_preprocessing_body, _match_with_preprocessing_try in E.
  unfold transform_score, transform_attempt in Hskip. cbn [fst snd] in Hskip.
  unfold matchTemplate, minMaxLoc, call in E.
  destruct (preprocess_func ext pp gs) as [[ps|e] lps] eqn:Eps;
    cbn [bind try_except fst ret] in *;
    [|apply Hskip; [discriminate|now inversion E]].
  destruct (preprocess_func ext pp gt) as [[pt|e] lpt] eqn:Ept;
    cbn [bind try_except fst ret] in *;
    [|apply Hskip; [discriminate|now inversion E]].
  destruct (ext_matchTemplate ext ps pt TM_CCOEFF_NORMED) as [res|e] eqn:Em;
    cbn [bind try_except fst ret] in *;
    [|apply Hskip; [discriminate|now inversion E]].
  destruct (ext_minMaxLoc ext res)
    as [[[[min_val max_val] min_loc] max_loc]|e] eqn:Ex;
    cbn [bind try_except fst ret] in *;
    [|apply Hskip; [discriminate|now inversion E]].
  destruct (PrimFloat.ltb bc max_val && PrimFloat.leb c max_val)%bool
    eqn:Econd.
  - unfold lift in E.
    destruct (unpack2 (shape pt)) as [[h w]|e] eqn:Eu;
      cbn [bind try_except fst ret] in *;
      [|apply Hskip; [discriminate|now inversion E]].
    inversion E; subst st' l. apply andb_prop in Econd.
    destruct Econd as [Elt Ec].
    exists (Some (name, pp)). cbn [fst snd]. split.
    + eapply first_best_take; eauto.
      unfold transform_score, transform_attempt. cbn [fst snd].
      rewrite Eps, Ept. cbn [fst]. now rewrite Em, Ex, Eu.
    + exists max_val, max_loc, h, w. split; [|reflexivity].
      unfold transform_attempt. cbn [fst snd].
      rewrite Eps, Ept. cbn [fst]. now rewrite Em, Ex, Eu.
  - cbn [bind try_except fst ret] in *.
    apply Hskip; [|now inversion E].
    intros v Hv Hc. destruct (unpack2 (shape pt)) as [[h w]|e];
      [|discriminate Hv].
    inversion Hv; subst v. rewrite Hc, andb_true_r in Econd. exact Econd.
Qed.

(** X16.  Which transform [_match_with_preprocessing] keeps, when it
    returns.  A transform is skipped when anything in its turn raises
    (the transform itself, the matching, or reading height and width off
    a transformed template that is not two-dimensional).  A result is the
    peak window proposed by one of the five named transforms, as wide and
    high as the transformed template, tagged with the transform's name;
    its score is at least the threshold and positive; every transform
    tried before it that was not skipped and scored at least the
    threshold scored strictly less, and none tried after it scored more.
    There is no result only when no transform that was not skipped has a
    score both at least the threshold and positive. *)
Theorem preprocessing_keeps_first_best_transform :
  forall (ext : externals) (screenshot template : ndarray) (c : float)
         (res : option MatchResult) (l : log),
    _match_with_preprocessing ext screenshot template c = (Ok res, l) ->
    exists gray_screenshot gray_template l1 l2,
      to_gray ext screenshot = (Ok gray_screenshot, l1)
      /\ to_gray ext template = (Ok gray_template, l2)
      /\ match res with
         | Some r =>
             exists pm before after,
               preprocessing_methods = before ++ pm :: after
               /\ transform_attempt ext gray_screenshot gray_template pm
                  = Ok (confidence r, (x r, y r), (height r, width r))
               /\ PrimFloat.leb c (confidence r) = true
               /\ PrimFloat.ltb 0 (confidence r) = true
               /\ (forall pm' v loc hw,
                     In pm' before ->
                     transform_attempt ext gray_screenshot gray_template pm'
                     = Ok (v, loc, hw) ->
                     PrimFloat.leb c v = true ->
                     PrimFloat.ltb v (confidence r) = true)
               /\ (forall pm' v loc hw,
                     In pm' after ->
                     transform_attempt ext gray_screenshot gray_template pm'
                     = Ok (v, loc, hw) ->
                     PrimFloat.leb c v = true ->
                     PrimFloat.leb v (confidence r) = true)
               /\ centered r
               /\ method r = ("preprocessed_" ++ fst pm)%string
         | None =>
             forall pm v loc hw,
               In pm preprocessing_methods ->
               transform_attempt ext gray_screenshot gray_template pm
               = Ok (v, loc, hw) ->
               PrimFloat.leb c v = true -> PrimFloat.ltb 0 v = false
         end.
Proof.
  intros ext s t c res l E. unfold _match_with_preprocessing in E.
  apply bind_Ok in E. destruct E as (gs & l1 & ? & E1 & E & _).
  apply bind_Ok in E. destruct E as (gt & l2 & ? & E2 & E & _).
  apply bind_Ok in E. destruct E as ([br bc] & l3 & ? & Eloop & R & _).
  unfold ret in R. injection R as <- _. cbn [fst].
  exists gs, gt, l1, l2. split; [exact E1|]. split; [exact E2|].
  apply (for_each_seen (preprocessing_state ext gs gt c) _
           (fun seen a st st' l H E =>
              _match_with_preprocessing_body_state ext gs gt c seen a st st'
                l H E)
           _ [] (None, 0%float)) in Eloop.
  2:{ exists None. split; [apply first_best_initial|reflexivity]. }
  cbn [app] in Eloop. destruct Eloop as (pick & (H0 & Hnone & Hsome) & Hpick).
  cbn [fst snd] in *. destruct pick as [pm|].
  - destruct Hpick as (v & loc & h & w & Ha & ->).
    destruct (Hsome pm eq_refl)
      as (before & after & Hsplit & Hs & Hc & Hpos & Hb & Haft).
    unfold transform_score in Hs. rewrite Ha in Hs. inversion Hs; subst bc.
    exists pm, before, after. cbn [x y width height confidence method].
    destruct loc as [lx ly]. cbn [fst snd].
    splits; auto.
    + intros pm' v' loc' hw' Hin Ha' Hc'. eapply Hb; eauto.
      unfold transform_score. now rewrite Ha'.
    + intros pm' v' loc' hw' Hin Ha' Hc'. eapply Haft; eauto.
      unfold transform_score. now rewrite Ha'.
    + split; reflexivity.
  - rewrite Hpick. destruct (Hnone eq_refl) as (_ & Hall).
    intros pm v loc hw Hin Ha Hc. eapply Hall; eauto.
    unfold transform_score. now rewrite Ha.
Qed.

(** Five transforms that all score 0.6: the first, ["original"], is
    kept. *)
Lemma preprocessing_keeps_first_best_transform_witness :
  exists r l,
    _match_with_preprocessing (sim graded) (blank [100; 100])
      (blank [20; 20]) 0.5 = (Ok (Some r), l)
    /\ method r = "preprocessed_original"
    /\ exists pm before after,
         preprocessing_methods = before ++ pm :: after
         /\ method r = ("preprocessed_" ++ fst pm)%string.
Proof.
  do 2 eexists. split; [vm_compute; reflexivity|]. split; [reflexivity|].
  pose proof (preprocessing_keeps_first_best_transform (sim graded)
                (blank [100; 100]) (blank [20; 20]) 0.5 _ _
                ltac:(vm_compute; reflexivity)) as H.
  destruct H as (gs & gt & l1 & l2 & _ & _ & pm & before & after & Hs & _ & _
                 & _ & _ & _ & _ & Hm).
  exists pm, before, after. split; [exact Hs | exact Hm].
Defined.

(* ================================================================== *)
(** * [clear] *)
(* ================================================================== *)

(** X17.  [clear] forgets everything, whatever the cache held and however
    fresh it was: it ends normally, leaves both dictionaries empty and the
    configuration as it was, and the next [get_template] of any path goes
    to the file system.  That call returns a template only if the file
    exists and decodes now, and then it is the decoded template; it returns
    [None] only if the file is missing or does not decode, and leaves the
    cache empty; it raises only what [Path(p).exists()] or [cv2.imread]
    raised, or the [ValueError] of an insertion when the capacity is not
    positive. *)
Theorem clear_forgets_everything :
  forall (self : VisionCache) (fs : filesystem) (now : float) (path : string),
    exists self0,
      clear self = Some (Ok tt, self0)
      /\ self0 = VisionCache_init (max_size self) (ttl self)
      /\ get_template fs now path self0 = load_and_cache fs now path self0
      /\ exists r self1,
           get_template fs now path self0 = Some (r, self1)
           /\ match r with
              | Ok (Some v) =>
                  path_exists fs path = Ok true
                  /\ imread fs path = Ok (Some v)
                  /\ dict_lookup (cache self1) path = Some v
              | Ok None => file_missing fs path /\ self1 = self0
              | Raise e => load_raises fs path (max_size self) e
              end.
Proof.
  intros self fs now path.
  exists (VisionCache_init (max_size self) (ttl self)).
  split; [reflexivity|]. split; [reflexivity|].
  assert (Hload : get_template fs now path
                    (VisionCache_init (max_size self) (ttl self))
                  = load_and_cache fs now path
                      (VisionCache_init (max_size self) (ttl self))).
  { apply get_template_load. now apply get_template_cached_absent. }
  split; [exact Hload|].
  destruct (get_template_outcome fs now path
              (VisionCache_init (max_size self) (ttl self))
              (in_sync_init _ _)) as (r & self1 & Hg & Hr).
  exists r, self1. split; [exact Hg|].
  destruct r as [[v|]|e].
  - destruct Hr as (Hc & _ & _ & [(t & Hold & _)|(Hp & Hi)]).
    + cbn in Hold. discriminate Hold.
    + auto.
  - destruct Hr as (Hmiss & _). split; [exact Hmiss|].
    rewrite Hload in Hg. unfold load_and_cache in Hg.
    unfold sbind at 1 in Hg. unfold slift at 1 in Hg.
    destruct Hmiss as [Hp|[Hp Hi]]; rewrite Hp in Hg.
    + now inversion Hg.
    + unfold sbind at 1 in Hg. unfold slift at 1 in Hg. rewrite Hi in Hg.
      now inversion Hg.
  - destruct Hr as (Hr & _). exact Hr.
Qed.
